(** * FileManager: the code-artifact materializer of the coding agent

    A shallow embedding of [dist/utils/fileManager] (class [FileManager]):
    folder-name sanitization, fenced-block extraction, path resolution,
    extension inference, the project writer, the run-instruction
    generator and the tree drawn from a list of paths, together with the
    properties the specification states about them; and of the clean-up
    the agents apply to a model reply before parsing it as JSON.

    JavaScript strings are sequences of UTF-16 code units; they are
    modelled as lists of code units ([N]).  The regular expressions of
    the source are kept as syntax trees and run by a backtracking matcher
    that follows the ECMAScript matching rules (greedy and lazy
    quantifiers, capture groups, [^] with and without the multiline
    flag). *)

From Stdlib Require Import String Ascii List NArith PeanoNat Bool Lia.
From Stdlib Require Import Permutation Sorted.
From Stdlib Require Decimal DecimalString.
Import ListNotations.

Set Implicit Arguments.

(* ================================================================== *)
(** ** JavaScript strings *)
(* ================================================================== *)

Module Js.

(** A string is a list of UTF-16 code units. *)
Definition str := list N.

(** A literal: every character of an ASCII literal is one code unit. *)
Definition lit (s : string) : str :=
  List.map N_of_ascii (list_ascii_of_string s).

Definition LF : N := 10%N.

Fixpoint str_eqb (a b : str) : bool :=
  match a, b with
  | [], [] => true
  | x :: a', y :: b' => N.eqb x y && str_eqb a' b'
  | _, _ => false
  end.

(** Truthiness of a string: non-empty. *)
Definition truthy (s : str) : bool :=
  match s with [] => false | _ :: _ => true end.

Definition in_range (lo hi c : N) : bool := (N.leb lo c && N.leb c hi)%bool.

(** ECMAScript LineTerminator: LF, CR, LS, PS. *)
Definition is_line_terminator (c : N) : bool :=
  (N.eqb c 10 || N.eqb c 13 || N.eqb c 8232 || N.eqb c 8233)%N%bool.

(** ECMAScript WhiteSpace together with LineTerminator: the characters
    removed by [trim] and matched by the class [\s]. *)
Definition is_space (c : N) : bool :=
  (in_range 9 13 c || N.eqb c 32 || N.eqb c 160 || N.eqb c 5760
   || in_range 8192 8202 c || N.eqb c 8232 || N.eqb c 8233
   || N.eqb c 8239 || N.eqb c 8287 || N.eqb c 12288 || N.eqb c 65279)%N%bool.

Definition is_digit (c : N) : bool := in_range 48 57 c.
Definition is_upper (c : N) : bool := in_range 65 90 c.
Definition is_lower (c : N) : bool := in_range 97 122 c.

(** The class [\w]: ASCII letters, digits and underscore. *)
Definition is_word (c : N) : bool :=
  (is_lower c || is_upper c || is_digit c || N.eqb c 95)%N%bool.

Fixpoint trimStart (s : str) : str :=
  match s with
  | c :: s' => if is_space c then trimStart s' else s
  | [] => []
  end.

Definition trimEnd (s : str) : str := rev (trimStart (rev s)).

(** [String.prototype.trim]. *)
Definition trim (s : str) : str := trimEnd (trimStart s).

(** [String.prototype.startsWith]. *)
Fixpoint startsWith (needle s : str) : bool :=
  match needle, s with
  | [], _ => true
  | n :: needle', c :: s' => N.eqb n c && startsWith needle' s'
  | _ :: _, [] => false
  end.

(** [String.prototype.includes]. *)
Fixpoint includes (needle s : str) : bool :=
  startsWith needle s ||
  match s with
  | [] => false
  | _ :: s' => includes needle s'
  end.

(** [String.prototype.endsWith]. *)
Definition endsWith (needle s : str) : bool :=
  startsWith (rev needle) (rev s).

(** [String.prototype.substring(0, n)]. *)
Definition substring0 (n : nat) (s : str) : str := firstn n s.

(** [String.prototype.toLowerCase], on the ASCII letters; the source only
    applies it to a capture of [\w+]. *)
Definition toLowerCase (s : str) : str :=
  List.map (fun c => if is_upper c then (c + 32)%N else c) s.

(** Decimal rendering of a number, as a template literal does for a
    non-negative integer. *)
Definition ofNat (n : nat) : str :=
  lit (DecimalString.NilZero.string_of_uint (Nat.to_uint n)).

Definition any_in (c : N) (s : str) : bool := existsb (N.eqb c) s.

(** [Array.prototype.includes] on an array of strings. *)
Definition arr_includes (x : str) (l : list str) : bool :=
  existsb (str_eqb x) l.

(** Surrogate code units. *)
Definition is_high (c : N) : bool := in_range 55296 56319 c.
Definition is_low (c : N) : bool := in_range 56320 57343 c.

(** [String.prototype.toWellFormed]: every surrogate that is not part of
    a pair becomes U+FFFD.  This is also what a text is after a round
    trip through its UTF-8 encoding. *)
Fixpoint toWellFormed (s : str) : str :=
  match s with
  | [] => []
  | c :: s' =>
      if is_high c then
        match s' with
        | d :: s'' =>
            if is_low d then c :: d :: toWellFormed s''
            else 65533%N :: toWellFormed s'
        | [] => [65533%N]
        end
      else if is_low c then 65533%N :: toWellFormed s'
      else c :: toWellFormed s'
  end.


(** The order of the default [Array.prototype.sort] on strings: code
    unit by code unit, a proper prefix first. *)
Fixpoint str_leb (a b : str) : bool :=
  match a, b with
  | [], _ => true
  | _ :: _, [] => false
  | x :: a', y :: b' =>
      if N.ltb x y then true
      else if N.eqb x y then str_leb a' b' else false
  end.

Fixpoint insert_sorted (x : str) (l : list str) : list str :=
  match l with
  | [] => [x]
  | y :: l' => if str_leb x y then x :: l else y :: insert_sorted x l'
  end.

(** [[...xs].sort()] on an array of strings: ascending order. *)
Definition sort (xs : list str) : list str := fold_right insert_sorted [] xs.

(** [Array.prototype.join]. *)
Fixpoint arr_join (sep : str) (xs : list str) : str :=
  match xs with
  | [] => []
  | [x] => x
  | x :: xs' => x ++ sep ++ arr_join sep xs'
  end.

End Js.

(* ================================================================== *)
(** ** Regular expressions *)
(* ================================================================== *)

Module Re.
Import Js.

(** The fragment of the pattern language the source uses. *)
Inductive regex : Type :=
| Eps : regex
| Chr : (N -> bool) -> regex                 (* a character or a class *)
| Seq : regex -> regex -> regex
| Quant : nat -> option nat -> bool -> regex -> regex
                                             (* min, max, greedy *)
| Group : nat -> regex -> regex              (* capture group number *)
| Bol : regex.                               (* the assertion ^ *)

(** Derived forms. *)
Definition Opt (r : regex) : regex := Quant 0 (Some 1) true r.   (* r?  *)
Definition Star (r : regex) : regex := Quant 0 None true r.      (* r*  *)
Definition Plus (r : regex) : regex := Quant 1 None true r.      (* r+  *)
Definition LazyStar (r : regex) : regex := Quant 0 None false r. (* r*? *)

Definition one (c : N) : N -> bool := N.eqb c.
Definition any_of (cs : str) : N -> bool := fun c => existsb (N.eqb c) cs.
Definition none_of (cs : str) : N -> bool := fun c => negb (any_of cs c).
Definition anychar : N -> bool := fun _ => true.

(** A literal string inside a pattern. *)
Fixpoint Lit (s : str) : regex :=
  match s with
  | [] => Eps
  | [c] => Chr (one c)
  | c :: s' => Seq (Chr (one c)) (Lit s')
  end.

(** Matcher state: the input split at the current position ([before] is
    the consumed part, most recent character first) and the captures. *)
Record mstate : Type := MState {
  before : str;
  after : str;
  caps : list (nat * str)
}.

Definition pos (x : mstate) : nat := length (before x).

Fixpoint lookup (i : nat) (cs : list (nat * str)) : option str :=
  match cs with
  | [] => None
  | (j, v) :: cs' => if Nat.eqb i j then Some v else lookup i cs'
  end.

(** Group numbers occurring in a pattern. *)
Fixpoint groups (r : regex) : list nat :=
  match r with
  | Seq a b => groups a ++ groups b
  | Quant _ _ _ a => groups a
  | Group i a => i :: groups a
  | _ => []
  end.

Definition clear (gs : list nat) (x : mstate) : mstate :=
  MState (before x) (after x)
         (filter (fun kv => negb (existsb (Nat.eqb (fst kv)) gs)) (caps x)).

(** The text consumed between state [x] and a later state [y]. *)
Definition consumed (x y : mstate) : str :=
  rev (firstn (pos y - pos x) (before y)).

Definition set_cap (i : nat) (v : str) (y : mstate) : mstate :=
  MState (before y) (after y) ((i, v) :: caps y).

(** [^]: start of input, or after a line terminator under the [m] flag. *)
Definition at_bol (multiline : bool) (x : mstate) : bool :=
  match before x with
  | [] => true
  | c :: _ => multiline && is_line_terminator c
  end.

(** RepeatMatcher for a quantified atom whose matcher is [atom] and
    whose capture groups are [gs].  An iteration that consumes nothing
    once the minimum is reached is rejected, so every further iteration
    consumes input: [min + length (after x)] iterations always suffice,
    and [fuel] is never exhausted when it starts above that bound. *)
Fixpoint repeat_matcher
         (atom : mstate -> (mstate -> option mstate) -> option mstate)
         (gs : list nat) (greedy : bool) (c : mstate -> option mstate)
         (fuel min : nat) (max : option nat) (x : mstate)
         {struct fuel} : option mstate :=
  match fuel with
  | O => None
  | S fuel' =>
      match max with
      | Some O => c x
      | _ =>
          let d := fun y =>
            if Nat.eqb min 0 && Nat.eqb (pos y) (pos x) then None
            else repeat_matcher atom gs greedy c fuel'
                                (Nat.pred min) (option_map Nat.pred max) y in
          let xr := clear gs x in
          if negb (Nat.eqb min 0) then atom xr d
          else if greedy then
            match atom xr d with
            | Some z => Some z
            | None => c x
            end
          else
            match c x with
            | Some z => Some z
            | None => atom xr d
            end
      end
  end.

Section Matcher.
Variable multiline : bool.

(** The backtracking matcher in continuation-passing style. *)
Fixpoint matcher (r : regex) (x : mstate)
         (c : mstate -> option mstate) {struct r} : option mstate :=
  match r with
  | Eps => c x
  | Chr p =>
      match after x with
      | ch :: rest =>
          if p ch then c (MState (ch :: before x) rest (caps x)) else None
      | [] => None
      end
  | Seq r1 r2 => matcher r1 x (fun y => matcher r2 y c)
  | Group i r1 => matcher r1 x (fun y => c (set_cap i (consumed x y) y))
  | Bol => if at_bol multiline x then c x else None
  | Quant min max greedy r1 =>
      repeat_matcher (matcher r1) (groups r1) greedy c
                     (S (min + List.length (after x))) min max x
  end.

(** One attempt at a fixed start position. *)
Definition match_here (r : regex) (bef aft : str) : option mstate :=
  matcher r (MState bef aft []) (fun y => Some y).

(** The search loop of RegExpBuiltinExec: try every start position from
    the current one to the end of the input, leftmost first. *)
Fixpoint search (r : regex) (bef aft : str) : option (nat * mstate) :=
  match match_here r bef aft with
  | Some y => Some (length bef, y)
  | None =>
      match aft with
      | [] => None
      | ch :: aft' => search r (ch :: bef) aft'
      end
  end.

End Matcher.

(** A compiled pattern with its flags. *)
Record pattern : Type := Pattern {
  body : regex;
  flag_g : bool;
  flag_m : bool
}.

(** A match result: start index, end index, captures. *)
Record result : Type := Result {
  index : nat;
  stop : nat;
  captures : list (nat * str)
}.

(** [RegExp.prototype.exec] from position [lastIndex] of [s]. *)
Definition exec_from (p : pattern) (s : str) (lastIndex : nat)
  : option result :=
  match search (flag_m p) (body p) (rev (firstn lastIndex s))
               (skipn lastIndex s) with
  | Some (i, y) => Some (Result i (pos y) (caps y))
  | None => None
  end.

Definition exec (p : pattern) (s : str) : option result := exec_from p s 0.

(** [match[i]] for a capture group: [None] is [undefined]. *)
Definition group (i : nat) (m : result) : option str :=
  lookup i (captures m).

(** One attempt of pattern [p] at index [j] of [s]. *)
Definition match_at (p : pattern) (s : str) (j : nat) : option mstate :=
  match_here (flag_m p) (body p) (rev (firstn j s)) (skipn j s).

(** [RegExp.prototype.test] and [String.prototype.match] on a pattern
    without the [g] flag. *)
Definition test (p : pattern) (s : str) : bool :=
  match exec p s with Some _ => true | None => false end.

(** The loop [while ((m = re.exec(s)) !== null)] on a [g] pattern: the
    matches in document order.  [lastIndex] moves to the end of each
    match; a loop that stops advancing never terminates in the source and
    is cut off here when the fuel runs out. *)
Fixpoint exec_loop (fuel : nat) (p : pattern) (s : str) (lastIndex : nat)
  : list result :=
  match fuel with
  | O => []
  | S fuel' =>
      if Nat.ltb (length s) lastIndex then []
      else
        match exec_from p s lastIndex with
        | None => []
        | Some m => m :: exec_loop fuel' p s (stop m)
        end
  end.

Definition exec_all (p : pattern) (s : str) : list result :=
  exec_loop (S (length s)) p s 0.

(** [String.prototype.replace] with a pattern and a replacement text that
    has no [$] substitutions.  With the [g] flag every match is replaced;
    an empty match advances the position by one code unit. *)
Fixpoint replace_loop (fuel : nat) (p : pattern) (by_ : str) (s : str)
         (lastIndex copied : nat) : str :=
  match fuel with
  | O => skipn copied s
  | S fuel' =>
      if Nat.ltb (length s) lastIndex then skipn copied s
      else
        match exec_from p s lastIndex with
        | None => skipn copied s
        | Some m =>
            let next := if Nat.eqb (stop m) (index m)
                        then S (stop m) else stop m in
            firstn (index m - copied) (skipn copied s) ++ by_ ++
            (if flag_g p then replace_loop fuel' p by_ s next (stop m)
             else skipn (stop m) s)
        end
  end.

Definition replace (p : pattern) (by_ : str) (s : str) : str :=
  replace_loop (S (length s)) p by_ s 0 0.

(** *** What a pattern can match

    [derives ml r bef w]: with [bef] consumed so far (most recent
    character first), pattern [r] can consume exactly [w].  This is the
    declarative reading of the pattern language, without the priorities
    of backtracking. *)
Inductive derives (ml : bool) : regex -> str -> str -> Prop :=
| D_eps : forall bef, derives ml Eps bef []
| D_chr : forall (p : N -> bool) c bef,
    p c = true -> derives ml (Chr p) bef [c]
| D_seq : forall r1 r2 bef w1 w2,
    derives ml r1 bef w1 -> derives ml r2 (rev w1 ++ bef) w2 ->
    derives ml (Seq r1 r2) bef (w1 ++ w2)
| D_group : forall i r bef w,
    derives ml r bef w -> derives ml (Group i r) bef w
| D_bol : forall bef,
    at_bol ml (MState bef [] []) = true -> derives ml Bol bef []
| D_done : forall min max g r bef,
    min = 0 \/ max = Some 0 -> derives ml (Quant min max g r) bef []
| D_step : forall min max g r bef w1 w2,
    max <> Some 0 ->
    derives ml r bef w1 ->
    derives ml (Quant (Nat.pred min) (option_map Nat.pred max) g r)
            (rev w1 ++ bef) w2 ->
    derives ml (Quant min max g r) bef (w1 ++ w2).

(** State [y] is state [x] moved forward over [w]. *)
Definition advance (x y : mstate) (w : str) : Prop :=
  after x = w ++ after y /\ before y = rev w ++ before x.

(** A matcher that only succeeds through its continuation, on a state
    reached by consuming a text the pattern derives. *)
Definition sound_atom (ml : bool) (r : regex)
  (atom : mstate -> (mstate -> option mstate) -> option mstate) : Prop :=
  forall x c z, atom x c = Some z ->
    exists w y, derives ml r (before x) w /\ advance x y w /\ c y = Some z.

(** Every character a pattern can consume satisfies [P]. *)
Fixpoint all_chr (P : N -> Prop) (r : regex) : Prop :=
  match r with
  | Chr p => forall c, p c = true -> P c
  | Seq a b => all_chr P a /\ all_chr P b
  | Quant _ _ _ a => all_chr P a
  | Group _ a => all_chr P a
  | Eps | Bol => True
  end.

(** The run of class [p] cannot go on into [rest]. *)
Definition stops (p : N -> bool) (rest : str) : Prop :=
  match rest with
  | [] => True
  | a :: _ => p a = false
  end.

(** State [y] lies at or after state [x] in the same input. *)
Definition reaches (x y : mstate) : Prop := exists w, advance x y w.

(** A matcher that consults its continuation only on states at or after
    its starting state. *)
Definition local_atom
  (atom : mstate -> (mstate -> option mstate) -> option mstate) : Prop :=
  forall x c1 c2, (forall y, reaches x y -> c1 y = c2 y) ->
    atom x c1 = atom x c2.

(** Patterns of which every match consumes input. *)
Definition nonempty (ml : bool) (r : regex) : Prop :=
  forall bef w, derives ml r bef w -> w <> [].

End Re.

(* ================================================================== *)
(** ** Node's [path] module (POSIX flavour) *)
(* ================================================================== *)

Module Path.
Import Js.

Definition slash : N := 47%N.

(** Split at every [/]. *)
Fixpoint split_aux (s cur : str) : list str :=
  match s with
  | [] => [rev cur]
  | c :: s' =>
      if N.eqb c slash then rev cur :: split_aux s' []
      else split_aux s' (c :: cur)
  end.

Definition split (s : str) : list str := split_aux s [].

Fixpoint join_segments (segs : list str) : str :=
  match segs with
  | [] => []
  | [a] => a
  | a :: rest => a ++ [slash] ++ join_segments rest
  end.

(** [normalizeString]: resolve [.] and [..] segments; [acc] holds the
    kept segments, last one first. *)
Fixpoint normalize_segments (allowAboveRoot : bool) (segs acc : list str)
  : list str :=
  match segs with
  | [] => rev acc
  | seg :: segs' =>
      if str_eqb seg [] || str_eqb seg (lit ".") then
        normalize_segments allowAboveRoot segs' acc
      else if str_eqb seg (lit "..") then
        match acc with
        | top :: acc' =>
            if str_eqb top (lit "..")
            then normalize_segments allowAboveRoot segs' (seg :: acc)
            else normalize_segments allowAboveRoot segs' acc'
        | [] =>
            if allowAboveRoot
            then normalize_segments allowAboveRoot segs' [seg]
            else normalize_segments allowAboveRoot segs' []
        end
      else normalize_segments allowAboveRoot segs' (seg :: acc)
  end.

(** [path.normalize]. *)
Definition normalize (p : str) : str :=
  match p with
  | [] => lit "."
  | c0 :: _ =>
      let isAbsolute := N.eqb c0 slash in
      let trailing := match rev p with
                      | c :: _ => N.eqb c slash
                      | [] => false
                      end in
      let body := join_segments
                    (normalize_segments (negb isAbsolute) (split p) []) in
      match body with
      | [] => if isAbsolute then [slash]
              else if trailing then lit "./" else lit "."
      | _ :: _ =>
          let body' := if trailing then body ++ [slash] else body in
          if isAbsolute then slash :: body' else body'
      end
  end.

(** [path.join]: the non-empty arguments joined by [/], normalized. *)
Definition join (args : list str) : str :=
  match filter truthy args with
  | [] => lit "."
  | parts => normalize (join_segments parts)
  end.

(** The scan of [path.dirname]: from the end of the path down to index 1,
    skip trailing slashes, then the last segment; the answer is the index
    of the slash in front of it. *)
Fixpoint dirname_scan (r : str) (matchedSlash : bool) : option nat :=
  match r with
  | [] => None
  | c :: r' =>
      if N.eqb c slash then
        if matchedSlash then dirname_scan r' true
        else Some (S (List.length r'))
      else dirname_scan r' false
  end.

(** [path.dirname]. *)
Definition dirname (p : str) : str :=
  match p with
  | [] => lit "."
  | c0 :: p' =>
      let hasRoot := N.eqb c0 slash in
      match dirname_scan (rev p') true with
      | None => if hasRoot then lit "/" else lit "."
      | Some e =>
          if hasRoot && Nat.eqb e 1 then lit "//" else firstn e p
      end
  end.

(** [path.resolve] of one argument against the working directory [cwd]
    (an absolute path): always absolute, no trailing slash. *)
Definition resolve (cwd p : str) : str :=
  let full := match p with
              | c0 :: _ => if N.eqb c0 slash then p else cwd ++ [slash] ++ p
              | [] => cwd
              end in
  slash :: join_segments (normalize_segments false (split full) []).

(** [path.basename] without suffix: scanning from the end, the trailing
    slashes are skipped and the characters up to the next slash are the
    base name. *)
Fixpoint drop_slashes (r : str) : str :=
  match r with
  | c :: r' => if N.eqb c slash then drop_slashes r' else r
  | [] => []
  end.

Fixpoint take_segment (r : str) : str :=
  match r with
  | c :: r' => if N.eqb c slash then [] else c :: take_segment r'
  | [] => []
  end.

Definition basename (p : str) : str :=
  rev (take_segment (drop_slashes (rev p))).

End Path.

(* ================================================================== *)
(** ** The file system seen through [fs/promises] *)
(* ================================================================== *)

Module Fs.
Import Js.

Inductive node : Type :=
| File : str -> node
| Dir : node.

(** A file system maps paths to nodes; the first binding of a path is
    the current one.  The root directory always exists.  A file holds
    the text that reading it as UTF-8 gives.  Paths are compared code
    unit by code unit, as the disk does for well-formed paths; links and
    the limits on the length of names are not modelled. *)
Definition t := list (str * node).

Inductive errno : Type := ENOENT | EEXIST | ENOTDIR | EISDIR.

Fixpoint find (p : str) (fs : t) : option node :=
  match fs with
  | [] => None
  | (q, n) :: fs' => if str_eqb p q then Some n else find p fs'
  end.

Definition is_root (p : str) : bool := str_eqb p (lit "/").

(** [fs.stat]. *)
Definition stat (fs : t) (p : str) : errno + node :=
  if is_root p then inr Dir
  else match find p fs with
       | Some n => inr n
       | None => inl ENOENT
       end.

Definition is_dir (fs : t) (p : str) : bool :=
  match stat fs p with inr Dir => true | _ => false end.

(** The chain of directories leading to [p], outermost first, [p]
    itself last. *)
Fixpoint prefixes (pre : str) (first : bool) (segs : list str) : list str :=
  match segs with
  | [] => []
  | seg :: segs' =>
      let here := if first then pre ++ seg else pre ++ [Path.slash] ++ seg in
      if truthy seg then here :: prefixes here false segs'
      else prefixes pre first segs'
  end.

Definition chain (p : str) : list str :=
  match p with
  | c0 :: _ =>
      if N.eqb c0 Path.slash then prefixes [Path.slash] true (Path.split p)
      else prefixes [] true (Path.split p)
  | [] => []
  end.

(** [fs.mkdir(p, { recursive: true })]: create every missing directory
    of the chain; an existing directory is left alone, an existing file
    in the way is an error. *)
Fixpoint mkdir_chain (ds : list str) (fs : t) : errno + t :=
  match ds with
  | [] => inr fs
  | d :: ds' =>
      match stat fs d with
      | inr Dir => mkdir_chain ds' fs
      | inr (File _) =>
          match ds' with [] => inl EEXIST | _ :: _ => inl ENOTDIR end
      | inl _ => mkdir_chain ds' ((d, Dir) :: fs)
      end
  end.

Definition mkdir_recursive (fs : t) (p : str) : errno + t :=
  mkdir_chain (chain p) fs.

(** [fs.writeFile(p, data, "utf-8")]: the parent must be a directory,
    and [p] must neither be a directory nor end in [/].  The text goes
    to disk in its UTF-8 encoding, so the file holds [data] with every
    unpaired surrogate turned into U+FFFD. *)
Definition writeFile (fs : t) (p data : str) : errno + t :=
  match stat fs p with
  | inr Dir => inl EISDIR
  | _ =>
      match stat fs (Path.dirname p) with
      | inr Dir =>
          if endsWith [Path.slash] p then inl EISDIR
          else inr ((p, File (toWellFormed data)) :: fs)
      | inr (File _) => inl ENOTDIR
      | inl e => inl e
      end
  end.

(** A directory entry as [readdir(..., { withFileTypes: true })] gives
    it. *)
Record dirent : Type := Dirent { name : str; isFile : bool }.

Fixpoint strip_prefix (pre s : str) : option str :=
  match pre, s with
  | [], _ => Some s
  | a :: pre', b :: s' => if N.eqb a b then strip_prefix pre' s' else None
  | _ :: _, [] => None
  end.

(** The immediate children of directory [p]: the bound paths of the form
    [p/name] with no further [/]; shadowed bindings are skipped. *)
Fixpoint children (p : str) (fs : t) (seen : list str) : list dirent :=
  match fs with
  | [] => []
  | (q, n) :: fs' =>
      match strip_prefix (if is_root p then p else p ++ [Path.slash]) q with
      | Some nm =>
          if truthy nm && negb (any_in Path.slash nm)
             && negb (arr_includes q seen)
          then Dirent nm (match n with File _ => true | Dir => false end)
               :: children p fs' (q :: seen)
          else children p fs' (q :: seen)
      | None => children p fs' seen
      end
  end.

(** [fs.readdir]. *)
Definition readdir (fs : t) (p : str) : errno + list dirent :=
  match stat fs p with
  | inr Dir => inr (children p fs [])
  | inr (File _) => inl ENOTDIR
  | inl e => inl e
  end.

End Fs.

(* ================================================================== *)
(** ** The class [FileManager] *)
(* ================================================================== *)

Module FileManager.
Import Js Re.

Definition ch (a : ascii) : N := N_of_ascii a.

Section Parsing.

Local Notation "a ;; b" := (Seq a b) (at level 61, right associativity).

(** *** [sanitizeFolderName] *)

(** [/[^a-zA-Z0-9\s\-_]/g] *)
Definition specialChars : pattern :=
  Pattern
    (Chr (fun c => negb (is_lower c || is_upper c || is_digit c
                         || is_space c || N.eqb c (ch "-")
                         || N.eqb c (ch "_"))))
    true false.

(** [/\s+/g] *)
Definition spaceRun : pattern := Pattern (Plus (Chr is_space)) true false.

Definition sanitizeFolderName (task : str) : str :=
  let sanitized :=
    substring0 50
      (replace spaceRun (lit "_") (trim (replace specialChars [] task))) in
  if negb (truthy sanitized) then lit "coding_task" else sanitized.

(** *** [getExtensionFromLanguage] *)

Definition languageMap : list (str * str) :=
  [ (lit "javascript", lit ".js"); (lit "js", lit ".js");
    (lit "typescript", lit ".ts"); (lit "ts", lit ".ts");
    (lit "python", lit ".py"); (lit "py", lit ".py");
    (lit "java", lit ".java"); (lit "html", lit ".html");
    (lit "css", lit ".css"); (lit "json", lit ".json");
    (lit "xml", lit ".xml"); (lit "yaml", lit ".yaml");
    (lit "yml", lit ".yml"); (lit "markdown", lit ".md");
    (lit "md", lit ".md"); (lit "sql", lit ".sql");
    (lit "sh", lit ".sh"); (lit "bash", lit ".sh");
    (lit "go", lit ".go"); (lit "rust", lit ".rs");
    (lit "cpp", lit ".cpp"); (lit "c", lit ".c");
    (lit "php", lit ".php"); (lit "ruby", lit ".rb");
    (lit "swift", lit ".swift"); (lit "kotlin", lit ".kt") ].

(** [languageMap] is an object literal, so a lookup also sees the
    properties inherited from [Object.prototype].  A lower-cased key can
    only hit two of them; both are truthy and reach the template literal
    of the caller as the text below (the function text is the one Node
    prints). *)
Definition inheritedProperties : list (str * str) :=
  [ (lit "constructor", lit "function Object() { [native code] }");
    (lit "__proto__", lit "[object Object]") ].

Fixpoint property (key : str) (obj : list (str * str)) : option str :=
  match obj with
  | [] => None
  | (k, v) :: obj' => if str_eqb key k then Some v else property key obj'
  end.

Definition getExtensionFromLanguage (language : str) : str :=
  match property (toLowerCase language) (languageMap ++ inheritedProperties)
  with
  | Some ext => if truthy ext then ext else lit ".txt"
  | None => lit ".txt"
  end.

(** *** [inferExtensionFromContent] *)

(** [/[.#][\w-]+\s*{/] *)
Definition cssSelector : pattern :=
  Pattern
    (Chr (any_of (lit ".#")) ;;
     Plus (Chr (fun c => is_word c || N.eqb c (ch "-"))) ;;
     Star (Chr is_space) ;;
     Chr (one (ch "{")))
    false false.

(** [/^[\s]*<[\w]+/] *)
Definition leadingTag : pattern :=
  Pattern
    (Bol ;; Star (Chr is_space) ;; Chr (one (ch "<")) ;; Plus (Chr is_word))
    false false.

Definition inferExtensionFromContent (content : str) : str :=
  if includes (lit "<!DOCTYPE") content || includes (lit "<html") content
  then lit ".html"
  else if (includes (lit "@media") content || includes (lit "{") content)
          && test cssSelector content
  then lit ".css"
  else if includes (lit "import ") content && includes (lit "from ") content
  then lit ".js"
  else if includes (lit "require(") content
  then lit ".js"
  else if (includes (lit "def ") content || includes (lit "import ") content)
          && (includes (lit "print(") content
              && negb (includes (lit "console.") content))
  then lit ".py"
  else if includes (lit "package ") content
          || includes (lit "public class") content
  then lit ".java"
  else if includes (lit "<?php") content
  then lit ".php"
  else if test leadingTag content
  then lit ".html"
  else lit ".js".

(** *** [parseCodeFiles] *)

Record ParsedFile : Type := ParsedFile_ { filePath : str; content : str }.

Definition backticks : regex := Lit (lit "```").

(** [/```(\w+)?(?::([^\n]+))?\n([\s\S]*?)```/g] *)
Definition codeBlockPattern : pattern :=
  Pattern
    (backticks ;;
     Opt (Group 1 (Plus (Chr is_word))) ;;
     Opt (Chr (one (ch ":")) ;; Group 2 (Plus (Chr (none_of [LF])))) ;;
     Chr (one LF) ;;
     Group 3 (LazyStar (Chr (fun c => is_space c || negb (is_space c)))) ;;
     backticks)
    true false.

Definition fileColon : regex := Lit (lit "File:").

(** [/^\/\/\s*File:\s*([^\n]+)/m] *)
Definition slashComment : pattern :=
  Pattern
    (Bol ;; Lit (lit "//") ;; Star (Chr is_space) ;; fileColon ;;
     Star (Chr is_space) ;; Group 1 (Plus (Chr (none_of [LF]))))
    false true.

(** [/^#\s*File:\s*([^\n]+)/m] *)
Definition hashComment : pattern :=
  Pattern
    (Bol ;; Chr (one (ch "#")) ;; Star (Chr is_space) ;; fileColon ;;
     Star (Chr is_space) ;; Group 1 (Plus (Chr (none_of [LF]))))
    false true.

(** [/^<!--\s*File:\s*([^\n]+)\s*-->/m] *)
Definition htmlComment : pattern :=
  Pattern
    (Bol ;; Lit (lit "<!--") ;; Star (Chr is_space) ;; fileColon ;;
     Star (Chr is_space) ;; Group 1 (Plus (Chr (none_of [LF]))) ;;
     Star (Chr is_space) ;; Lit (lit "-->"))
    false true.

(** [/\/\*\s*File:\s*([^*]+)\*\//m] *)
Definition blockComment : pattern :=
  Pattern
    (Lit (lit "/*") ;; Star (Chr is_space) ;; fileColon ;;
     Star (Chr is_space) ;; Group 1 (Plus (Chr (none_of (lit "*")))) ;;
     Lit (lit "*/"))
    false true.

Definition commentPatterns : list pattern :=
  [slashComment; hashComment; htmlComment; blockComment].

(** The loop over [commentPatterns]: the first pattern that matches with
    a truthy group 1 sets the path (trimmed) and ends the loop. *)
Fixpoint commentPath (patterns : list pattern) (actualContent : str) : str :=
  match patterns with
  | [] => []
  | p :: patterns' =>
      match exec p actualContent with
      | Some commentMatch =>
          match group 1 commentMatch with
          | Some g =>
              if truthy g then trim g
              else commentPath patterns' actualContent
          | None => commentPath patterns' actualContent
          end
      | None => commentPath patterns' actualContent
      end
  end.

(** [/^\.?\//] *)
Definition leadingSlash : pattern :=
  Pattern (Bol ;; Opt (Chr (one (ch "."))) ;; Chr (one (ch "/"))) false false.

(** [main<ext>] for the first accepted block, [file<index+1><ext>] for
    the others. *)
Definition indexedName (blockIndex : nat) (ext : str) : str :=
  if Nat.eqb blockIndex 0 then lit "main" ++ ext
  else lit "file" ++ ofNat (blockIndex + 1) ++ ext.

(** [m[i]?.trim()], or the empty string when that is falsy. *)
Definition trimmedGroup (i : nat) (m : result) : str :=
  match group i m with
  | Some v => trim v
  | None => []
  end.

(** [m[i]], or the empty string when that is falsy. *)
Definition rawGroup (i : nat) (m : result) : str :=
  match group i m with
  | Some v => v
  | None => []
  end.

(** The path of one block: the body of the [while] loop up to the
    normalization of [filePath]. *)
Definition resolvePath (blockIndex : nat)
           (language explicitPath actualContent : str) : str :=
  let filePath :=
    if truthy explicitPath then explicitPath
    else if truthy (trim actualContent)
         then commentPath commentPatterns actualContent
         else [] in
  let filePath :=
    if negb (truthy filePath) then
      if truthy language
      then indexedName blockIndex (getExtensionFromLanguage language)
      else indexedName blockIndex (inferExtensionFromContent actualContent)
    else filePath in
  replace leadingSlash [] filePath.

(** The [while] loop over the matches of [codeBlockPattern]; [files] and
    [blockIndex] are the loop's two variables. *)
Fixpoint blockLoop (matches : list result) (files : list ParsedFile)
         (blockIndex : nat) : list ParsedFile :=
  match matches with
  | [] => files
  | m :: matches' =>
      let language := trimmedGroup 1 m in
      let explicitPath := trimmedGroup 2 m in
      let actualContent := rawGroup 3 m in
      let filePath :=
        resolvePath blockIndex language explicitPath actualContent in
      if truthy (trim actualContent)
      then blockLoop matches' (files ++ [ParsedFile_ filePath actualContent])
                     (S blockIndex)
      else blockLoop matches' files blockIndex
  end.

(** [/^#+\s+/gm] *)
Definition headingMarker : pattern :=
  Pattern (Bol ;; Plus (Chr (one (ch "#"))) ;; Plus (Chr is_space)) true true.

(** [/^[^#*`\[\]]/m] *)
Definition plainCodePattern : pattern :=
  Pattern (Bol ;; Chr (none_of (lit "#*`[]"))) false true.

Definition looksLikeCode (cleaned : str) : bool :=
  test plainCodePattern cleaned
  || includes (lit "function") cleaned
  || includes (lit "class") cleaned
  || includes (lit "import") cleaned.

Definition parseCodeFiles (codeMarkdown : str) : list ParsedFile :=
  let files := blockLoop (exec_all codeBlockPattern codeMarkdown) [] 0 in
  if Nat.eqb (List.length files) 0 && truthy (trim codeMarkdown) then
    let cleaned := trim (replace headingMarker [] codeMarkdown) in
    if looksLikeCode cleaned
    then files ++ [ParsedFile_ (lit "main" ++ inferExtensionFromContent cleaned)
                               cleaned]
    else files
  else files.

End Parsing.

(** *** The project writer *)

(** The errors the class raises.  [NoFilesFound] is
    [Error("No files found in generated code")]; the other two carry the
    path the message names and the cause.  [SysError] is an error of
    [fs] itself, before the class wraps it. *)
Inductive error : Type :=
| NoFilesFound : error
| DirectoryCreateFailed : str -> Fs.errno -> error
| FileWriteFailed : str -> error -> error
| SysError : Fs.errno -> error.

(** An [async] method: it runs on the file system and either throws or
    returns; the file system it leaves behind is part of the outcome in
    both cases. *)
Definition io (A : Type) : Type := Fs.t -> Fs.t * (error + A).

Definition ret {A : Type} (a : A) : io A := fun fs => (fs, inr a).

Definition throw {A : Type} (e : error) : io A := fun fs => (fs, inl e).

Definition bind {A B : Type} (m : io A) (k : A -> io B) : io B :=
  fun fs =>
    match m fs with
    | (fs', inr a) => k a fs'
    | (fs', inl e) => (fs', inl e)
    end.

(** [try { m } catch (error) { h }]: the handler starts from the file
    system the failed body left. *)
Definition try_catch {A : Type} (m : io A) (h : error -> io A) : io A :=
  fun fs =>
    match m fs with
    | (fs', inr a) => (fs', inr a)
    | (fs', inl e) => h e fs'
    end.

Local Notation "x <- m ;; k" := (bind m (fun x => k))
  (at level 62, m at next level, right associativity).

Definition ensureDirectory (dirPath : str) : io unit :=
  fun fs =>
    match Fs.mkdir_recursive fs dirPath with
    | inr fs' => (fs', inr tt)
    | inl Fs.EEXIST => (fs, inr tt)
    | inl e => (fs, inl (DirectoryCreateFailed dirPath e))
    end.

Definition stat (p : str) : io Fs.node :=
  fun fs =>
    match Fs.stat fs p with
    | inr n => (fs, inr n)
    | inl e => (fs, inl (SysError e))
    end.

Definition writeFile (p data : str) : io unit :=
  fun fs =>
    match Fs.writeFile fs p data with
    | inr fs' => (fs', inr tt)
    | inl e => (fs, inl (SysError e))
    end.

(** The result of [writeFiles]. *)
Record Written : Type := Written_ { folderPath : str; files : list str }.

(** The [for] loop of [writeFilesToFolder]. *)
Fixpoint writeLoop (folder : str) (parsed : list ParsedFile)
         (createdFiles : list str) : io (list str) :=
  match parsed with
  | [] => ret createdFiles
  | file :: parsed' =>
      let fullFilePath := Path.join [folder; filePath file] in
      let fileDir := Path.dirname fullFilePath in
      _ <- (if negb (str_eqb fileDir folder)
            then ensureDirectory fileDir else ret tt) ;;
      _ <- try_catch (writeFile fullFilePath (content file))
             (fun e => throw (FileWriteFailed (filePath file) e)) ;;
      writeLoop folder parsed' (createdFiles ++ [filePath file])
  end.

Definition writeFilesToFolder (folder : str) (parsed : list ParsedFile)
  : io Written :=
  created <- writeLoop folder parsed [] ;;
  ret (Written_ folder created).

Section Instance.

(** The field [basePath], the clock [Date.now()] and the working
    directory of the process. *)
Variable basePath : str.
Variable now : nat.
Variable cwd : str.

Definition writeFiles (task codeMarkdown : str) : io Written :=
  let parsedFiles := parseCodeFiles codeMarkdown in
  if Nat.eqb (List.length parsedFiles) 0 then throw NoFilesFound
  else
    let folderName := sanitizeFolderName task in
    let folder := Path.join [basePath; folderName] in
    early <-
      try_catch
        (stats <- stat folder ;;
         match stats with
         | Fs.Dir =>
             let uniqueFolderName := folderName ++ lit "_" ++ ofNat now in
             let newFolderPath := Path.join [basePath; uniqueFolderName] in
             _ <- ensureDirectory newFolderPath ;;
             w <- writeFilesToFolder newFolderPath parsedFiles ;;
             ret (Some w)
         | Fs.File _ => ret None
         end)
        (fun _ => _ <- ensureDirectory folder ;; ret None) ;;
    match early with
    | Some w => ret w
    | None => writeFilesToFolder folder parsedFiles
    end.

(** *** [generateRunInstructions] *)

Definition isHtml (f : str) : bool := endsWith (lit ".html") f.

Definition generateRunInstructions (folder : str) (fs : Fs.t) : list str :=
  let absPath := Path.resolve cwd folder in
  match Fs.readdir fs folder with
  | inr entries =>
      let files := List.map Fs.name (filter Fs.isFile entries) in
      if arr_includes (lit "package.json") files then
        [ lit "1. cd " ++ absPath; lit "2. npm install"; lit "3. npm start" ]
      else if arr_includes (lit "requirements.txt") files then
        [ lit "1. cd " ++ absPath; lit "2. pip install -r requirements.txt";
          lit "3. python main.py" ]
      else if arr_includes (lit "index.html") files then
        [ lit "1. cd " ++ absPath; lit "2. open index.html" ]
      else if arr_includes (lit "main.py") files then
        [ lit "1. cd " ++ absPath; lit "2. python main.py" ]
      else if arr_includes (lit "main.js") files
              || arr_includes (lit "index.js") files then
        [ lit "1. cd " ++ absPath;
          lit "2. node " ++ (if arr_includes (lit "main.js") files
                             then lit "main.js" else lit "index.js") ]
      else if existsb isHtml files then
        match List.find isHtml files with
        | Some htmlFile =>
            [ lit "1. cd " ++ absPath; lit "2. open " ++ htmlFile ]
        | None =>
            [ lit "1. cd " ++ absPath; lit "2. open undefined" ]
        end
      else
        [ lit "1. cd " ++ absPath;
          lit "2. Check the project files and run the appropriate command" ]
  | inl _ =>
      [ lit "1. cd " ++ absPath;
        lit "2. Review the project files to determine how to run" ]
  end.

End Instance.

(** *** [generateDirectoryTree]

    The tree drawn from a list of relative paths, without looking at the
    file system. *)

Definition lastBranch : str := [9492; 9472; 9472]%N.   (* U+2514 U+2500 U+2500 *)
Definition branch : str := [9500; 9472; 9472]%N.       (* U+251C U+2500 U+2500 *)
Definition bar : N := 9474%N.                          (* U+2502 *)

(** The [Map] from a directory to the base names of its files; the keys
    are kept in the order of their first insertion. *)
Fixpoint map_get (k : str) (m : list (str * list str)) : option (list str) :=
  match m with
  | [] => None
  | (k', vs) :: m' => if str_eqb k' k then Some vs else map_get k m'
  end.

(** [if (!dirMap.has(k)) dirMap.set(k, []); dirMap.get(k).push(v)]. *)
Fixpoint map_push (k v : str) (m : list (str * list str))
  : list (str * list str) :=
  match m with
  | [] => [(k, [v])]
  | (k', vs) :: m' =>
      if str_eqb k' k then (k', vs ++ [v]) :: m'
      else (k', vs) :: map_push k v m'
  end.

(** The body of the loop over the sorted files. *)
Definition pushFile (m : list (str * list str)) (file : str)
  : list (str * list str) :=
  map_push (Path.dirname file) (Path.basename file) m.

Definition groupByDirectory (sortedFiles : list str)
  : list (str * list str) :=
  fold_left pushFile sortedFiles [].

Definition getOrEmpty (k : str) (m : list (str * list str)) : list str :=
  match map_get k m with Some vs => vs | None => [] end.

Definition notRoot (d : str) : bool := negb (str_eqb d (lit ".")).

(** The lines of a run of files: every file gets the branch connector,
    the last one the closing connector when [closing] holds. *)
Fixpoint fileLines (prefix : str) (closing : bool) (files : list str)
  : list str :=
  match files with
  | [] => []
  | [f] =>
      [prefix ++ (if closing then lastBranch else branch) ++ lit " " ++ f]
  | f :: rest =>
      (prefix ++ branch ++ lit " " ++ f) :: fileLines prefix closing rest
  end.

(** [dir.split(path.sep).pop() || dir]. *)
Definition dirName (dir : str) : str :=
  let l := last (Path.split dir) [] in
  if truthy l then l else dir.

Fixpoint dirLines (m : list (str * list str)) (subdirs : list str)
  : list str :=
  match subdirs with
  | [] => []
  | dir :: rest =>
      let isLastDir := match rest with [] => true | _ :: _ => false end in
      ((if isLastDir then lastBranch else branch)
         ++ lit " " ++ dirName dir ++ lit "/")
      :: fileLines (if isLastDir then lit "    " else bar :: lit "   ")
                   true (getOrEmpty dir m)
      ++ dirLines m rest
  end.

(** The array [tree] at the end of [generateDirectoryTree]. *)
Definition tree (folderPath : str) (files : list str) : list str :=
  let folderName := Path.basename folderPath in
  let sortedFiles := sort files in
  let dirMap := groupByDirectory sortedFiles in
  let rootFiles := getOrEmpty (lit ".") dirMap in
  let subdirs := filter notRoot (List.map fst dirMap) in
  (folderName ++ lit "/")
  :: fileLines [] (match subdirs with [] => true | _ :: _ => false end)
               rootFiles
  ++ dirLines dirMap subdirs.

Definition generateDirectoryTree (folderPath : str) (files : list str)
  : str :=
  arr_join [LF] (tree folderPath files).

End FileManager.

(* ================================================================== *)
(** ** The agents' reading of a model reply *)
(* ================================================================== *)

Module Agents.
Import Js Re.

(** [/```json\n?/g] *)
Definition jsonFence : pattern :=
  Pattern (Seq (Lit (lit "```json")) (Opt (Chr (one LF)))) true false.

(** [/```\n?/g] *)
Definition fence : pattern :=
  Pattern (Seq (Lit (lit "```")) (Opt (Chr (one LF)))) true false.

(** The clean-up of the reply text in [TaskDecompositionAgent.decompose]
    and [ReviewAgent.analyzeCode], up to the call of [JSON.parse]: the
    reply is trimmed and, when it begins with a fence, every fence is
    removed from it. *)
Definition extractJson (text : str) : str :=
  let jsonString := trim text in
  if startsWith (lit "```json") jsonString then
    replace fence [] (replace jsonFence [] jsonString)
  else if startsWith (lit "```") jsonString then
    replace fence [] jsonString
  else jsonString.

End Agents.

(* ================================================================== *)
(** ** Vocabulary of the specification *)
(* ================================================================== *)

Module Spec.
Import Js Re FileManager.

(** The characters a sanitized folder name may contain before its
    whitespace is collapsed, and after. *)
Definition allowed (c : N) : bool :=
  is_lower c || is_upper c || is_digit c || is_space c
  || N.eqb c (ch "-") || N.eqb c (ch "_").

Definition clean (c : N) : bool := allowed c && negb (is_space c).

(** The fields of a RawBlock, read off a match of [codeBlockPattern]. *)
Definition languageTag (m : result) : str := trimmedGroup 1 m.
Definition explicitPath (m : result) : str := trimmedGroup 2 m.
Definition blockBody (m : result) : str := rawGroup 3 m.

(** The fenced blocks of a text, in document order, and those among them
    whose body is not blank. *)
Definition fencedBlocks (codeMarkdown : str) : list result :=
  exec_all codeBlockPattern codeMarkdown.

Definition accepted (blocks : list result) : list result :=
  filter (fun m => truthy (trim (blockBody m))) blocks.

(** The extension of a block that is named by its position: from the
    language tag when there is one, else from the content. *)
Definition extensionOf (m : result) : str :=
  if truthy (languageTag m) then getExtensionFromLanguage (languageTag m)
  else inferExtensionFromContent (blockBody m).

(** Normalization of a resolved path: one leading [/] or [./] is
    dropped, nothing else changes. *)
Definition stripOnce (filePath : str) : str :=
  match filePath with
  | 47%N :: rest => rest
  | 46%N :: 47%N :: rest => rest
  | _ => filePath
  end.

(** [main], [file2], [file3], ... *)
Definition sequentialName (i : nat) : str :=
  match i with
  | O => lit "main"
  | S _ => lit "file" ++ ofNat (S i)
  end.

Fixpoint namedFrom (i : nat) (blocks : list result) : list ParsedFile :=
  match blocks with
  | [] => []
  | m :: blocks' =>
      ParsedFile_ (sequentialName i ++ extensionOf m) (blockBody m)
      :: namedFrom (S i) blocks'
  end.

(** **** Statements of the specification that are compared with the code *)

(** Gap-free naming as stated: blocks without [:path] and without a
    language tag give as many files as there are non-blank blocks, named
    [main<ext>], [file2<ext>], ... in document order. *)
Definition gapFreeNaming (codeMarkdown : str) : Prop :=
  let blocks := fencedBlocks codeMarkdown in
  Forall (fun m => explicitPath m = [] /\ languageTag m = []) blocks ->
  List.length (parseCodeFiles codeMarkdown) = List.length (accepted blocks)
  /\ forall i f, nth_error (parseCodeFiles codeMarkdown) i = Some f ->
       exists ext, filePath f = sequentialName i ++ ext.

(** The match that starts first, of two. *)
Definition earlier (a b : option result) : option result :=
  match a, b with
  | Some x, Some y => if Nat.leb (index x) (index y) then a else b
  | Some _, None => a
  | None, _ => b
  end.

(** The [File:] comment that comes first in the body, whatever its
    form. *)
Definition firstCommentInDocument (actualContent : str) : option result :=
  fold_right (fun p acc => earlier (exec p actualContent) acc)
             None commentPatterns.

(** "First match in document order wins", as stated. *)
Definition documentOrderWins (blockIndex : nat) (language actualContent : str)
  : Prop :=
  forall m, firstCommentInDocument actualContent = Some m ->
    resolvePath blockIndex language [] actualContent =
    replace leadingSlash [] (trim (rawGroup 1 m)).

(** The first pattern of a list that matches, with its match. *)
Fixpoint firstMatching (patterns : list pattern) (s : str)
  : option (pattern * result) :=
  match patterns with
  | [] => None
  | p :: patterns' =>
      match exec p s with
      | Some m => Some (p, m)
      | None => firstMatching patterns' s
      end
  end.

Definition plainStart (c : N) : bool := none_of (lit "#*`[]") c.

Definition firstCharPlain (s : str) : bool :=
  match s with
  | c :: _ => plainStart c
  | [] => false
  end.

(** Some line of [s] begins with a plain character; [atStart] tells
    whether [s] itself begins a line.  The line break that ends an empty
    line counts as its first character. *)
Fixpoint linePlain (atStart : bool) (s : str) : bool :=
  match s with
  | [] => false
  | c :: s' =>
      (atStart && plainStart c) || linePlain (is_line_terminator c) s'
  end.

Definition hasKeyword (s : str) : bool :=
  includes (lit "function") s || includes (lit "class") s
  || includes (lit "import") s.

(** The text the fallback works on. *)
Definition cleanedText (codeMarkdown : str) : str :=
  trim (replace headingMarker [] codeMarkdown).

Definition wholeTextFile (cleaned : str) : ParsedFile :=
  ParsedFile_ (lit "main" ++ inferExtensionFromContent cleaned) cleaned.

(** The whole-text fallback as stated: decided by the first character
    of the trimmed text. *)
Definition wholeTextRule (codeMarkdown : str) : Prop :=
  fencedBlocks codeMarkdown = [] -> truthy codeMarkdown = true ->
  parseCodeFiles codeMarkdown =
  if firstCharPlain (cleanedText codeMarkdown)
     || hasKeyword (cleanedText codeMarkdown)
  then [wholeTextFile (cleanedText codeMarkdown)]
  else [].

(** The instruction lists as stated, for the names of the files
    directly in the project root. *)
Definition statedInstructions (absPath : str) (names : list str)
  : list str :=
  let cd := lit "cd " ++ absPath in
  if arr_includes (lit "package.json") names then
    [cd; lit "npm install"; lit "npm start"]
  else if arr_includes (lit "requirements.txt") names then
    [cd; lit "pip install -r requirements.txt"; lit "python main.py"]
  else if arr_includes (lit "index.html") names then
    [cd; lit "open index.html"]
  else if arr_includes (lit "main.py") names then
    [cd; lit "python main.py"]
  else if arr_includes (lit "main.js") names then
    [cd; lit "node main.js"]
  else if arr_includes (lit "index.js") names then
    [cd; lit "node index.js"]
  else
    match List.find isHtml names with
    | Some f => [cd; lit "open " ++ f]
    | None =>
        [cd; lit "Check the project files and run the appropriate command"]
    end.

(** The same lists with the step numbers the code writes. *)
Definition numberedInstructions (absPath : str) (names : list str)
  : list str :=
  let cd := lit "1. cd " ++ absPath in
  if arr_includes (lit "package.json") names then
    [cd; lit "2. npm install"; lit "3. npm start"]
  else if arr_includes (lit "requirements.txt") names then
    [cd; lit "2. pip install -r requirements.txt"; lit "3. python main.py"]
  else if arr_includes (lit "index.html") names then
    [cd; lit "2. open index.html"]
  else if arr_includes (lit "main.py") names then
    [cd; lit "2. python main.py"]
  else if arr_includes (lit "main.js") names then
    [cd; lit "2. node main.js"]
  else if arr_includes (lit "index.js") names then
    [cd; lit "2. node index.js"]
  else
    match List.find isHtml names with
    | Some f => [cd; lit "2. open " ++ f]
    | None =>
        [cd;
         lit "2. Check the project files and run the appropriate command"]
    end.

(** The names of the regular files among directory entries. *)
Definition fileNames (entries : list Fs.dirent) : list str :=
  List.map Fs.name (filter Fs.isFile entries).

(** Content sniffing as stated: first rule that applies, [<?php] only at
    the start of the content. *)
Definition statedSniffing (content : str) : str :=
  if includes (lit "<!DOCTYPE") content || includes (lit "<html") content
  then lit ".html"
  else if test cssSelector content then lit ".css"
  else if includes (lit "import ") content && includes (lit "from ") content
  then lit ".js"
  else if includes (lit "require(") content then lit ".js"
  else if (includes (lit "def ") content || includes (lit "import ") content)
          && includes (lit "print(") content
          && negb (includes (lit "console.") content)
  then lit ".py"
  else if includes (lit "package ") content
          || includes (lit "public class") content
  then lit ".java"
  else if startsWith (lit "<?php") content then lit ".php"
  else if test leadingTag content then lit ".html"
  else lit ".js".

(** The same chain with [<?php] anywhere in the content. *)
Definition sniffing (content : str) : str :=
  if includes (lit "<!DOCTYPE") content || includes (lit "<html") content
  then lit ".html"
  else if test cssSelector content then lit ".css"
  else if includes (lit "import ") content && includes (lit "from ") content
  then lit ".js"
  else if includes (lit "require(") content then lit ".js"
  else if (includes (lit "def ") content || includes (lit "import ") content)
          && includes (lit "print(") content
          && negb (includes (lit "console.") content)
  then lit ".py"
  else if includes (lit "package ") content
          || includes (lit "public class") content
  then lit ".java"
  else if includes (lit "<?php") content then lit ".php"
  else if test leadingTag content then lit ".html"
  else lit ".js".




(** The run instructions as stated. *)
Definition instructionsAsStated (cwd folder : str) (fs : Fs.t) : Prop :=
  forall entries, Fs.readdir fs folder = inr entries ->
    generateRunInstructions cwd folder fs =
    statedInstructions (Path.resolve cwd folder) (fileNames entries).

(** **** Sample inputs *)

Definition nl : str := [LF].

(** A block with a [File:] comment and nothing else to name it. *)
Definition commentNamedBlock : str :=
  lit "```" ++ nl ++ lit "// File: a.js" ++ nl ++ lit "x" ++ nl ++ lit "```".

(** A single blank block. *)
Definition blankBlock : str :=
  lit "```" ++ nl ++ lit " " ++ nl ++ lit "```".

(** Two blocks with a blank one between them. *)
Definition blocksWithGap : str :=
  lit "```" ++ nl ++ lit "a" ++ nl ++ lit "```" ++ nl ++
  blankBlock ++ nl ++
  lit "```" ++ nl ++ lit "b" ++ nl ++ lit "```".

(** A body with two comments of different forms. *)
Definition twoComments : str :=
  lit "# File: a.py" ++ nl ++ lit "// File: b.js" ++ nl.

(** A list item followed by a plain line. *)
Definition listThenPlain : str := lit "* a" ++ nl ++ lit "b".

Definition helloWorld : str := lit "hello world".

Definition listItem : str := lit "* hello world".

(** Blocks whose explicit paths begin with two slashes, are a lone
    slash, and climb out of the project. *)
Definition doubleSlashBlock : str :=
  lit "```js://a" ++ nl ++ lit "x" ++ nl ++ lit "```".

Definition loneSlashBlock : str :=
  lit "```js:/" ++ nl ++ lit "x" ++ nl ++ lit "```".

Definition parentPathBlock : str :=
  lit "```js:../x.js" ++ nl ++ lit "x" ++ nl ++ lit "```".

(** A file system that holds the base directory [/w] only. *)
Definition baseOnly : Fs.t := [(lit "/w", Fs.Dir)].

(** A project root with [package.json]. *)
Definition nodeProject : Fs.t :=
  [ (lit "/w/t/package.json", Fs.File []); (lit "/w/t", Fs.Dir);
    (lit "/w", Fs.Dir) ].

(** **** Further vocabulary *)

(** The alphabet of a sanitized folder name. *)
Definition nameChar (c : N) : bool :=
  is_lower c || is_upper c || is_digit c
  || N.eqb c (ch "-") || N.eqb c (ch "_").

(** The files of the accepted blocks, each resolved with the number of
    accepted blocks before it. *)
Fixpoint resolvedFrom (i : nat) (blocks : list result) : list ParsedFile :=
  match blocks with
  | [] => []
  | m :: blocks' =>
      ParsedFile_ (resolvePath i (languageTag m) (explicitPath m)
                               (blockBody m))
                  (blockBody m)
      :: resolvedFrom (S i) blocks'
  end.

(** Matches that follow one another from position [from] on, without
    overlap, inside a text of [len] code units. *)
Fixpoint inOrder (from len : nat) (ms : list result) : Prop :=
  match ms with
  | [] => True
  | m :: ms' =>
      from <= index m /\ index m < stop m /\ stop m <= len /\
      inOrder (stop m) len ms'
  end.

(** The text of [s] between two indices. *)
Definition slice (s : str) (i j : nat) : str := firstn (j - i) (skipn i s).


(** [fs'] still holds every path of [fs], and every directory of [fs]
    is still a directory. *)
Definition preserves (fs fs' : Fs.t) : Prop :=
  forall p,
    (Fs.find p fs <> None -> Fs.find p fs' <> None) /\
    (Fs.find p fs = Some Fs.Dir -> Fs.find p fs' = Some Fs.Dir).

(** An action that preserves the file system whatever its outcome. *)
Definition keeps {A : Type} (m : io A) : Prop :=
  forall fs fs' r, m fs = (fs', r) -> preserves fs fs'.


(** A failure that blames a directory, or a file among [paths]. *)
Definition blames (paths : list str) (e : error) : Prop :=
  match e with
  | FileWriteFailed p _ => In p paths
  | DirectoryCreateFailed _ _ => True
  | _ => False
  end.

Definition raises_blaming {A : Type} (paths : list str) (m : io A) : Prop :=
  forall fs fs' e, m fs = (fs', inl e) -> blames paths e.

(** The one match of [parentPathBlock]. *)
Definition parentPathMatch : result :=
  Result 0 19 [(3, lit "x" ++ nl); (2, lit "../x.js"); (1, lit "js")].

(** A path segment that names an entry: not empty, without [/], and
    neither [.] nor [..]. *)
Definition plainSeg (seg : str) : bool :=
  truthy seg && negb (any_in Path.slash seg)
  && negb (str_eqb seg (lit ".")) && negb (str_eqb seg (lit "..")).

(** The absolute path with the given segments. *)
Definition absPath (segs : list str) : str :=
  Path.slash :: Path.join_segments segs.

(** A text with every fence, and the line feed after it, dropped from
    left to right. *)
Fixpoint dropFences (s : str) : str :=
  match s with
  | [] => []
  | a :: r1 =>
      match r1 with
      | b :: c :: r3 =>
          if N.eqb 96 a && N.eqb 96 b && N.eqb 96 c then
            match r3 with
            | d :: r4 => if N.eqb 10 d then dropFences r4 else dropFences r3
            | [] => []
            end
          else a :: dropFences r1
      | _ => a :: dropFences r1
      end
  end.

(** The match of the fence pattern at one position, read off the first
    characters of the rest of the input. *)
Definition fenceAt (bef aft : str) : option mstate :=
  match aft with
  | a :: b :: c :: r3 =>
      if N.eqb 96 a && N.eqb 96 b && N.eqb 96 c then
        match r3 with
        | d :: r4 =>
            if N.eqb 10 d then Some (MState (d :: c :: b :: a :: bef) r4 [])
            else Some (MState (c :: b :: a :: bef) r3 [])
        | [] => Some (MState (c :: b :: a :: bef) [] [])
        end
      else None
  | _ => None
  end.

(** **** The comment forms, read off the text

    A file-path comment is its opener, optional white space, [File:],
    optional white space and a path text; the [<!-- -->] and [/* */]
    forms are closed after the path text.  The first three forms must
    begin a line. *)

Inductive commentForm : Type := SlashForm | HashForm | HtmlForm | BlockForm.

(** The place of a form in the order in which the forms are tried. *)
Definition rank (f : commentForm) : nat :=
  match f with
  | SlashForm => 0
  | HashForm => 1
  | HtmlForm => 2
  | BlockForm => 3
  end.

Definition formPattern (f : commentForm) : pattern :=
  match f with
  | SlashForm => slashComment
  | HashForm => hashComment
  | HtmlForm => htmlComment
  | BlockForm => blockComment
  end.

Definition opener (f : commentForm) : str :=
  match f with
  | SlashForm => lit "//"
  | HashForm => lit "#"
  | HtmlForm => lit "<!--"
  | BlockForm => lit "/*"
  end.

(** The characters a path text may hold: none but [*] is excluded from
    a block comment, none but the line feed from the other forms. *)
Definition pathChar (f : commentForm) (c : N) : bool :=
  match f with
  | BlockForm => negb (N.eqb c 42)
  | _ => negb (N.eqb c 10)
  end.

Definition needsLineStart (f : commentForm) : bool :=
  match f with
  | BlockForm => false
  | _ => true
  end.

(** The text [pre] ends where a line starts. *)
Definition lineStart (pre : str) : bool :=
  match rev pre with
  | [] => true
  | c :: _ => is_line_terminator c
  end.

Definition whitespace (ws : str) : Prop :=
  Forall (fun c => is_space c = true) ws.

(** What must follow the path text. *)
Definition closes (f : commentForm) (tail : str) : Prop :=
  match f with
  | SlashForm | HashForm => True
  | HtmlForm =>
      exists ws rest, whitespace ws /\ tail = ws ++ lit "-->" ++ rest
  | BlockForm => exists rest, tail = lit "*/" ++ rest
  end.

(** After [pre], the body goes on with a comment of form [f] that can
    be read with path text [raw]. *)
Definition commentAt (f : commentForm) (body pre raw : str) : Prop :=
  exists ws1 ws2 tail,
    body = pre ++ opener f ++ ws1 ++ lit "File:" ++ ws2 ++ raw ++ tail
    /\ (needsLineStart f = true -> lineStart pre = true)
    /\ whitespace ws1 /\ whitespace ws2
    /\ raw <> [] /\ Forall (fun c => pathChar f c = true) raw
    /\ closes f tail.

(** The path text the comment after [pre] declares: it begins at the
    first character after [File:] that is not white space, and it is
    the longest text of path characters after which the comment is
    closed. *)
Definition declares (f : commentForm) (body pre raw : str) : Prop :=
  exists ws1 ws2 tail,
    body = pre ++ opener f ++ ws1 ++ lit "File:" ++ ws2 ++ raw ++ tail
    /\ (needsLineStart f = true -> lineStart pre = true)
    /\ whitespace ws1 /\ whitespace ws2
    /\ (exists c0 raw', raw = c0 :: raw' /\ is_space c0 = false)
    /\ Forall (fun c => pathChar f c = true) raw
    /\ closes f tail
    /\ (forall ext tail', tail = ext ++ tail' -> ext <> [] ->
          Forall (fun c => pathChar f c = true) ext -> ~ closes f tail').

End Spec.

(* ================================================================== *)
(** ** Properties of the matcher *)
(* ================================================================== *)

Module ReFacts.
Import Js Re.

Lemma advance_refl x : advance x x [].
Proof. split; reflexivity. Qed.

Lemma advance_trans x y z w1 w2 :
  advance x y w1 -> advance y z w2 -> advance x z (w1 ++ w2).
Proof.
  intros [a1 b1] [a2 b2]. split.
  - rewrite a1, a2, app_assoc. reflexivity.
  - rewrite b2, b1, rev_app_distr, app_assoc. reflexivity.
Qed.

Section Sound.
Variable ml : bool.


Lemma repeat_sound r atom gs g c :
  sound_atom ml r atom ->
  forall fuel min max x z,
    repeat_matcher atom gs g c fuel min max x = Some z ->
    exists w y, derives ml (Quant min max g r) (before x) w /\
                advance x y w /\ c y = Some z.
Proof.
  intros Hatom. induction fuel as [|fuel IH]; intros min max x z H.
  - discriminate.
  - cbn [repeat_matcher] in H.
    assert (Hstop : c x = Some z ->
            min = 0 \/ max = Some 0 ->
            exists w y, derives ml (Quant min max g r) (before x) w /\
                        advance x y w /\ c y = Some z).
    { intros Hc Hm. exists [], x. split; [|split]; auto.
      now constructor. apply advance_refl. }
    assert (Hiter : max <> Some 0 ->
            atom (clear gs x)
              (fun y => if Nat.eqb min 0 && Nat.eqb (pos y) (pos x) then None
                        else repeat_matcher atom gs g c fuel (Nat.pred min)
                               (option_map Nat.pred max) y) = Some z ->
            exists w y, derives ml (Quant min max g r) (before x) w /\
                        advance x y w /\ c y = Some z).
    { intros Hmax Hit. apply Hatom in Hit.
      destruct Hit as (w1 & y1 & D1 & A1 & Hd).
      destruct (Nat.eqb min 0 && Nat.eqb (pos y1) (pos x)); [discriminate|].
      apply IH in Hd. destruct Hd as (w2 & y2 & D2 & A2 & Hc).
      exists (w1 ++ w2), y2. split; [|split]; auto.
      - apply D_step; auto. cbn in D1.
        destruct A1 as [_ B1]. cbn in B1. rewrite <- B1. exact D2.
      - eapply advance_trans; eauto. }
    destruct max as [[|mx]|].
    + apply Hstop; auto.
    + destruct (Nat.eqb min 0) eqn:E; cbn [negb] in H.
      * apply Nat.eqb_eq in E.
        destruct g.
        -- destruct (atom (clear gs x) _) eqn:E1.
           ++ inversion H; subst. apply Hiter; [discriminate|reflexivity].
           ++ apply Hstop; auto.
        -- destruct (c x) eqn:E1.
           ++ inversion H; subst. apply Hstop; [reflexivity|auto].
           ++ apply Hiter; [discriminate|exact H].
      * apply Hiter; [discriminate|exact H].
    + destruct (Nat.eqb min 0) eqn:E; cbn [negb] in H.
      * apply Nat.eqb_eq in E.
        destruct g.
        -- destruct (atom (clear gs x) _) eqn:E1.
           ++ inversion H; subst. apply Hiter; [discriminate|reflexivity].
           ++ apply Hstop; auto.
        -- destruct (c x) eqn:E1.
           ++ inversion H; subst. apply Hstop; [reflexivity|auto].
           ++ apply Hiter; [discriminate|exact H].
      * apply Hiter; [discriminate|exact H].
Qed.

Lemma matcher_sound r : sound_atom ml r (matcher ml r).
Proof.
  induction r as [|p|r1 IH1 r2 IH2|min max g r1 IH1|i r1 IH1|];
    intros x c z H; cbn [matcher] in H.
  - exists [], x. split; [|split]; auto. constructor. apply advance_refl.
  - destruct (after x) as [|ch rest] eqn:Ea; [discriminate|].
    destruct (p ch) eqn:Ep; [|discriminate].
    exists [ch], (MState (ch :: before x) rest (caps x)).
    split; [|split]; auto. now constructor. split; auto.
  - apply IH1 in H. destruct H as (w1 & y1 & D1 & A1 & H).
    apply IH2 in H. destruct H as (w2 & y2 & D2 & A2 & H).
    exists (w1 ++ w2), y2. split; [|split]; auto.
    + constructor; auto. destruct A1 as [_ B1]. rewrite <- B1. exact D2.
    + eapply advance_trans; eauto.
  - eapply repeat_sound in H; eauto.
  - apply IH1 in H. destruct H as (w1 & y1 & D1 & A1 & H).
    exists w1, (set_cap i (consumed x y1) y1). split; [|split]; auto.
    now constructor.
  - destruct (at_bol ml x) eqn:E; [|discriminate].
    exists [], x. split; [|split]; auto.
    + constructor. destruct x; exact E.
    + apply advance_refl.
Qed.

End Sound.

Section Search.
Variable ml : bool.
Variable r : regex.

Lemma search_none : forall aft bef,
  search ml r bef aft = None ->
  forall s1 s2, aft = s1 ++ s2 -> match_here ml r (rev s1 ++ bef) s2 = None.
Proof.
  induction aft as [|ch aft IH]; intros bef H s1 s2 E; cbn [search] in H.
  - destruct s1; [|discriminate]. cbn in E. subst s2. cbn.
    destruct (match_here ml r bef []); [discriminate|reflexivity].
  - destruct (match_here ml r bef (ch :: aft)) eqn:E0; [discriminate|].
    destruct s1 as [|c1 s1]; cbn in E.
    + subst s2. exact E0.
    + inversion E; subst. cbn [rev]. rewrite <- app_assoc. cbn.
      apply (IH (c1 :: bef)); auto.
Qed.

Lemma search_some : forall aft bef i y,
  search ml r bef aft = Some (i, y) ->
  exists skipped rest,
    aft = skipped ++ rest /\ i = List.length bef + List.length skipped /\
    match_here ml r (rev skipped ++ bef) rest = Some y /\
    forall s1 c s2, skipped = s1 ++ c :: s2 ->
      match_here ml r (rev s1 ++ bef) (c :: s2 ++ rest) = None.
Proof.
  induction aft as [|ch aft IH]; intros bef i y H; cbn [search] in H.
  - destruct (match_here ml r bef []) eqn:E0; [|discriminate].
    inversion H; subst. exists [], []. cbn. repeat split; auto.
    intros [|] ? ? ?; discriminate.
  - destruct (match_here ml r bef (ch :: aft)) eqn:E0.
    + inversion H; subst. exists [], (ch :: aft). cbn. repeat split; auto.
      intros [|] ? ? ?; discriminate.
    + apply IH in H. destruct H as (sk & rest & E & Ei & Hm & Hl).
      exists (ch :: sk), rest. cbn [rev List.length app].
      rewrite <- app_assoc. cbn. repeat split; auto.
      * now rewrite E.
      * rewrite Ei. cbn. lia.
      * intros s1 c s2 Es. destruct s1 as [|c1 s1]; cbn in Es.
        -- inversion Es; subst. cbn. exact E0.
        -- inversion Es; subst. cbn [rev]. rewrite <- app_assoc. cbn.
           apply Hl. reflexivity.
Qed.

End Search.

(** *** Fuel

    The iteration bound of [repeat_matcher] and the bounds of the two
    loops over successive matches are never reached: more fuel gives the
    same result. *)

Lemma reaches_refl x : reaches x x.
Proof. exists []. apply advance_refl. Qed.

Lemma reaches_trans x y z : reaches x y -> reaches y z -> reaches x z.
Proof.
  intros [w1 H1] [w2 H2]. exists (w1 ++ w2). eapply advance_trans; eauto.
Qed.

Lemma reaches_clear gs x y : reaches (clear gs x) y -> reaches x y.
Proof. intros [w H]. exists w. exact H. Qed.

Lemma reaches_length x y :
  reaches x y ->
  pos y + List.length (after y) = pos x + List.length (after x) /\
  pos x <= pos y.
Proof.
  intros [w [A B]]. unfold pos. rewrite A, B, !length_app, length_rev. lia.
Qed.

Section Fuel.
Variable atom : mstate -> (mstate -> option mstate) -> option mstate.
Variable gs : list nat.
Variable greedy : bool.
Hypothesis atom_local : local_atom atom.

Lemma repeat_local : forall fuel min max x c1 c2,
  (forall y, reaches x y -> c1 y = c2 y) ->
  repeat_matcher atom gs greedy c1 fuel min max x
  = repeat_matcher atom gs greedy c2 fuel min max x.
Proof.
  induction fuel as [|fuel IH]; intros min max x c1 c2 Hc; [reflexivity|].
  cbn [repeat_matcher].
  rewrite (Hc x (reaches_refl x)).
  assert (Hd : forall mn mx,
    atom (clear gs x)
      (fun y => if Nat.eqb mn 0 && Nat.eqb (pos y) (pos x) then None
                else repeat_matcher atom gs greedy c1 fuel (Nat.pred mn)
                       (option_map Nat.pred mx) y)
    = atom (clear gs x)
      (fun y => if Nat.eqb mn 0 && Nat.eqb (pos y) (pos x) then None
                else repeat_matcher atom gs greedy c2 fuel (Nat.pred mn)
                       (option_map Nat.pred mx) y)).
  { intros mn mx. apply atom_local. intros y Hy.
    destruct (Nat.eqb mn 0 && Nat.eqb (pos y) (pos x)); [reflexivity|].
    apply IH. intros z Hz. apply Hc.
    eapply reaches_trans; [|exact Hz]. now apply reaches_clear in Hy. }
  rewrite (Hd min max). reflexivity.
Qed.

Lemma repeat_fuel c : forall f1 f2 min max x,
  min + List.length (after x) < f1 ->
  min + List.length (after x) < f2 ->
  repeat_matcher atom gs greedy c f1 min max x
  = repeat_matcher atom gs greedy c f2 min max x.
Proof.
  induction f1 as [|f1 IH]; intros f2 min max x H1 H2; [lia|].
  destruct f2 as [|f2]; [lia|]. cbn [repeat_matcher].
  assert (Hd :
    atom (clear gs x)
      (fun y => if Nat.eqb min 0 && Nat.eqb (pos y) (pos x) then None
                else repeat_matcher atom gs greedy c f1 (Nat.pred min)
                       (option_map Nat.pred max) y)
    = atom (clear gs x)
      (fun y => if Nat.eqb min 0 && Nat.eqb (pos y) (pos x) then None
                else repeat_matcher atom gs greedy c f2 (Nat.pred min)
                       (option_map Nat.pred max) y)).
  { apply atom_local. intros y Hy. apply reaches_clear in Hy.
    apply reaches_length in Hy. destruct Hy as [Hlen Hpos].
    destruct (Nat.eqb min 0) eqn:Em; cbn [andb].
    - destruct (Nat.eqb (pos y) (pos x)) eqn:Ep; [reflexivity|].
      apply Nat.eqb_eq in Em. apply Nat.eqb_neq in Ep. subst min.
      apply IH; cbn; lia.
    - apply Nat.eqb_neq in Em. apply IH; lia. }
  rewrite Hd. reflexivity.
Qed.

End Fuel.

Lemma matcher_local ml r : local_atom (matcher ml r).
Proof.
  induction r as [|p|r1 IH1 r2 IH2|min max g r1 IH1|i r1 IH1|];
    intros x c1 c2 Hc; cbn [matcher].
  - apply Hc, reaches_refl.
  - destruct (after x) as [|ch rest] eqn:Ea; [reflexivity|].
    destruct (p ch); [|reflexivity]. apply Hc.
    exists [ch]. split; [exact Ea|reflexivity].
  - apply IH1. intros y Hy. apply IH2. intros z Hz. apply Hc.
    eapply reaches_trans; eauto.
  - apply repeat_local; assumption.
  - apply IH1. intros y [w Hy]. apply Hc. exists w. exact Hy.
  - destruct (at_bol ml x); [|reflexivity]. apply Hc, reaches_refl.
Qed.

(** The fuel [matcher] gives to a quantifier is enough. *)
Lemma matcher_fuel_enough ml min max g r x c extra :
  repeat_matcher (matcher ml r) (groups r) g c
                 (extra + S (min + List.length (after x))) min max x
  = matcher ml (Quant min max g r) x c.
Proof.
  cbn [matcher]. apply repeat_fuel; [apply matcher_local|lia|lia].
Qed.

Lemma search_here ml r bef aft y :
  match_here ml r bef aft = Some y ->
  search ml r bef aft = Some (List.length bef, y).
Proof. intros H. destruct aft; cbn [search]; rewrite H; reflexivity. Qed.

Lemma match_here_advance ml r bef aft y :
  match_here ml r bef aft = Some y ->
  exists w, derives ml r bef w /\ aft = w ++ after y /\
            before y = rev w ++ bef.
Proof.
  unfold match_here. intros H. apply matcher_sound in H.
  destruct H as (w & y' & D & [A B] & Hc). inversion Hc; subst.
  exists w. auto.
Qed.


Lemma nonempty_chr ml p : nonempty ml (Chr p).
Proof. intros bef w D. inversion D; subst. discriminate. Qed.

Lemma nonempty_seq_l ml r1 r2 : nonempty ml r1 -> nonempty ml (Seq r1 r2).
Proof.
  intros H bef w D. inversion D; subst.
  match goal with D1 : derives _ r1 _ _ |- _ => apply H in D1 end.
  destruct w1; [congruence|discriminate].
Qed.

Lemma nonempty_seq_r ml r1 r2 : nonempty ml r2 -> nonempty ml (Seq r1 r2).
Proof.
  intros H bef w D. inversion D; subst.
  match goal with D2 : derives _ r2 _ _ |- _ => apply H in D2 end.
  destruct w1; cbn; [assumption|discriminate].
Qed.

Lemma nonempty_plus ml g r max :
  max <> Some 0 -> nonempty ml r -> nonempty ml (Quant 1 max g r).
Proof.
  intros Hmax H bef w D. inversion D; subst.
  - match goal with D0 : _ \/ _ |- _ => destruct D0 end;
      [discriminate|contradiction].
  - match goal with D1 : derives _ r _ _ |- _ => apply H in D1 end.
    destruct w1; [congruence|discriminate].
Qed.

Lemma exec_from_some p s li m :
  li <= List.length s ->
  exec_from p s li = Some m ->
  exists skipped w rest,
    skipn li s = skipped ++ w ++ rest /\
    index m = li + List.length skipped /\
    stop m = index m + List.length w /\
    derives (flag_m p) (body p) (rev skipped ++ rev (firstn li s)) w /\
    forall s1 c s2, skipped = s1 ++ c :: s2 ->
      match_here (flag_m p) (body p) (rev s1 ++ rev (firstn li s))
                 (c :: s2 ++ w ++ rest) = None.
Proof.
  intros Hli H. unfold exec_from in H.
  destruct (search _ _ _ _) as [[i y]|] eqn:E; [|discriminate].
  inversion H; subst; clear H. cbn [index stop].
  apply search_some in E. destruct E as (sk & rest & E1 & Ei & Hm & Hl).
  apply match_here_advance in Hm. destruct Hm as (w & D & Ea & Eb).
  exists sk, w, (after y). repeat split.
  - rewrite E1, Ea. reflexivity.
  - rewrite Ei, length_rev, length_firstn. lia.
  - unfold pos. rewrite Eb, Ei. rewrite !length_app, !length_rev. lia.
  - exact D.
  - intros s1 c s2 Es. rewrite <- Ea. apply Hl. exact Es.
Qed.

Lemma exec_from_none p s li :
  exec_from p s li = None ->
  forall s1 s2, skipn li s = s1 ++ s2 ->
    match_here (flag_m p) (body p) (rev s1 ++ rev (firstn li s)) s2 = None.
Proof.
  intros H. unfold exec_from in H.
  destruct (search _ _ _ _) as [[i y]|] eqn:E; [discriminate|].
  intros s1 s2 Es. eapply search_none; eauto.
Qed.

Lemma In_skipn {A} (x : A) n l : In x (skipn n l) -> In x l.
Proof.
  intros H. rewrite <- (firstn_skipn n l). apply in_or_app. now right.
Qed.

Section ReplaceAll.
Variable p : pattern.
Variable by_ : str.
Variable K : N -> Prop.
Hypothesis p_global : flag_g p = true.
Hypothesis p_nonempty : nonempty (flag_m p) (body p).
Hypothesis p_skip : forall bef c rest,
  match_here (flag_m p) (body p) bef (c :: rest) = None -> K c.

Lemma replace_loop_kept s : forall fuel li,
  li <= List.length s -> List.length s - li < fuel ->
  Forall (fun c => (In c s /\ K c) \/ In c by_)
         (replace_loop fuel p by_ s li li).
Proof.
  induction fuel as [|fuel IH]; intros li Hli Hf; [lia|].
  cbn [replace_loop].
  destruct (Nat.ltb (List.length s) li) eqn:El.
  { apply Nat.ltb_lt in El. lia. }
  destruct (exec_from p s li) as [m|] eqn:E.
  - destruct (exec_from_some _ _ Hli E)
      as (sk & w & rest & Es & Ei & Est & D & Hl).
    assert (Hw : w <> []) by (eapply p_nonempty; eauto).
    assert (Hlen : List.length (skipn li s) = List.length s - li)
      by apply length_skipn.
    rewrite Es, !length_app in Hlen.
    assert (Hwl : 0 < List.length w) by (destruct w; cbn; [congruence|lia]).
    replace (index m - li) with (List.length sk) by lia.
    rewrite Es, firstn_app, firstn_all, Nat.sub_diag. cbn [firstn].
    rewrite app_nil_r, p_global.
    replace (Nat.eqb (stop m) (index m)) with false
      by (symmetry; apply Nat.eqb_neq; lia).
    apply Forall_app; split; [|apply Forall_app; split].
    + apply Forall_forall. intros c Hc. left. split.
      * apply (@In_skipn _ _ li). rewrite Es. apply in_or_app. now left.
      * apply in_split in Hc. destruct Hc as (s1 & s2 & Hc).
        eapply p_skip. apply (Hl _ _ _ Hc).
    + apply Forall_forall. intros c Hc. now right.
    + apply IH; lia.
  - apply Forall_forall. intros c Hc. left. split.
    + eapply In_skipn; eauto.
    + apply in_split in Hc. destruct Hc as (s1 & s2 & Hc).
      eapply p_skip. apply (exec_from_none _ _ _ E _ _ Hc).
Qed.

Lemma replace_kept s :
  Forall (fun c => (In c s /\ K c) \/ In c by_) (replace p by_ s).
Proof. unfold replace. apply replace_loop_kept; lia. Qed.

End ReplaceAll.

Lemma replace_no_match p by_ s :
  exec p s = None -> replace p by_ s = s.
Proof.
  unfold replace, exec. intros H. cbn [replace_loop].
  destruct (Nat.ltb (List.length s) 0) eqn:E; [reflexivity|].
  rewrite H. reflexivity.
Qed.

Lemma exec_from_bounds p s li m :
  li <= List.length s -> exec_from p s li = Some m ->
  li <= index m /\ index m <= stop m /\ stop m <= List.length s.
Proof.
  intros Hli E. destruct (exec_from_some _ _ Hli E)
    as (sk & w & rest & Es & Ei & Est & _ & _).
  apply (f_equal (@List.length N)) in Es.
  rewrite length_skipn, !length_app in Es. lia.
Qed.

Lemma exec_from_progress p s li m :
  nonempty (flag_m p) (body p) ->
  li <= List.length s -> exec_from p s li = Some m -> li < stop m.
Proof.
  intros Hne Hli E. destruct (exec_from_some _ _ Hli E)
    as (sk & w & rest & Es & Ei & Est & D & _).
  apply Hne in D. destruct w; [congruence|]. cbn in Est. lia.
Qed.

(** The loop over the matches of a pattern that cannot match the empty
    string ends before its fuel does. *)
Lemma exec_loop_fuel p s :
  nonempty (flag_m p) (body p) ->
  forall f1 f2 li,
    li <= List.length s ->
    List.length s - li < f1 -> List.length s - li < f2 ->
    exec_loop f1 p s li = exec_loop f2 p s li.
Proof.
  intros Hne. induction f1 as [|f1 IH]; intros f2 li Hli H1 H2; [lia|].
  destruct f2 as [|f2]; [lia|]. cbn [exec_loop].
  destruct (Nat.ltb (List.length s) li); [reflexivity|].
  destruct (exec_from p s li) as [m|] eqn:E; [|reflexivity].
  pose proof (@exec_from_bounds p s li m Hli E) as Hb.
  pose proof (@exec_from_progress p s li m Hne Hli E) as Hp.
  f_equal. apply IH; lia.
Qed.

Lemma exec_all_fuel p s extra :
  nonempty (flag_m p) (body p) ->
  exec_loop (extra + S (List.length s)) p s 0 = exec_all p s.
Proof. intros Hne. apply exec_loop_fuel; auto; lia. Qed.

(** The replacement loop ends before its fuel does, for every
    pattern. *)
Lemma replace_loop_fuel p by_ s :
  forall f1 f2 li copied,
    li <= List.length s ->
    List.length s - li < f1 -> List.length s - li < f2 ->
    replace_loop f1 p by_ s li copied = replace_loop f2 p by_ s li copied.
Proof.
  induction f1 as [|f1 IH]; intros f2 li copied Hli H1 H2; [lia|].
  destruct f2 as [|f2]; [lia|]. cbn [replace_loop].
  destruct (Nat.ltb (List.length s) li); [reflexivity|].
  destruct (exec_from p s li) as [m|] eqn:E; [|reflexivity].
  pose proof (@exec_from_bounds p s li m Hli E) as Hb.
  destruct (flag_g p); [|reflexivity].
  do 2 f_equal.
  destruct (Nat.eqb (stop m) (index m)) eqn:Ee.
  - destruct (Nat.eq_dec (stop m) (List.length s)) as [El|Hn].
    + destruct f1 as [|f1'], f2 as [|f2']; cbn [replace_loop];
        try reflexivity;
        replace (Nat.ltb (List.length s) (S (stop m))) with true
          by (symmetry; apply Nat.ltb_lt; lia); reflexivity.
    + apply IH; lia.
  - apply Nat.eqb_neq in Ee. apply IH; lia.
Qed.

Lemma replace_fuel p by_ s extra :
  replace_loop (extra + S (List.length s)) p by_ s 0 0 = replace p by_ s.
Proof. apply replace_loop_fuel; lia. Qed.

(** *** Replacement, one position at a time *)

Lemma skipn_cons_nth (s : str) li :
  li < List.length s ->
  exists c, skipn li s = c :: skipn (S li) s /\
            firstn (S li) s = firstn li s ++ [c].
Proof.
  revert li. induction s as [|a s IH]; intros li H; [cbn in H; lia|].
  destruct li as [|li].
  - exists a. split; reflexivity.
  - destruct (IH li) as (c & E1 & E2); [cbn in H; lia|].
    exists c. split; [exact E1|].
    change (firstn (S (S li)) (a :: s)) with (a :: firstn (S li) s).
    rewrite E2. reflexivity.
Qed.

Lemma exec_from_skip p s li :
  li < List.length s -> match_at p s li = None ->
  exec_from p s li = exec_from p s (S li).
Proof.
  intros Hli Hm. unfold exec_from, match_at in *.
  destruct (skipn_cons_nth s Hli) as (c & E1 & E2).
  rewrite E1 in Hm |- *. cbn [search]. rewrite Hm.
  rewrite E2, rev_app_distr. reflexivity.
Qed.

Lemma exec_from_here p s li y :
  li <= List.length s -> match_at p s li = Some y ->
  exec_from p s li = Some (Result li (pos y) (caps y)).
Proof.
  intros Hli Hm. unfold exec_from, match_at in *.
  rewrite (search_here _ _ _ _ Hm).
  rewrite length_rev, length_firstn.
  replace (Nat.min li (List.length s)) with li by lia. reflexivity.
Qed.

Lemma replace_loop_skip p by_ s fuel li :
  li < List.length s -> match_at p s li = None ->
  exists c, skipn li s = c :: skipn (S li) s /\
    replace_loop (S fuel) p by_ s li li
    = c :: replace_loop (S fuel) p by_ s (S li) (S li).
Proof.
  intros Hli Hm. destruct (skipn_cons_nth s Hli) as (c & E1 & _).
  exists c. split; [exact E1|]. cbn [replace_loop].
  replace (Nat.ltb (List.length s) li) with false
    by (symmetry; apply Nat.ltb_ge; lia).
  replace (Nat.ltb (List.length s) (S li)) with false
    by (symmetry; apply Nat.ltb_ge; lia).
  rewrite (@exec_from_skip p s li Hli Hm).
  destruct (exec_from p s (S li)) as [m|] eqn:E; [|exact E1].
  assert (Hb : S li <= index m)
    by (apply (@exec_from_bounds p s (S li) m); [lia|exact E]).
  rewrite E1. replace (index m - li) with (S (index m - S li)) by lia.
  reflexivity.
Qed.

Lemma replace_loop_here p by_ s fuel li y :
  li <= List.length s -> match_at p s li = Some y ->
  replace_loop (S fuel) p by_ s li li
  = by_ ++ (if flag_g p
            then replace_loop fuel p by_ s
                   (if Nat.eqb (pos y) li then S (pos y) else pos y) (pos y)
            else skipn (pos y) s).
Proof.
  intros Hli Hm. cbn [replace_loop].
  replace (Nat.ltb (List.length s) li) with false
    by (symmetry; apply Nat.ltb_ge; lia).
  rewrite (@exec_from_here p s li y Hli Hm). cbn [index stop].
  rewrite Nat.sub_diag. reflexivity.
Qed.

Lemma exec_leftmost p s m :
  exec p s = Some m ->
  forall j, j < index m -> match_at p s j = None.
Proof.
  unfold exec. intros E j Hj. apply exec_from_some in E; [|lia].
  destruct E as (sk & w & rest & Es & Ei & _ & _ & Hl).
  cbn [skipn firstn rev] in Es, Hl. cbn [Nat.add] in Ei.
  rewrite Ei in Hj. unfold match_at. subst s.
  destruct (skipn j sk) as [|c s2] eqn:Ek.
  { apply (f_equal (@List.length N)) in Ek.
    rewrite length_skipn in Ek. cbn in Ek. lia. }
  assert (Esk : sk = firstn j sk ++ c :: s2)
    by (rewrite <- Ek; symmetry; apply firstn_skipn).
  specialize (Hl _ _ _ Esk). rewrite app_nil_r in Hl.
  rewrite firstn_app, skipn_app.
  replace (j - List.length sk) with 0 by lia.
  cbn [firstn skipn]. rewrite app_nil_r, Ek. exact Hl.
Qed.

(** *** Greedy runs

    A greedy quantifier over a character class first tries the longest
    run; when the continuation accepts there, that is the result. *)

Lemma clear_nil x : clear [] x = x.
Proof.
  destruct x as [b a cs]. unfold clear. cbn. f_equal.
  induction cs as [|kv cs IH]; cbn; [reflexivity|]. now rewrite IH.
Qed.

Section Runs.
Variable p : N -> bool.
Variable atom : mstate -> (mstate -> option mstate) -> option mstate.
Hypothesis atom_chr : forall x c,
  atom x c = match after x with
             | a :: rest =>
                 if p a then c (MState (a :: before x) rest (caps x))
                 else None
             | [] => None
             end.

Lemma star_run_fuel c z rest :
  stops p rest ->
  forall run fuel bef cs,
    Forall (fun a => p a = true) run ->
    List.length (run ++ rest) < fuel ->
    c (MState (rev run ++ bef) rest cs) = Some z ->
    repeat_matcher atom [] true c fuel 0 None
                   (MState bef (run ++ rest) cs) = Some z.
Proof.
  intros Hstop. induction run as [|a run IH]; intros fuel bef cs Hrun Hf Hc;
    (destruct fuel as [|fuel]; [cbn in Hf; lia|]);
    cbn [repeat_matcher Nat.eqb negb]; rewrite clear_nil, atom_chr;
    cbn [after before caps app].
  - cbn [rev app] in Hc. destruct rest as [|a rest].
    + exact Hc.
    + cbn in Hstop. rewrite Hstop. exact Hc.
  - apply Forall_cons_iff in Hrun. destruct Hrun as [Ha Hrun].
    rewrite Ha. cbn [andb pos before List.length].
    replace (Nat.eqb (S (List.length bef)) (List.length bef)) with false
      by (symmetry; apply Nat.eqb_neq; lia).
    cbn [Nat.pred option_map].
    rewrite (IH fuel (a :: bef) cs Hrun); [reflexivity| |].
    + cbn in Hf. lia.
    + cbn [rev] in Hc. rewrite <- app_assoc in Hc. exact Hc.
Qed.

Lemma plus_run_fuel c z rest a run fuel bef cs :
  stops p rest ->
  Forall (fun a => p a = true) (a :: run) ->
  S (List.length ((a :: run) ++ rest)) < fuel ->
  c (MState (rev (a :: run) ++ bef) rest cs) = Some z ->
  repeat_matcher atom [] true c fuel 1 None
                 (MState bef ((a :: run) ++ rest) cs) = Some z.
Proof.
  intros Hs Hrun Hf Hc. destruct fuel as [|fuel]; [lia|].
  cbn [repeat_matcher Nat.eqb negb]. rewrite clear_nil, atom_chr.
  cbn [after before caps app].
  apply Forall_cons_iff in Hrun. destruct Hrun as [Ha Hrun].
  rewrite Ha. cbn [andb Nat.pred option_map].
  apply star_run_fuel; auto.
  - cbn in Hf. lia.
  - cbn [rev] in Hc. rewrite <- app_assoc in Hc. exact Hc.
Qed.

End Runs.

Lemma consumed_run bef a cs w a' cs' :
  consumed (MState bef a cs) (MState (rev w ++ bef) a' cs') = w.
Proof.
  unfold consumed, pos. cbn [before].
  rewrite length_app, length_rev.
  replace (List.length w + List.length bef - List.length bef)
    with (List.length (rev w) + 0) by (rewrite length_rev; lia).
  rewrite firstn_app_2. cbn [firstn]. rewrite app_nil_r.
  apply rev_involutive.
Qed.

Lemma chr_step ml p a bef rest cs c :
  matcher ml (Chr p) (MState bef (a :: rest) cs) c
  = if p a then c (MState (a :: bef) rest cs) else None.
Proof. reflexivity. Qed.

Lemma star_run ml p c z rest run bef cs :
  stops p rest ->
  Forall (fun a => p a = true) run ->
  c (MState (rev run ++ bef) rest cs) = Some z ->
  matcher ml (Star (Chr p)) (MState bef (run ++ rest) cs) c = Some z.
Proof.
  intros Hs Hrun Hc. cbn [matcher Star after].
  apply star_run_fuel with (p := p); auto.
Qed.

Lemma plus_run ml p c z rest a run bef cs :
  stops p rest ->
  Forall (fun a => p a = true) (a :: run) ->
  c (MState (rev (a :: run) ++ bef) rest cs) = Some z ->
  matcher ml (Plus (Chr p)) (MState bef ((a :: run) ++ rest) cs) c = Some z.
Proof.
  intros Hs Hrun Hc.
  change (matcher ml (Plus (Chr p)) (MState bef ((a :: run) ++ rest) cs) c)
    with (repeat_matcher (matcher ml (Chr p)) [] true c
            (S (1 + List.length ((a :: run) ++ rest))) 1 None
            (MState bef ((a :: run) ++ rest) cs)).
  cbn [repeat_matcher Nat.eqb negb]. rewrite clear_nil.
  apply Forall_cons_iff in Hrun. destruct Hrun as [Ha Hrun].
  cbn [app]. rewrite chr_step, Ha.
  cbn [andb Nat.pred option_map].
  apply star_run_fuel with (p := p); auto.
  cbn [rev] in Hc. rewrite <- app_assoc in Hc. exact Hc.
Qed.

(** *** Lazy runs

    A lazy quantifier over a character class stops at the first position
    where the continuation accepts. *)

Section LazyRuns.
Variable p : N -> bool.
Variable atom : mstate -> (mstate -> option mstate) -> option mstate.
Hypothesis atom_chr : forall x c,
  atom x c = match after x with
             | a :: rest =>
                 if p a then c (MState (a :: before x) rest (caps x))
                 else None
             | [] => None
             end.

Lemma lazy_run_fuel c z : forall fuel bef aft cs,
  repeat_matcher atom [] false c fuel 0 None (MState bef aft cs) = Some z ->
  exists run rest,
    aft = run ++ rest /\
    c (MState (rev run ++ bef) rest cs) = Some z /\
    forall r1 a r2, run = r1 ++ a :: r2 ->
      c (MState (rev r1 ++ bef) (a :: r2 ++ rest) cs) = None.
Proof.
  induction fuel as [|fuel IH]; intros bef aft cs H; [discriminate|].
  cbn [repeat_matcher Nat.eqb negb] in H.
  destruct (c (MState bef aft cs)) as [z'|] eqn:Ec.
  - inversion H; subst z'. exists [], aft. cbn. repeat split; auto.
    intros [|] ? ? ?; discriminate.
  - rewrite clear_nil, atom_chr in H. cbn [after before caps] in H.
    destruct aft as [|a aft]; [discriminate|].
    destruct (p a); [|discriminate].
    cbn [andb pos before List.length] in H.
    replace (Nat.eqb (S (List.length bef)) (List.length bef)) with false in H
      by (symmetry; apply Nat.eqb_neq; lia).
    cbn [Nat.pred option_map] in H.
    apply IH in H. destruct H as (run & rest & Ea & Hc & Hmin).
    exists (a :: run), rest. cbn [rev app]. rewrite <- app_assoc. cbn [app].
    repeat split.
    + now rewrite Ea.
    + exact Hc.
    + intros r1 a0 r2 Er. destruct r1 as [|b r1]; cbn in Er.
      * inversion Er; subst. cbn. exact Ec.
      * inversion Er; subst. cbn [rev]. rewrite <- app_assoc. cbn [app].
        apply Hmin. reflexivity.
Qed.

End LazyRuns.

Lemma derives_Forall ml (P : N -> Prop) r bef w :
  derives ml r bef w -> all_chr P r -> Forall P w.
Proof.
  induction 1; cbn [all_chr]; intros HP; try constructor; auto.
  - apply Forall_app. destruct HP. split; auto.
  - apply Forall_app. split; auto.
Qed.

(** *** Strings and single-class patterns *)
Lemma trimStart_Forall (P : N -> Prop) s :
  Forall P s -> Forall P (trimStart s).
Proof.
  induction 1 as [|c s Hc Hs IH]; cbn; [constructor|].
  destruct (is_space c); auto.
Qed.

Lemma trim_Forall (P : N -> Prop) s : Forall P s -> Forall P (trim s).
Proof.
  intros H. unfold trim, trimEnd.
  apply Forall_rev, trimStart_Forall, Forall_rev, trimStart_Forall, H.
Qed.

Lemma trimStart_id s :
  Forall (fun c => is_space c = false) s -> trimStart s = s.
Proof. destruct 1 as [|c s Hc Hs]; cbn; [reflexivity|]. now rewrite Hc. Qed.

Lemma trim_id s : Forall (fun c => is_space c = false) s -> trim s = s.
Proof.
  intros H. unfold trim, trimEnd. rewrite (trimStart_id H).
  rewrite trimStart_id by now apply Forall_rev.
  apply rev_involutive.
Qed.

Lemma search_chr_none ml p : forall aft bef,
  Forall (fun c => p c = false) aft -> search ml (Chr p) bef aft = None.
Proof.
  induction aft as [|c aft IH]; intros bef H; cbn; [reflexivity|].
  inversion H; subst.
  match goal with E : p c = false |- _ => rewrite E end. now apply IH.
Qed.

Lemma search_plus_chr_none ml p : forall aft bef,
  Forall (fun c => p c = false) aft ->
  search ml (Plus (Chr p)) bef aft = None.
Proof.
  induction aft as [|c aft IH]; intros bef H; cbn; [reflexivity|].
  inversion H; subst.
  match goal with E : p c = false |- _ => rewrite E end. now apply IH.
Qed.

Lemma chr_skip ml p bef c rest :
  match_here ml (Chr p) bef (c :: rest) = None -> p c = false.
Proof. cbn. destruct (p c); [discriminate|reflexivity]. Qed.

Lemma plus_chr_skip ml p bef c rest :
  match_here ml (Plus (Chr p)) bef (c :: rest) = None -> p c = false.
Proof.
  cbn. destruct (p c); [|reflexivity]. cbn.
  destruct rest as [|c' rest']; cbn; [discriminate|].
  destruct (p c'); [|discriminate].
  match goal with |- match ?t with _ => _ end = None -> _ =>
    destruct t; discriminate end.
Qed.

(** *** Greedy runs that give characters back

    A greedy quantifier over a character class takes the whole run; when
    the continuation refuses every position it is offered from the end
    of the run down to some point, the match ends at that point. *)

Section BackRuns.
Variable p : N -> bool.
Variable atom : mstate -> (mstate -> option mstate) -> option mstate.
Hypothesis atom_chr : forall x c,
  atom x c = match after x with
             | a :: rest =>
                 if p a then c (MState (a :: before x) rest (caps x))
                 else None
             | [] => None
             end.

Lemma star_back_none_fuel c rest :
  stops p rest ->
  forall ext fuel bef cs,
    Forall (fun a => p a = true) ext ->
    (forall e1 e2, ext = e1 ++ e2 ->
       c (MState (rev e1 ++ bef) (e2 ++ rest) cs) = None) ->
    repeat_matcher atom [] true c fuel 0 None
                   (MState bef (ext ++ rest) cs) = None.
Proof.
  intros Hstop. induction ext as [|a ext IH]; intros fuel bef cs Hext Hc;
    (destruct fuel as [|fuel]; [reflexivity|]);
    cbn [repeat_matcher Nat.eqb negb]; rewrite clear_nil, atom_chr;
    cbn [after before caps app].
  - pose proof (Hc [] [] eq_refl) as H0. cbn [rev app] in H0.
    destruct rest as [|a rest]; [exact H0|].
    cbn in Hstop. rewrite Hstop. exact H0.
  - apply Forall_cons_iff in Hext. destruct Hext as [Ha Hext].
    rewrite Ha. cbn [andb pos before List.length].
    replace (Nat.eqb (S (List.length bef)) (List.length bef)) with false
      by (symmetry; apply Nat.eqb_neq; lia).
    cbn [Nat.pred option_map].
    rewrite (IH fuel (a :: bef) cs Hext).
    + exact (Hc [] (a :: ext) eq_refl).
    + intros e1 e2 E. specialize (Hc (a :: e1) e2).
      cbn [rev app] in Hc. rewrite <- app_assoc in Hc. cbn [app] in Hc.
      apply Hc. now rewrite E.
Qed.

Lemma star_back_fuel c z rest ext :
  stops p rest ->
  Forall (fun a => p a = true) ext ->
  forall run fuel bef cs,
    Forall (fun a => p a = true) run ->
    List.length (run ++ ext ++ rest) < fuel ->
    c (MState (rev run ++ bef) (ext ++ rest) cs) = Some z ->
    (forall e1 e2, ext = e1 ++ e2 -> e1 <> [] ->
       c (MState (rev e1 ++ rev run ++ bef) (e2 ++ rest) cs) = None) ->
    repeat_matcher atom [] true c fuel 0 None
                   (MState bef (run ++ ext ++ rest) cs) = Some z.
Proof.
  intros Hstop Hext.
  induction run as [|a run IH]; intros fuel bef cs Hrun Hf Hc Hn;
    (destruct fuel as [|fuel]; [cbn in Hf; lia|]);
    cbn [repeat_matcher Nat.eqb negb]; rewrite clear_nil, atom_chr;
    cbn [after before caps app].
  - cbn [rev app] in Hc, Hn. destruct ext as [|a ext].
    + cbn [app] in Hc |- *. destruct rest as [|a rest]; [exact Hc|].
      cbn in Hstop. rewrite Hstop. exact Hc.
    + cbn [app]. apply Forall_cons_iff in Hext. destruct Hext as [Ha Hext].
      rewrite Ha. cbn [andb pos before List.length].
      replace (Nat.eqb (S (List.length bef)) (List.length bef)) with false
        by (symmetry; apply Nat.eqb_neq; lia).
      cbn [Nat.pred option_map].
      rewrite (@star_back_none_fuel c rest Hstop ext fuel (a :: bef) cs Hext).
      * exact Hc.
      * intros e1 e2 E. specialize (Hn (a :: e1) e2).
        cbn [rev app] in Hn. rewrite <- app_assoc in Hn. cbn [app] in Hn.
        apply Hn; [now rewrite E|discriminate].
  - apply Forall_cons_iff in Hrun. destruct Hrun as [Ha Hrun].
    rewrite Ha. cbn [andb pos before List.length].
    replace (Nat.eqb (S (List.length bef)) (List.length bef)) with false
      by (symmetry; apply Nat.eqb_neq; lia).
    cbn [Nat.pred option_map].
    rewrite (IH fuel (a :: bef) cs Hrun); [reflexivity| | |].
    + cbn in Hf. lia.
    + cbn [rev] in Hc. rewrite <- app_assoc in Hc. exact Hc.
    + intros e1 e2 E Hne. specialize (Hn e1 e2 E Hne).
      cbn [rev] in Hn. rewrite <- (app_assoc (rev run)) in Hn. exact Hn.
Qed.

End BackRuns.

Lemma plus_back ml p c z rest ext a run bef cs :
  stops p rest ->
  Forall (fun a => p a = true) ext ->
  Forall (fun a => p a = true) (a :: run) ->
  c (MState (rev (a :: run) ++ bef) (ext ++ rest) cs) = Some z ->
  (forall e1 e2, ext = e1 ++ e2 -> e1 <> [] ->
     c (MState (rev e1 ++ rev (a :: run) ++ bef) (e2 ++ rest) cs) = None) ->
  matcher ml (Plus (Chr p)) (MState bef ((a :: run) ++ ext ++ rest) cs) c
  = Some z.
Proof.
  intros Hs Hext Hrun Hc Hn.
  change (matcher ml (Plus (Chr p))
            (MState bef ((a :: run) ++ ext ++ rest) cs) c)
    with (repeat_matcher (matcher ml (Chr p)) [] true c
            (S (1 + List.length ((a :: run) ++ ext ++ rest))) 1 None
            (MState bef ((a :: run) ++ ext ++ rest) cs)).
  cbn [repeat_matcher Nat.eqb negb]. rewrite clear_nil.
  apply Forall_cons_iff in Hrun. destruct Hrun as [Ha Hrun].
  cbn [app]. rewrite chr_step, Ha.
  cbn [andb Nat.pred option_map].
  apply star_back_fuel with (p := p); auto.
  - cbn [rev] in Hc. rewrite <- app_assoc in Hc. exact Hc.
  - intros e1 e2 E Hne. specialize (Hn e1 e2 E Hne).
    cbn [rev] in Hn. rewrite <- (app_assoc (rev run)) in Hn. exact Hn.
Qed.

(** A capture group around a greedy run. *)
Lemma group_plus_back ml p i c z rest ext a run bef cs :
  stops p rest ->
  Forall (fun a => p a = true) ext ->
  Forall (fun a => p a = true) (a :: run) ->
  c (MState (rev (a :: run) ++ bef) (ext ++ rest) ((i, a :: run) :: cs))
  = Some z ->
  (forall e1 e2, ext = e1 ++ e2 -> e1 <> [] ->
     c (MState (rev ((a :: run) ++ e1) ++ bef) (e2 ++ rest)
               ((i, (a :: run) ++ e1) :: cs)) = None) ->
  matcher ml (Group i (Plus (Chr p)))
          (MState bef ((a :: run) ++ ext ++ rest) cs) c = Some z.
Proof.
  intros Hs Hext Hrun Hc Hn.
  change (matcher ml (Group i (Plus (Chr p)))
            (MState bef ((a :: run) ++ ext ++ rest) cs) c)
    with (matcher ml (Plus (Chr p))
            (MState bef ((a :: run) ++ ext ++ rest) cs)
            (fun y => c (set_cap i
                           (consumed
                              (MState bef ((a :: run) ++ ext ++ rest) cs) y)
                           y))).
  apply plus_back; auto.
  - rewrite consumed_run. exact Hc.
  - intros e1 e2 E Hne.
    rewrite (app_assoc (rev e1) (rev (a :: run)) bef), <- rev_app_distr.
    rewrite consumed_run. unfold set_cap. cbn [before after caps].
    now apply Hn.
Qed.

Lemma seq_step ml a b x c :
  matcher ml (Seq a b) x c = matcher ml a x (fun y => matcher ml b y c).
Proof. reflexivity. Qed.

Lemma bol_step ml x c :
  matcher ml Bol x c = if at_bol ml x then c x else None.
Proof. reflexivity. Qed.

(** A literal consumes itself. *)
Lemma lit_step ml : forall l bef rest cs c,
  matcher ml (Lit l) (MState bef (l ++ rest) cs) c
  = c (MState (rev l ++ bef) rest cs).
Proof.
  induction l as [|a l IH]; intros bef rest cs c; [reflexivity|].
  destruct l as [|b l].
  - change (Lit [a]) with (Chr (one a)).
    change ([a] ++ rest) with (a :: rest).
    rewrite chr_step. unfold one. rewrite N.eqb_refl. reflexivity.
  - change (Lit (a :: b :: l)) with (Seq (Chr (one a)) (Lit (b :: l))).
    rewrite seq_step.
    change ((a :: b :: l) ++ rest) with (a :: (b :: l) ++ rest).
    rewrite chr_step. unfold one at 1. rewrite N.eqb_refl.
    rewrite IH. cbn [rev]. rewrite <- !app_assoc. reflexivity.
Qed.

(** *** Reading a derivation *)

Lemma derives_seq ml a b bef w :
  derives ml (Seq a b) bef w ->
  exists w1 w2, w = w1 ++ w2 /\ derives ml a bef w1 /\
                derives ml b (rev w1 ++ bef) w2.
Proof. intros D. inversion D; subst. eauto. Qed.

Lemma derives_chr ml p bef w :
  derives ml (Chr p) bef w -> exists c, w = [c] /\ p c = true.
Proof. intros D. inversion D; subst. eauto. Qed.

Lemma derives_group ml i r bef w :
  derives ml (Group i r) bef w -> derives ml r bef w.
Proof. intros D. now inversion D. Qed.

Lemma derives_bol ml bef w :
  derives ml Bol bef w -> w = [] /\ at_bol ml (MState bef [] []) = true.
Proof. intros D. inversion D; subst. auto. Qed.

Lemma derives_star_chr ml p bef w :
  derives ml (Star (Chr p)) bef w -> Forall (fun c => p c = true) w.
Proof.
  intros D. apply (@derives_Forall ml (fun c => p c = true) _ _ _ D).
  cbn. auto.
Qed.

Lemma derives_plus_chr ml p bef w :
  derives ml (Plus (Chr p)) bef w ->
  w <> [] /\ Forall (fun c => p c = true) w.
Proof.
  intros D. split.
  - revert D. apply nonempty_plus; [discriminate|apply nonempty_chr].
  - apply (@derives_Forall ml (fun c => p c = true) _ _ _ D). cbn. auto.
Qed.

(** The first match of a search is at the first position where the
    pattern matches. *)
Lemma exec_first p s y : forall n li,
  li + n <= List.length s ->
  (forall i, li <= i -> i < li + n -> match_at p s i = None) ->
  match_at p s (li + n) = Some y ->
  exec_from p s li = Some (Result (li + n) (pos y) (caps y)).
Proof.
  induction n as [|n IH]; intros li Hl Hn Hm.
  - rewrite Nat.add_0_r in *. apply exec_from_here; [lia|exact Hm].
  - rewrite exec_from_skip; [|lia|apply Hn; lia].
    replace (li + S n) with (S li + n) in * by lia.
    apply IH; [lia| |exact Hm]. intros i H1 H2. apply Hn; lia.
Qed.

End ReFacts.

(* ================================================================== *)
(** ** Properties of [FileManager] *)
(* ================================================================== *)

Module Facts.
Import Js Re ReFacts FileManager Spec.

(** Evaluate the list a [Forall] ranges over, and nothing else. *)
Ltac eval_list :=
  match goal with
  | |- Forall _ ?l =>
      let v := eval vm_compute in l in
      replace l with v by (vm_compute; reflexivity)
  end.

(** *** Folder names *)

Lemma clean_not_space c : clean c = true -> is_space c = false.
Proof.
  unfold clean. intros H. apply andb_true_iff in H. destruct H as [_ H].
  now apply negb_true_iff.
Qed.

Lemma replace_special_allowed s :
  Forall (fun c => allowed c = true) (replace specialChars [] s).
Proof.
  eapply Forall_impl;
    [|apply (@replace_kept specialChars [] (fun c => allowed c = true))].
  - intros c [[_ H]|[]]. exact H.
  - reflexivity.
  - apply nonempty_chr.
  - intros bef c rest H. apply chr_skip in H.
    apply negb_false_iff in H. exact H.
Qed.

Lemma replace_spaces_clean s :
  Forall (fun c => allowed c = true) s ->
  Forall (fun c => clean c = true) (replace spaceRun (lit "_") s).
Proof.
  intros Hs.
  eapply Forall_impl;
    [|apply (@replace_kept spaceRun (lit "_")
               (fun c => is_space c = false))].
  - intros c [[Hin H]|Hin].
    + unfold clean. rewrite H. rewrite Forall_forall in Hs.
      rewrite (Hs _ Hin). reflexivity.
    + destruct Hin as [<-|[]]. reflexivity.
  - reflexivity.
  - apply nonempty_plus; [discriminate|apply nonempty_chr].
  - intros bef c rest H. now apply plus_chr_skip in H.
Qed.

Lemma sanitize_clean task :
  Forall (fun c => clean c = true) (sanitizeFolderName task).
Proof.
  unfold sanitizeFolderName.
  set (u := replace spaceRun _ _).
  assert (Hu : Forall (fun c => clean c = true) u).
  { apply replace_spaces_clean, trim_Forall, replace_special_allowed. }
  destruct (substring0 50 u) eqn:E; cbn [truthy negb].
  - repeat constructor.
  - rewrite <- E. unfold substring0. apply Forall_forall. intros c Hc.
    rewrite Forall_forall in Hu. apply Hu.
    rewrite <- (firstn_skipn 50 u). apply in_or_app. now left.
Qed.

Lemma sanitize_length task : List.length (sanitizeFolderName task) <= 50.
Proof.
  unfold sanitizeFolderName.
  destruct (substring0 50 _) eqn:E; cbn [truthy negb].
  - cbn. lia.
  - rewrite <- E. apply length_firstn_le || apply firstn_le_length.
Qed.

Lemma sanitize_truthy task : truthy (sanitizeFolderName task) = true.
Proof.
  unfold sanitizeFolderName.
  destruct (substring0 50 _) eqn:E; reflexivity.
Qed.

Lemma sanitize_fixed s :
  Forall (fun c => clean c = true) s -> List.length s <= 50 ->
  truthy s = true -> sanitizeFolderName s = s.
Proof.
  intros Hc Hl Ht. unfold sanitizeFolderName.
  assert (Hns : Forall (fun c => is_space c = false) s).
  { eapply Forall_impl; [|exact Hc]. apply clean_not_space. }
  rewrite (@replace_no_match specialChars).
  2:{ unfold exec, exec_from. cbn [firstn skipn rev specialChars body flag_m].
      rewrite search_chr_none; [reflexivity|].
      eapply Forall_impl; [|exact Hc]. intros c H. cbn beta.
      unfold clean, allowed in H. apply andb_true_iff in H.
      destruct H as [H _]. now rewrite H. }
  rewrite (trim_id Hns).
  rewrite (@replace_no_match spaceRun).
  2:{ unfold exec, exec_from. cbn [firstn skipn rev spaceRun body flag_m].
      now rewrite search_plus_chr_none. }
  unfold substring0. rewrite firstn_all2 by exact Hl.
  now rewrite Ht.
Qed.



(** *** Block extraction terminates *)

Lemma codeBlockPattern_nonempty :
  nonempty (flag_m codeBlockPattern) (body codeBlockPattern).
Proof.
  cbn [codeBlockPattern body flag_m backticks Lit lit List.map
       list_ascii_of_string].
  do 2 apply nonempty_seq_l. apply nonempty_chr.
Qed.

(** [fencedBlocks] lists every match of the loop: a longer run of the
    loop finds nothing more. *)
Lemma fencedBlocks_complete codeMarkdown extra :
  exec_loop (extra + S (List.length codeMarkdown)) codeBlockPattern
            codeMarkdown 0
  = fencedBlocks codeMarkdown.
Proof. apply exec_all_fuel, codeBlockPattern_nonempty. Qed.

(** *** Naming by position *)

Lemma search_bol_later r : forall aft bef,
  bef <> [] -> search false (Seq Bol r) bef aft = None.
Proof.
  induction aft as [|c aft IH]; intros bef H;
    (destruct bef as [|b bef]; [congruence|]); cbn.
  - reflexivity.
  - apply (IH (c :: b :: bef)). discriminate.
Qed.

Lemma leadingSlash_noop c s :
  N.eqb (ch ".") c = false -> N.eqb (ch "/") c = false ->
  replace leadingSlash [] (c :: s) = c :: s.
Proof.
  intros Hdot Hslash. apply replace_no_match.
  unfold exec, exec_from. cbn [firstn skipn rev leadingSlash body flag_m].
  cbn [search].
  assert (E : match_here false
                (Seq Bol (Seq (Opt (Chr (one (ch "."))))
                              (Chr (one (ch "/"))))) [] (c :: s) = None).
  { cbn in Hdot, Hslash |- *. unfold one. rewrite Hdot, Hslash.
    reflexivity. }
  rewrite E. rewrite search_bol_later; [reflexivity|discriminate].
Qed.

(** Normalization drops one leading [/] or [./] and changes nothing
    else; in particular [..] segments stay. *)
Lemma leadingSlash_strips_once filePath :
  replace leadingSlash [] filePath = stripOnce filePath.
Proof.
  assert (Hno : forall c s,
    match_here false (body leadingSlash) [] (c :: s) = None ->
    replace leadingSlash [] (c :: s) = c :: s).
  { intros c s H. apply replace_no_match.
    unfold exec, exec_from. cbn [firstn skipn rev].
    change (flag_m leadingSlash) with false.
    change (search false (body leadingSlash) [] (c :: s))
      with (match match_here false (body leadingSlash) [] (c :: s) with
            | Some y => Some (0, y)
            | None => search false (body leadingSlash) [c] s
            end).
    rewrite H. cbn [body leadingSlash].
    rewrite search_bol_later; [reflexivity|discriminate]. }
  destruct filePath as [|c s]; [reflexivity|].
  destruct (N.eqb 47 c) eqn:E47.
  { apply N.eqb_eq in E47. subst c. reflexivity. }
  destruct (N.eqb 46 c) eqn:E46.
  - apply N.eqb_eq in E46. subst c.
    destruct s as [|c1 s]; [reflexivity|].
    destruct (N.eqb 47 c1) eqn:E1.
    + apply N.eqb_eq in E1. subst c1. reflexivity.
    + assert (Es : stripOnce (46%N :: c1 :: s) = 46%N :: c1 :: s).
      { cbn. destruct c1 as [|q]; [reflexivity|].
        repeat (destruct q as [q|q|]; try reflexivity);
          cbn in E1; discriminate. }
      rewrite Es. apply Hno. cbn -[N.eqb]. unfold one.
      change (N.eqb 46 46) with true. cbn -[N.eqb]. rewrite E1.
      change (N.eqb 47 46) with false. reflexivity.
  - assert (Es : stripOnce (c :: s) = c :: s).
    { cbn. destruct c as [|q]; [reflexivity|].
      repeat (destruct q as [q|q|]; try reflexivity);
        cbn in E47, E46; discriminate. }
    rewrite Es. apply Hno. cbn -[N.eqb]. unfold one.
    rewrite E46, E47. reflexivity.
Qed.

Lemma indexedName_sequential i ext :
  indexedName i ext = sequentialName i ++ ext.
Proof.
  unfold indexedName, sequentialName. destruct i as [|i]; cbn [Nat.eqb].
  - reflexivity.
  - rewrite Nat.add_1_r, <- app_assoc. reflexivity.
Qed.

Lemma sequentialName_normal i ext :
  replace leadingSlash [] (sequentialName i ++ ext) = sequentialName i ++ ext.
Proof.
  destruct i as [|i]; cbn [sequentialName].
  - change (lit "main" ++ ext)
      with (ch "m" :: (lit "ain" ++ ext)).
    apply leadingSlash_noop; reflexivity.
  - rewrite <- app_assoc.
    change (lit "file" ++ ofNat (S (S i)) ++ ext)
      with (ch "f" :: (lit "ile" ++ ofNat (S (S i)) ++ ext)).
    apply leadingSlash_noop; reflexivity.
Qed.

Lemma resolvePath_by_position idx lang actualContent :
  truthy (trim actualContent) = true ->
  commentPath commentPatterns actualContent = [] ->
  resolvePath idx lang [] actualContent =
  sequentialName idx ++
  (if truthy lang then getExtensionFromLanguage lang
   else inferExtensionFromContent actualContent).
Proof.
  intros Hbody Hcomment. unfold resolvePath.
  cbn [truthy]. rewrite Hbody, Hcomment. cbn [truthy negb].
  destruct (truthy lang); rewrite indexedName_sequential;
    apply sequentialName_normal.
Qed.

Lemma blockLoop_named : forall matches files idx,
  Forall (fun m => explicitPath m = [] /\
                   commentPath commentPatterns (blockBody m) = [])
         (accepted matches) ->
  blockLoop matches files idx = files ++ namedFrom idx (accepted matches).
Proof.
  induction matches as [|m matches IH]; intros files idx H; cbn [blockLoop].
  - cbn. now rewrite app_nil_r.
  - cbn [accepted filter] in H |- *. fold (accepted matches) in H |- *.
    change (blockBody m) with (rawGroup 3 m) in H |- *.
    destruct (truthy (trim (rawGroup 3 m))) eqn:Eb.
    + apply Forall_cons_iff in H. destruct H as [[Hp Hc] Hrest].
      rewrite IH by exact Hrest.
      unfold explicitPath in Hp. rewrite Hp.
      rewrite resolvePath_by_position by assumption.
      cbn [namedFrom]. rewrite <- app_assoc. reflexivity.
    + apply IH. exact H.
Qed.

Lemma namedFrom_length : forall blocks i,
  List.length (namedFrom i blocks) = List.length blocks.
Proof. induction blocks; intros; cbn; auto. Qed.

Lemma namedFrom_nth : forall blocks i k f,
  nth_error (namedFrom i blocks) k = Some f ->
  exists m, nth_error blocks k = Some m /\
            filePath f = sequentialName (i + k) ++ extensionOf m /\
            content f = blockBody m.
Proof.
  induction blocks as [|m blocks IH]; intros i k f H.
  - destruct k; discriminate.
  - destruct k as [|k]; cbn in H.
    + inversion H; subst. exists m. rewrite Nat.add_0_r. cbn. auto.
    + apply IH in H. destruct H as (m' & Hm & Hp & Hc).
      exists m'. cbn. rewrite Nat.add_succ_r. auto.
Qed.

(** *** The writer *)

Lemma writeFiles_empty basePath now task codeMarkdown fs :
  parseCodeFiles codeMarkdown = [] ->
  writeFiles basePath now task codeMarkdown fs = (fs, inl NoFilesFound).
Proof. intros H. unfold writeFiles. rewrite H. reflexivity. Qed.








(** *** Contents *)

Lemma truthy_trim_nonempty s : truthy (trim s) = true -> s <> [].
Proof. intros H ->. discriminate. Qed.

Lemma blockLoop_contents : forall matches files idx,
  Forall (fun f => content f <> []) files ->
  Forall (fun f => content f <> []) (blockLoop matches files idx).
Proof.
  induction matches as [|m matches IH]; intros files idx H; cbn [blockLoop].
  - exact H.
  - destruct (truthy (trim (rawGroup 3 m))) eqn:Eb.
    + apply IH. apply Forall_app. split; [exact H|].
      constructor; [|constructor]. cbn [content].
      now apply truthy_trim_nonempty.
    + apply IH. exact H.
Qed.

Lemma parseCodeFiles_content_nonempty codeMarkdown :
  Forall (fun f => content f <> []) (parseCodeFiles codeMarkdown).
Proof.
  unfold parseCodeFiles.
  set (files := blockLoop _ _ _).
  assert (Hf : Forall (fun f => content f <> []) files)
    by (apply blockLoop_contents; constructor).
  destruct (Nat.eqb (List.length files) 0 && truthy (trim codeMarkdown));
    [|exact Hf].
  destruct (looksLikeCode _) eqn:El; [|exact Hf].
  apply Forall_app. split; [exact Hf|]. constructor; [|constructor].
  cbn [content]. intros E. rewrite E in El. discriminate.
Qed.

(** *** The whole-text fallback *)

Lemma search_line_start : forall aft bef,
  match search true (Seq Bol (Chr plainStart)) bef aft with
  | Some _ => true
  | None => false
  end
  = linePlain (at_bol true (MState bef aft [])) aft.
Proof.
  induction aft as [|c aft IH]; intros bef.
  - cbn. destruct (at_bol true _); reflexivity.
  - assert (Hstep : forall b0 : bool,
              at_bol true (MState bef (c :: aft) []) = b0 ->
              match search true (Seq Bol (Chr plainStart)) bef (c :: aft)
              with Some _ => true | None => false end
              = (b0 && plainStart c) || linePlain (is_line_terminator c) aft).
    { intros b0 Hb. cbn [search match_here matcher after before caps].
      rewrite Hb. destruct b0; cbn [andb orb].
      - destruct (plainStart c); [reflexivity|]. cbn [orb].
        rewrite IH. reflexivity.
      - rewrite IH. reflexivity. }
    rewrite (Hstep _ eq_refl). cbn [linePlain]. reflexivity.
Qed.

Lemma test_plainCodePattern s :
  test plainCodePattern s = linePlain true s.
Proof.
  unfold test, exec, exec_from.
  cbn [firstn skipn rev plainCodePattern body flag_m].
  change (Chr (none_of (lit "#*`[]"))) with (Chr plainStart).
  pose proof (search_line_start s []) as H. cbn [at_bol before] in H.
  rewrite <- H. destruct (search _ _ _ _) as [[i y]|]; reflexivity.
Qed.

Lemma looksLikeCode_lines cleaned :
  looksLikeCode cleaned = linePlain true cleaned || hasKeyword cleaned.
Proof.
  unfold looksLikeCode, hasKeyword. rewrite test_plainCodePattern.
  now rewrite !orb_assoc.
Qed.

Lemma parseCodeFiles_no_accepted codeMarkdown :
  accepted (fencedBlocks codeMarkdown) = [] ->
  truthy (trim codeMarkdown) = true ->
  parseCodeFiles codeMarkdown =
  if linePlain true (cleanedText codeMarkdown)
     || hasKeyword (cleanedText codeMarkdown)
  then [wholeTextFile (cleanedText codeMarkdown)]
  else [].
Proof.
  intros Hacc Ht. unfold parseCodeFiles.
  change (exec_all codeBlockPattern codeMarkdown)
    with (fencedBlocks codeMarkdown).
  rewrite blockLoop_named by (rewrite Hacc; constructor).
  rewrite Hacc, Ht. cbn [namedFrom app List.length Nat.eqb andb].
  fold (cleanedText codeMarkdown). rewrite looksLikeCode_lines.
  reflexivity.
Qed.

(** *** Run instructions *)

Lemma find_existsb {A : Type} (f : A -> bool) l :
  existsb f l = match List.find f l with Some _ => true | None => false end.
Proof.
  induction l as [|a l IH]; cbn; [reflexivity|].
  destruct (f a); [reflexivity|exact IH].
Qed.

Lemma generateRunInstructions_numbered cwd folder fs entries :
  Fs.readdir fs folder = inr entries ->
  generateRunInstructions cwd folder fs =
  numberedInstructions (Path.resolve cwd folder) (fileNames entries).
Proof.
  intros H. unfold generateRunInstructions, numberedInstructions.
  rewrite H. fold (fileNames entries).
  destruct (arr_includes (lit "package.json") _); [reflexivity|].
  destruct (arr_includes (lit "requirements.txt") _); [reflexivity|].
  destruct (arr_includes (lit "index.html") _); [reflexivity|].
  destruct (arr_includes (lit "main.py") _); [reflexivity|].
  destruct (arr_includes (lit "main.js") _); [reflexivity|].
  destruct (arr_includes (lit "index.js") _); [reflexivity|].
  cbn [orb]. rewrite find_existsb.
  destruct (List.find isHtml _); reflexivity.
Qed.

Lemma children_immediate p : forall fs seen e,
  In e (Fs.children p fs seen) -> any_in Path.slash (Fs.name e) = false.
Proof.
  induction fs as [|[q n] fs IH]; intros seen e H; cbn [Fs.children] in H.
  - destruct H.
  - destruct (Fs.strip_prefix _ q) as [nm|]; [|eauto].
    destruct (truthy nm && negb (any_in Path.slash nm)
              && negb (arr_includes q seen)) eqn:E; [|eauto].
    destruct H as [<-|H]; [|eauto]. cbn [Fs.name].
    apply andb_true_iff in E. destruct E as [E _].
    apply andb_true_iff in E. destruct E as [_ E].
    now apply negb_true_iff.
Qed.

Lemma readdir_immediate fs p entries :
  Fs.readdir fs p = inr entries ->
  Forall (fun e => any_in Path.slash (Fs.name e) = false) entries.
Proof.
  unfold Fs.readdir. destruct (Fs.stat fs p) as [|[|]]; try discriminate.
  intros H. inversion H; subst. apply Forall_forall.
  intros e He. eapply children_immediate; eauto.
Qed.

(** *** Content sniffing *)

Lemma startsWith_app needle rest : startsWith needle (needle ++ rest) = true.
Proof.
  induction needle as [|c needle IH]; cbn; [reflexivity|].
  now rewrite N.eqb_refl.
Qed.

Lemma includes_app needle a b : includes needle (a ++ needle ++ b) = true.
Proof.
  induction a as [|c a IH]; cbn [app].
  - destruct needle; cbn [includes app]; [destruct b; reflexivity|].
    change (n :: needle ++ b) with ((n :: needle) ++ b).
    destruct ((n :: needle) ++ b) eqn:E; [discriminate|].
    rewrite <- E. cbn [includes]. rewrite startsWith_app. reflexivity.
  - cbn [includes]. rewrite IH. apply orb_true_r.
Qed.

Lemma cssSelector_needs_brace content :
  test cssSelector content = true -> includes (lit "{") content = true.
Proof.
  unfold test. destruct (exec cssSelector content) as [m|] eqn:E;
    [intros _|discriminate].
  unfold exec in E. apply exec_from_some in E; [|lia].
  destruct E as (sk & w & rest & Es & _ & _ & D & _).
  cbn [skipn] in Es. subst content. cbn [cssSelector body flag_m] in D.
  inversion D as [| |? ? ? w1 w2 D1 D2| | | |]; subst; clear D.
  inversion D2 as [| |? ? ? w3 w4 D3 D4| | | |]; subst; clear D2.
  inversion D4 as [| |? ? ? w5 w6 D5 D6| | | |]; subst; clear D4.
  inversion D6 as [|? c ? Hc| | | | |]; subst; clear D6.
  unfold one in Hc. apply N.eqb_eq in Hc. subst c.
  match goal with |- includes _ ?s = true =>
    replace s with ((sk ++ w1 ++ w3 ++ w5) ++ lit "{" ++ rest)
      by (cbn; rewrite <- !app_assoc; reflexivity)
  end.
  apply includes_app.
Qed.

Lemma inferExtensionFromContent_sniffing content :
  inferExtensionFromContent content = sniffing content.
Proof.
  unfold inferExtensionFromContent, sniffing.
  destruct (includes (lit "<!DOCTYPE") content
            || includes (lit "<html") content); [reflexivity|].
  destruct (test cssSelector content) eqn:Ecss.
  - rewrite (cssSelector_needs_brace _ Ecss), orb_true_r. reflexivity.
  - rewrite andb_false_r. rewrite andb_assoc. reflexivity.
Qed.

(** *** Paths declared in comments *)

Lemma trimStart_keeps c s :
  In c s -> is_space c = false -> In c (trimStart s).
Proof.
  intros Hin Hc. induction s as [|x s IH]; [destruct Hin|].
  cbn. destruct (is_space x) eqn:Ex; [|exact Hin].
  destruct Hin as [->|Hin]; [congruence|auto].
Qed.

Lemma trim_keeps c s : In c s -> is_space c = false -> In c (trim s).
Proof.
  intros Hin Hc. unfold trim, trimEnd.
  apply in_rev. rewrite rev_involutive.
  apply trimStart_keeps; [|exact Hc].
  apply -> in_rev. now apply trimStart_keeps.
Qed.

Lemma not_blank c s : In c s -> is_space c = false -> truthy (trim s) = true.
Proof.
  intros Hin Hc. pose proof (trim_keeps _ _ Hin Hc) as H.
  destruct (trim s); [destruct H|reflexivity].
Qed.

(** Every comment pattern begins with a literal character that is not
    white space, so a body it matches is not blank. *)
Lemma comment_match_not_blank p actualContent m :
  In p commentPatterns -> exec p actualContent = Some m ->
  truthy (trim actualContent) = true.
Proof.
  intros Hp E. unfold exec in E. apply exec_from_some in E; [|lia].
  destruct E as (sk & w & rest & Es & _ & _ & D & _).
  cbn [skipn] in Es. subst actualContent.
  assert (Hw : exists c, In c w /\ is_space c = false).
  { cbn in Hp. destruct Hp as [<-|[<-|[<-|[<-|[]]]]];
      cbn [body flag_m slashComment hashComment htmlComment blockComment]
        in D.
    - inversion D as [| |? ? ? w1 w2 D1 D2| | | |]; subst; clear D.
      inversion D2 as [| |? ? ? w3 w4 D3 D4| | | |]; subst; clear D2.
      cbn [Lit lit List.map list_ascii_of_string] in D3.
      inversion D3 as [| |? ? ? w5 w6 D5 D6| | | |]; subst; clear D3.
      inversion D5 as [|? c ? Hc| | | | |]; subst; clear D5.
      exists c. split; [apply in_or_app; right; cbn; auto|].
      unfold one in Hc. apply N.eqb_eq in Hc. now subst c.
    - inversion D as [| |? ? ? w1 w2 D1 D2| | | |]; subst; clear D.
      inversion D2 as [| |? ? ? w3 w4 D3 D4| | | |]; subst; clear D2.
      inversion D3 as [|? c ? Hc| | | | |]; subst; clear D3.
      exists c. split; [apply in_or_app; right; cbn; auto|].
      unfold one in Hc. apply N.eqb_eq in Hc. now subst c.
    - inversion D as [| |? ? ? w1 w2 D1 D2| | | |]; subst; clear D.
      inversion D2 as [| |? ? ? w3 w4 D3 D4| | | |]; subst; clear D2.
      cbn [Lit lit List.map list_ascii_of_string] in D3.
      inversion D3 as [| |? ? ? w5 w6 D5 D6| | | |]; subst; clear D3.
      inversion D5 as [|? c ? Hc| | | | |]; subst; clear D5.
      exists c. split; [apply in_or_app; right; cbn; auto|].
      unfold one in Hc. apply N.eqb_eq in Hc. now subst c.
    - inversion D as [| |? ? ? w1 w2 D1 D2| | | |]; subst; clear D.
      cbn [Lit lit List.map list_ascii_of_string] in D1.
      inversion D1 as [| |? ? ? w5 w6 D5 D6| | | |]; subst; clear D1.
      inversion D5 as [|? c ? Hc| | | | |]; subst; clear D5.
      exists c. split; [cbn; auto|].
      unfold one in Hc. apply N.eqb_eq in Hc. now subst c. }
  destruct Hw as (c & Hin & Hc).
  apply not_blank with c; [|exact Hc].
  apply in_or_app. right. apply in_or_app. now left.
Qed.

Lemma firstMatching_In : forall patterns s p m,
  firstMatching patterns s = Some (p, m) ->
  In p patterns /\ exec p s = Some m.
Proof.
  induction patterns as [|q patterns IH]; intros s p m H; cbn in H.
  - discriminate.
  - destruct (exec q s) as [m'|] eqn:E.
    + inversion H; subst. split; [now left|exact E].
    + apply IH in H. destruct H. split; [now right|assumption].
Qed.

Lemma firstMatching_split : forall patterns s p m,
  firstMatching patterns s = Some (p, m) ->
  exists earlier later,
    patterns = earlier ++ p :: later /\
    Forall (fun q => exec q s = None) earlier.
Proof.
  induction patterns as [|q patterns IH]; intros s p m H; cbn in H.
  - discriminate.
  - destruct (exec q s) as [m'|] eqn:E.
    + inversion H; subst. exists [], patterns. split; [reflexivity|constructor].
    + apply IH in H. destruct H as (ea & la & -> & Hf).
      exists (q :: ea), la. split; [reflexivity|]. now constructor.
Qed.

Lemma commentPath_firstMatching : forall patterns s p m,
  firstMatching patterns s = Some (p, m) ->
  truthy (rawGroup 1 m) = true ->
  commentPath patterns s = trim (rawGroup 1 m).
Proof.
  induction patterns as [|q patterns IH]; intros s p m H Hg; cbn in H.
  - discriminate.
  - cbn [commentPath]. destruct (exec q s) as [m'|] eqn:E.
    + inversion H; subst. unfold rawGroup in Hg |- *.
      destruct (group 1 m) as [g|]; [|discriminate]. now rewrite Hg.
    + eapply IH; eauto.
Qed.

Lemma truthy_trim s : truthy (trim s) = true -> truthy s = true.
Proof. destruct s; [discriminate|reflexivity]. Qed.

Lemma resolvePath_explicit idx language explicit actualContent :
  truthy explicit = true ->
  resolvePath idx language explicit actualContent =
  replace leadingSlash [] explicit.
Proof.
  intros H. unfold resolvePath. rewrite H. cbn zeta. rewrite H.
  reflexivity.
Qed.

Lemma resolvePath_comment idx language actualContent p m :
  firstMatching commentPatterns actualContent = Some (p, m) ->
  truthy (trim (rawGroup 1 m)) = true ->
  resolvePath idx language [] actualContent =
  replace leadingSlash [] (trim (rawGroup 1 m)).
Proof.
  intros H Hg. unfold resolvePath. cbn [truthy].
  destruct (firstMatching_In _ _ H) as [Hin He].
  rewrite (@comment_match_not_blank p actualContent m Hin He).
  rewrite (@commentPath_firstMatching _ _ p m H (@truthy_trim _ Hg)).
  rewrite Hg. cbn [negb]. reflexivity.
Qed.

(** *** Worked inputs *)

(** The scenarios of the specification that name files. *)
Example scenario_html :
  parseCodeFiles (lit "```html" ++ nl ++ lit "<html></html>" ++ nl ++ lit "```")
  = [ParsedFile_ (lit "main.html") (lit "<html></html>" ++ nl)].
Proof. vm_compute. reflexivity. Qed.

Example scenario_explicit_path :
  List.map filePath
    (parseCodeFiles (lit "```js:src/app.js" ++ nl ++ lit "console.log(1);"
                     ++ nl ++ lit "```"))
  = [lit "src/app.js"].
Proof. vm_compute. reflexivity. Qed.

(** The four comment forms, each on the first line of a body with a
    language tag. *)
Example comment_forms :
  resolvePath 0 (lit "js") [] (lit "// File: src/a.js" ++ nl ++ lit "x")
  = lit "src/a.js"
  /\ resolvePath 1 (lit "py") [] (lit "# File: b.py" ++ nl ++ lit "x")
     = lit "b.py"
  /\ resolvePath 2 (lit "html") []
       (lit "<!-- File: c.html -->" ++ nl ++ lit "x")
     = lit "c.html"
  /\ resolvePath 3 (lit "css") [] (lit "/* File: d.css */" ++ nl ++ lit "x")
     = lit "d.css".
Proof. repeat split; vm_compute; reflexivity. Qed.

(** A [//] comment that does not begin its line is not a declaration;
    a block comment is one wherever it stands. *)
Example comment_anchoring :
  resolvePath 0 (lit "js") [] (lit "x = 1; // File: a.js" ++ nl)
  = lit "main.js"
  /\ resolvePath 0 (lit "js") [] (lit "x = 1; /* File: a.js */" ++ nl)
     = lit "a.js".
Proof. split; vm_compute; reflexivity. Qed.

(** White space other than the space survives the first step of
    sanitization and becomes an underscore. *)
Example sanitize_tab :
  sanitizeFolderName (lit "to-do" ++ [9%N] ++ lit "app (v2)!")
  = lit "to-do_app_v2".
Proof. vm_compute. reflexivity. Qed.

(** An existing project folder is left alone: the files go to a folder
    with the time stamp appended. *)
Example collision :
  writeFiles (lit "/w") 17 (lit "t") helloWorld
             ((lit "/w/t", Fs.Dir) :: baseOnly)
  = ([ (lit "/w/t_17/main.js", Fs.File helloWorld);
       (lit "/w/t_17", Fs.Dir); (lit "/w/t", Fs.Dir); (lit "/w", Fs.Dir) ],
     inr (Written_ (lit "/w/t_17") [lit "main.js"])).
Proof. vm_compute. reflexivity. Qed.

(** The block whose path normalizes to the empty string is accepted by
    the parser and fails in the writer. *)
Example empty_path_fails_to_write :
  writeFiles (lit "/w") 0 (lit "t") loneSlashBlock baseOnly
  = ([(lit "/w/t", Fs.Dir); (lit "/w", Fs.Dir)],
     inl (FileWriteFailed [] (SysError Fs.EISDIR))).
Proof. vm_compute. reflexivity. Qed.

(** *** A comment on the first line

    The [//] form and, when no [//] comment occurs in the body, the [#]
    form, read symbolically: [//], optional white space, [File:],
    optional white space, then the path up to the end of the line. *)

Lemma slashComment_first_line ws1 ws2 c0 path tail :
  Forall (fun a => is_space a = true) ws1 ->
  Forall (fun a => is_space a = true) ws2 ->
  is_space c0 = false ->
  Forall (fun a => none_of [LF] a = true) (c0 :: path) ->
  stops (none_of [LF]) tail ->
  match_here true (body slashComment) []
    (lit "//" ++ ws1 ++ lit "File:" ++ ws2 ++ (c0 :: path) ++ tail)
  = Some (MState (rev (lit "//" ++ ws1 ++ lit "File:" ++ ws2 ++ c0 :: path))
                 tail [(1, c0 :: path)]).
Proof.
  intros H1 H2 Hc Hp Ht. unfold match_here.
  cbn -[is_space none_of repeat_matcher].
  eapply star_run_fuel with (p := is_space);
    [intros; reflexivity|reflexivity|exact H1| |].
  { cbn. rewrite !length_app. cbn. lia. }
  cbn -[is_space none_of repeat_matcher].
  eapply star_run_fuel with (p := is_space);
    [intros; reflexivity|exact Hc|exact H2| |].
  { cbn. rewrite !length_app. cbn. lia. }
  cbn -[is_space none_of repeat_matcher].
  eapply plus_run_fuel with (p := none_of [LF]) (a := c0) (run := path);
    [intros; reflexivity|exact Ht|exact Hp|cbn; lia|].
  rewrite consumed_run. unfold set_cap. cbn [before after caps].
  do 2 f_equal.
  cbn [rev]. rewrite !rev_app_distr. cbn [rev app].
  rewrite !rev_app_distr. cbn [rev app]. rewrite <- !app_assoc.
  reflexivity.
Qed.

Lemma exec_slashComment_first_line ws1 ws2 c0 path tail :
  Forall (fun a => is_space a = true) ws1 ->
  Forall (fun a => is_space a = true) ws2 ->
  is_space c0 = false ->
  Forall (fun a => none_of [LF] a = true) (c0 :: path) ->
  stops (none_of [LF]) tail ->
  exec slashComment
       (lit "//" ++ ws1 ++ lit "File:" ++ ws2 ++ (c0 :: path) ++ tail)
  = Some (Result 0
            (List.length (lit "//" ++ ws1 ++ lit "File:" ++ ws2 ++ c0 :: path))
            [(1, c0 :: path)]).
Proof.
  intros H1 H2 Hc Hp Ht. unfold exec, exec_from. cbn [firstn skipn rev].
  change (flag_m slashComment) with true.
  erewrite search_here; [|apply slashComment_first_line; assumption].
  unfold pos. cbn [before caps List.length]. now rewrite length_rev.
Qed.

(** A [// File:] comment on the first line of the body names the file,
    whatever the language tag, the block index and the rest of the
    body. *)
Lemma resolvePath_slash_comment idx language ws1 ws2 c0 path tail :
  Forall (fun a => is_space a = true) ws1 ->
  Forall (fun a => is_space a = true) ws2 ->
  is_space c0 = false ->
  Forall (fun a => none_of [LF] a = true) (c0 :: path) ->
  stops (none_of [LF]) tail ->
  resolvePath idx language []
    (lit "//" ++ ws1 ++ lit "File:" ++ ws2 ++ (c0 :: path) ++ tail)
  = replace leadingSlash [] (trim (c0 :: path)).
Proof.
  intros H1 H2 Hc Hp Ht.
  pose proof (@exec_slashComment_first_line ws1 ws2 c0 path tail
                H1 H2 Hc Hp Ht) as E.
  match type of E with _ = Some ?m =>
    change (c0 :: path) with (rawGroup 1 m) at 2;
    apply (@resolvePath_comment idx language _ slashComment m)
  end.
  - cbn [commentPatterns firstMatching]. rewrite E. reflexivity.
  - cbn [rawGroup group captures lookup Nat.eqb].
    apply not_blank with c0; [now left|exact Hc].
Qed.

(** *** More on strings *)


Lemma trimStart_all_space s :
  Forall (fun c => is_space c = true) s -> trimStart s = [].
Proof.
  induction 1 as [|c s Hc Hs IH]; cbn; [reflexivity|]. now rewrite Hc.
Qed.

Lemma trimStart_idempotent s : trimStart (trimStart s) = trimStart s.
Proof.
  induction s as [|c s IH]; cbn; [reflexivity|].
  destruct (is_space c) eqn:E; [exact IH|]. cbn. now rewrite E.
Qed.

Lemma trimStart_snoc a c :
  is_space c = false -> trimStart (a ++ [c]) = trimStart a ++ [c].
Proof.
  intros Hc. induction a as [|x a IH]; cbn.
  - now rewrite Hc.
  - destruct (is_space x); [exact IH|reflexivity].
Qed.

Lemma trimEnd_cons c s :
  is_space c = false -> trimEnd (c :: s) = c :: trimEnd s.
Proof.
  intros Hc. unfold trimEnd. cbn [rev].
  rewrite trimStart_snoc by exact Hc.
  rewrite rev_app_distr. reflexivity.
Qed.

Lemma trimEnd_idempotent s : trimEnd (trimEnd s) = trimEnd s.
Proof.
  unfold trimEnd. rewrite rev_involutive, trimStart_idempotent. reflexivity.
Qed.

Lemma trimStart_head s :
  match trimStart s with
  | [] => True
  | c :: _ => is_space c = false
  end.
Proof.
  induction s as [|c s IH]; cbn; [exact I|].
  destruct (is_space c) eqn:E; [exact IH|exact E].
Qed.

Lemma trim_idempotent s : trim (trim s) = trim s.
Proof.
  unfold trim. pose proof (trimStart_head s) as H.
  destruct (trimStart s) as [|c t] eqn:E.
  - reflexivity.
  - rewrite (@trimEnd_cons c t H). cbn [trimStart]. rewrite H.
    rewrite <- (@trimEnd_cons c t H). apply trimEnd_idempotent.
Qed.

(** *** More on folder names *)

Lemma clean_nameChar c : clean c = true -> nameChar c = true.
Proof.
  unfold clean, allowed, nameChar. intros H.
  apply andb_true_iff in H. destruct H as [H Hs].
  apply negb_true_iff in Hs. rewrite Hs in H.
  destruct (is_lower c), (is_upper c), (is_digit c); cbn in H |- *;
    auto.
Qed.

Lemma sanitize_fallback task :
  Forall (fun c => nameChar c = false) task ->
  sanitizeFolderName task = lit "coding_task".
Proof.
  intros Hall. unfold sanitizeFolderName.
  assert (Hsp : Forall (fun c => is_space c = true)
                       (replace specialChars [] task)).
  { eapply Forall_impl;
      [|apply (@replace_kept specialChars []
                 (fun c => allowed c = true))].
    - intros c [[Hin Ha]|[]]. rewrite Forall_forall in Hall.
      specialize (Hall _ Hin). unfold allowed in Ha. unfold nameChar in Hall.
      destruct (is_lower c), (is_upper c), (is_digit c), (is_space c),
        (N.eqb c (ch "-")), (N.eqb c (ch "_")); cbn in Ha, Hall |- *;
        congruence.
    - reflexivity.
    - apply nonempty_chr.
    - intros bef c rest H. apply chr_skip in H.
      apply negb_false_iff in H. exact H. }
  unfold trim. rewrite (trimStart_all_space Hsp). reflexivity.
Qed.

(** *** The loop of [parseCodeFiles], in general *)

Lemma blockLoop_resolved : forall matches files idx,
  blockLoop matches files idx = files ++ resolvedFrom idx (accepted matches).
Proof.
  induction matches as [|m matches IH]; intros files idx; cbn [blockLoop].
  - cbn. now rewrite app_nil_r.
  - cbn [accepted filter]. fold (accepted matches).
    change (blockBody m) with (rawGroup 3 m).
    destruct (truthy (trim (rawGroup 3 m))).
    + rewrite IH. cbn [resolvedFrom]. rewrite <- app_assoc. reflexivity.
    + apply IH.
Qed.

Lemma resolvedFrom_length : forall blocks i,
  List.length (resolvedFrom i blocks) = List.length blocks.
Proof. induction blocks; intros; cbn; auto. Qed.

Lemma resolvedFrom_nth : forall blocks i k m,
  nth_error blocks k = Some m ->
  nth_error (resolvedFrom i blocks) k
  = Some (ParsedFile_ (resolvePath (i + k) (languageTag m) (explicitPath m)
                                   (blockBody m))
                      (blockBody m)).
Proof.
  induction blocks as [|b blocks IH]; intros i k m H.
  - destruct k; discriminate.
  - destruct k as [|k]; cbn in H |- *.
    + inversion H; subst. now rewrite Nat.add_0_r.
    + rewrite (IH (S i) k m H). now rewrite Nat.add_succ_r.
Qed.

Lemma parseCodeFiles_accepted codeMarkdown :
  accepted (fencedBlocks codeMarkdown) <> [] ->
  parseCodeFiles codeMarkdown
  = resolvedFrom 0 (accepted (fencedBlocks codeMarkdown)).
Proof.
  intros Hne. unfold parseCodeFiles.
  change (exec_all codeBlockPattern codeMarkdown)
    with (fencedBlocks codeMarkdown).
  rewrite blockLoop_resolved. cbn [app]. rewrite resolvedFrom_length.
  destruct (accepted (fencedBlocks codeMarkdown)); [congruence|reflexivity].
Qed.

Lemma resolvedFrom_not_blank : forall blocks i,
  Forall (fun m => truthy (trim (blockBody m)) = true) blocks ->
  Forall (fun f => truthy (trim (content f)) = true) (resolvedFrom i blocks).
Proof.
  induction blocks as [|m blocks IH]; intros i H; cbn; constructor.
  - apply Forall_cons_iff in H. apply H.
  - apply IH. apply Forall_cons_iff in H. apply H.
Qed.

Lemma accepted_not_blank blocks :
  Forall (fun m => truthy (trim (blockBody m)) = true) (accepted blocks).
Proof.
  unfold accepted. apply Forall_forall. intros m H.
  apply filter_In in H. apply H.
Qed.

Lemma parseCodeFiles_not_blank codeMarkdown :
  Forall (fun f => truthy (trim (content f)) = true)
         (parseCodeFiles codeMarkdown).
Proof.
  destruct (accepted (fencedBlocks codeMarkdown)) as [|m ms] eqn:E.
  - unfold parseCodeFiles.
    change (exec_all codeBlockPattern codeMarkdown)
      with (fencedBlocks codeMarkdown).
    rewrite blockLoop_resolved, E. cbn [app resolvedFrom List.length Nat.eqb].
    destruct (andb true (truthy (trim codeMarkdown))); [|constructor].
    destruct (looksLikeCode _) eqn:El; [|constructor].
    constructor; [|constructor]. cbn [content app].
    rewrite trim_idempotent.
    destruct (trim (replace headingMarker [] codeMarkdown));
      [discriminate|reflexivity].
  - rewrite parseCodeFiles_accepted by (rewrite E; discriminate).
    apply resolvedFrom_not_blank, accepted_not_blank.
Qed.

(** *** Matches in document order *)

Lemma exec_loop_inOrder p s :
  nonempty (flag_m p) (body p) ->
  forall fuel li, li <= List.length s ->
    inOrder li (List.length s) (exec_loop fuel p s li).
Proof.
  intros Hne. induction fuel as [|fuel IH]; intros li Hli; cbn [exec_loop].
  - exact I.
  - destruct (Nat.ltb (List.length s) li); [exact I|].
    destruct (exec_from p s li) as [m|] eqn:E; [|exact I].
    pose proof (@exec_from_bounds p s li m Hli E) as Hb.
    pose proof (@exec_from_progress p s li m Hne Hli E) as Hp.
    cbn [inOrder]. repeat split; try lia.
    + destruct (exec_from_some _ _ Hli E)
        as (sk & w & rest & Es & Ei & Est & D & _).
      apply Hne in D. destruct w; [congruence|]. cbn in Est. lia.
    + apply IH. lia.
Qed.

(** *** The shape of a fenced block *)

Lemma matcher_seq_sound ml a b x c z :
  matcher ml (Seq a b) x c = Some z ->
  exists w y, derives ml a (before x) w /\ advance x y w /\
              matcher ml b y c = Some z.
Proof. intros H. exact (@matcher_sound ml a x (fun y => matcher ml b y c) z H). Qed.

Lemma derives_Lit ml : forall s bef w, derives ml (Lit s) bef w -> w = s.
Proof.
  induction s as [|c s IH]; intros bef w D.
  - cbn in D. inversion D. reflexivity.
  - destruct s as [|c' s].
    + cbn in D. inversion D as [|? a ? Ha| | | | |]; subst.
      unfold one in Ha. apply N.eqb_eq in Ha. now subst.
    + change (Lit (c :: c' :: s)) with (Seq (Chr (one c)) (Lit (c' :: s))) in D.
      inversion D as [| |? ? ? w1 w2 D1 D2| | | |]; subst.
      apply IH in D2. subst w2.
      inversion D1 as [|? a ? Ha| | | | |]; subst.
      unfold one in Ha. apply N.eqb_eq in Ha. now subst.
Qed.

Lemma backticks_accepts ml bef aft cs z :
  matcher ml backticks (MState bef aft cs) (fun y => Some y) = Some z ->
  exists rest, aft = lit "```" ++ rest /\
               z = MState (rev (lit "```") ++ bef) rest cs.
Proof.
  intros H. pose proof H as H'. apply matcher_sound in H'.
  destruct H' as (w & y & D & [A B] & Hy). cbn [before after] in A, B.
  apply derives_Lit in D. subst w. inversion Hy; subst y; clear Hy.
  exists (after z). split; [exact A|].
  rewrite A in H. cbn in H. inversion H. reflexivity.
Qed.

Lemma backticks_rejects ml bef aft cs :
  matcher ml backticks (MState bef aft cs) (fun y => Some y) = None ->
  startsWith (lit "```") aft = false.
Proof.
  unfold backticks. cbn -[N.eqb]. unfold one.
  destruct aft as [|a aft]; [reflexivity|].
  destruct (N.eqb 96 a); [|reflexivity]. cbn -[N.eqb].
  destruct aft as [|b aft]; [reflexivity|].
  destruct (N.eqb 96 b); [|reflexivity]. cbn -[N.eqb].
  destruct aft as [|d aft]; [reflexivity|].
  destruct (N.eqb 96 d); [discriminate|reflexivity].
Qed.

Lemma startsWith_app_false needle x y :
  startsWith needle (x ++ y) = false -> startsWith needle x = false.
Proof.
  revert x. induction needle as [|n needle IH]; intros x H.
  - discriminate.
  - destruct x as [|a x]; [reflexivity|]. cbn in H |- *.
    destruct (N.eqb n a); [|reflexivity]. cbn in H |- *. now apply IH.
Qed.

Lemma includes_false needle s :
  (forall r1 r2, s = r1 ++ r2 -> startsWith needle r2 = false) ->
  includes needle s = false.
Proof.
  induction s as [|a s IH]; intros H.
  - cbn. rewrite (H [] [] eq_refl). reflexivity.
  - cbn [includes]. rewrite (H [] (a :: s) eq_refl). cbn [orb].
    apply IH. intros r1 r2 E. apply (H (a :: r1) r2). now rewrite E.
Qed.

Lemma group_lazy_then ml i p r x c :
  matcher ml (Seq (Group i (LazyStar (Chr p))) r) x c
  = repeat_matcher (matcher ml (Chr p)) [] false
      (fun y => matcher ml r (set_cap i (consumed x y) y) c)
      (S (0 + List.length (after x))) 0 None x.
Proof. reflexivity. Qed.

Lemma codeBlock_match_shape bef aft z :
  match_here false (body codeBlockPattern) bef aft = Some z ->
  exists header text rest,
    aft = lit "```" ++ header ++ [LF] ++ text ++ lit "```" ++ rest /\
    Forall (fun c => c <> LF) header /\
    lookup 3 (caps z) = Some text /\
    after z = rest /\
    pos z = List.length bef
            + List.length (lit "```" ++ header ++ [LF] ++ text ++ lit "```") /\
    includes (lit "```") text = false.
Proof.
  unfold match_here. cbn [codeBlockPattern body]. intros H.
  apply matcher_seq_sound in H. destruct H as (w1 & y1 & D1 & [A1 B1] & H).
  apply matcher_seq_sound in H. destruct H as (w2 & y2 & D2 & [A2 B2] & H).
  apply matcher_seq_sound in H. destruct H as (w3 & y3 & D3 & [A3 B3] & H).
  apply matcher_seq_sound in H. destruct H as (w4 & y4 & D4 & [A4 B4] & H).
  cbn [before after] in A1, B1.
  apply derives_Lit in D1. subst w1.
  assert (H2 : Forall (fun c => c <> LF) w2).
  { eapply derives_Forall; [exact D2|]. cbn. intros c Hc ->. discriminate. }
  assert (H3 : Forall (fun c => c <> LF) w3).
  { eapply derives_Forall; [exact D3|]. cbn. split; intros c Hc ->;
      discriminate. }
  inversion D4 as [|? a ? Ha| | | | |]; subst. unfold one in Ha.
  apply N.eqb_eq in Ha. subst a.
  rewrite group_lazy_then in H. destruct y4 as [b4 a4 c4].
  cbn [before after caps] in *.
  apply lazy_run_fuel with (p := fun c => is_space c || negb (is_space c)) in H;
    [|intros; reflexivity].
  destruct H as (run & rest5 & Ea & Hc & Hmin).
  rewrite consumed_run in Hc. unfold set_cap in Hc. cbn [before after caps] in Hc.
  apply backticks_accepts in Hc. destruct Hc as (rest & E5 & Ez).
  exists (w2 ++ w3), run, rest. subst z. cbn [caps after pos before lookup Nat.eqb].
  repeat split.
  - rewrite A2, A3, A4, Ea, E5. cbn [app]. rewrite <- !app_assoc.
    reflexivity.
  - apply Forall_app. split; assumption.
  - rewrite ?B4, ?B3, ?B2, ?B1.
    unfold pos. cbn [before].
    repeat first [rewrite length_app | rewrite length_rev
                 | progress cbn [List.length app lit List.map
                                 list_ascii_of_string]].
    lia.
  - apply includes_false. intros r1 r2 Er.
    destruct r2 as [|a r2]; [reflexivity|]. subst run.
    specialize (Hmin r1 a r2 eq_refl).
    rewrite consumed_run in Hmin. unfold set_cap in Hmin.
    cbn [before after caps] in Hmin. apply backticks_rejects in Hmin.
    change (a :: r2 ++ rest5) with ((a :: r2) ++ rest5) in Hmin.
    now apply startsWith_app_false in Hmin.
Qed.

Lemma exec_loop_In p s m : forall fuel li,
  li <= List.length s ->
  In m (exec_loop fuel p s li) ->
  exists lj, lj <= List.length s /\ exec_from p s lj = Some m.
Proof.
  induction fuel as [|fuel IH]; intros li Hli H; cbn [exec_loop] in H.
  - destruct H.
  - destruct (Nat.ltb (List.length s) li); [destruct H|].
    destruct (exec_from p s li) as [m'|] eqn:E; [|destruct H].
    destruct H as [<-|H].
    + exists li. auto.
    + apply IH in H; [exact H|].
      apply (@exec_from_bounds p s li m' Hli E).
Qed.

Lemma fencedBlock_shape codeMarkdown m :
  In m (fencedBlocks codeMarkdown) ->
  exists header,
    slice codeMarkdown (index m) (stop m)
    = lit "```" ++ header ++ [LF] ++ blockBody m ++ lit "```" /\
    Forall (fun c => c <> LF) header /\
    includes (lit "```") (blockBody m) = false.
Proof.
  intros H. apply exec_loop_In in H; [|lia].
  destruct H as (lj & Hlj & E). unfold exec_from in E.
  destruct (search _ _ _ _) as [[i y]|] eqn:Es; [|discriminate].
  inversion E; subst m; clear E. cbn [index stop].
  apply search_some in Es. destruct Es as (sk & rest' & E1 & Ei & Hm & _).
  change (flag_m codeBlockPattern) with false in Hm.
  apply codeBlock_match_shape in Hm.
  destruct Hm as (header & text & rest & Er & Hh & Hc & _ & Hp & Hi).
  exists header. unfold blockBody, rawGroup, group. cbn [captures].
  rewrite Hc. split; [|split; assumption].
  unfold slice. rewrite Hp, Ei.
  rewrite length_app, !length_rev, length_firstn.
  replace (Nat.min lj (List.length codeMarkdown)) with lj by lia.
  replace (lj + List.length sk) with (List.length sk + lj) by lia.
  rewrite <- skipn_skipn, E1, skipn_app, skipn_all, Nat.sub_diag.
  cbn [skipn app]. rewrite Er.
  match goal with |- firstn (?a + List.length ?T - ?a) _ = _ =>
    replace (a + List.length T - a) with (List.length T + 0) by lia;
    transitivity (firstn (List.length T + 0) (T ++ rest));
      [f_equal;
       repeat (rewrite <- app_assoc || rewrite <- app_comm_cons);
       reflexivity|]
  end.
  rewrite firstn_app_2. cbn [firstn]. now rewrite app_nil_r.
Qed.

(** *** What the writer returns *)

Lemma bind_ok {A B : Type} (m : io A) (k : A -> io B) fs fs' b :
  bind m k fs = (fs', inr b) ->
  exists fs1 a, m fs = (fs1, inr a) /\ k a fs1 = (fs', inr b).
Proof.
  unfold bind. destruct (m fs) as [fs1 [e|a]]; [discriminate|].
  intros H. exists fs1, a. auto.
Qed.

Lemma bind_err {A B : Type} (m : io A) (k : A -> io B) fs fs' e :
  bind m k fs = (fs', inl e) ->
  m fs = (fs', inl e) \/
  exists fs1 a, m fs = (fs1, inr a) /\ k a fs1 = (fs', inl e).
Proof.
  unfold bind. destruct (m fs) as [fs1 [e1|a]].
  - intros H. inversion H; subst. now left.
  - intros H. right. exists fs1, a. auto.
Qed.

Lemma writeLoop_files folder : forall parsed created fs fs' l,
  writeLoop folder parsed created fs = (fs', inr l) ->
  l = created ++ List.map filePath parsed.
Proof.
  induction parsed as [|f parsed IH]; intros created fs fs' l H;
    cbn [writeLoop] in H.
  - inversion H. cbn. now rewrite app_nil_r.
  - apply bind_ok in H. destruct H as (fs1 & [] & _ & H).
    apply bind_ok in H. destruct H as (fs2 & [] & _ & H).
    apply IH in H. rewrite H, <- app_assoc. reflexivity.
Qed.

Lemma writeFilesToFolder_result folder parsed fs fs' w :
  writeFilesToFolder folder parsed fs = (fs', inr w) ->
  folderPath w = folder /\ files w = List.map filePath parsed.
Proof.
  unfold writeFilesToFolder. intros H.
  apply bind_ok in H. destruct H as (fs1 & l & E & H).
  inversion H; subst. cbn. split; [reflexivity|].
  apply writeLoop_files in E. exact E.
Qed.

(** A successful [writeFiles] is a successful [writeFilesToFolder] into
    the folder it returns. *)
Lemma writeFiles_success basePath now task codeMarkdown fs fs' w :
  writeFiles basePath now task codeMarkdown fs = (fs', inr w) ->
  exists fs1,
    writeFilesToFolder (folderPath w) (parseCodeFiles codeMarkdown) fs1
    = (fs', inr w) /\
    (folderPath w = Path.join [basePath; sanitizeFolderName task] \/
     (folderPath w
      = Path.join [basePath;
                   sanitizeFolderName task ++ lit "_" ++ ofNat now] /\
      Fs.stat fs (Path.join [basePath; sanitizeFolderName task])
      = inr Fs.Dir)).
Proof.
  unfold writeFiles.
  destruct (Nat.eqb (List.length (parseCodeFiles codeMarkdown)) 0);
    [discriminate|].
  set (folder := Path.join [basePath; sanitizeFolderName task]).
  set (newFolder := Path.join [basePath;
                              sanitizeFolderName task ++ lit "_" ++ ofNat now]).
  set (parsed := parseCodeFiles codeMarkdown).
  intros H. apply bind_ok in H. destruct H as (fs1 & early & Htry & H).
  assert (Hplain : forall fsx, writeFilesToFolder folder parsed fsx
                               = (fs', inr w) ->
          exists fs1,
            writeFilesToFolder (folderPath w) parsed fs1 = (fs', inr w) /\
            (folderPath w = folder \/
             (folderPath w = newFolder /\ Fs.stat fs folder = inr Fs.Dir))).
  { intros fsx Hx. exists fsx.
    destruct (writeFilesToFolder_result _ _ _ Hx) as [Hf _].
    rewrite Hf. auto. }
  destruct early as [w'|]; [|eapply Hplain; eauto].
  inversion H; subst w'; clear H.
  unfold try_catch in Htry.
  match type of Htry with
  | (let (_, _) := ?body fs in _) = _ =>
      destruct (body fs) as [fs2 [e|o]] eqn:Eb
  end.
  - (* the handler never returns a result *)
    apply bind_ok in Htry. destruct Htry as (? & ? & _ & Hr). discriminate.
  - inversion Htry; subst; clear Htry.
    apply bind_ok in Eb. destruct Eb as (fs3 & stats & Hst & Eb).
    unfold stat in Hst.
    destruct (Fs.stat fs folder) as [e0|n] eqn:Est; [discriminate|].
    inversion Hst; subst; clear Hst.
    destruct stats as [data|]; [discriminate|].
    apply bind_ok in Eb. destruct Eb as (fs4 & [] & _ & Eb).
    apply bind_ok in Eb. destruct Eb as (fs5 & w'' & Ew & Eb).
    inversion Eb; subst; clear Eb.
    exists fs4.
    destruct (writeFilesToFolder_result _ _ _ Ew) as [Hf _].
    rewrite Hf. auto.
Qed.

(** *** What the writer leaves alone *)

Lemma str_eqb_eq a b : str_eqb a b = true <-> a = b.
Proof.
  revert b. induction a as [|x a IH]; intros [|y b]; cbn;
    try (split; [discriminate|discriminate]); [tauto|].
  rewrite andb_true_iff, N.eqb_eq, IH. split.
  - intros [-> ->]. reflexivity.
  - intros E. inversion E. auto.
Qed.

Lemma str_eqb_refl a : str_eqb a a = true.
Proof. now apply str_eqb_eq. Qed.

Lemma str_eqb_neq a b : a <> b -> str_eqb a b = false.
Proof.
  intros H. destruct (str_eqb a b) eqn:E; [|reflexivity].
  apply str_eqb_eq in E. contradiction.
Qed.

Lemma stat_find fs p n : Fs.find p fs = Some n -> Fs.stat fs p <> inl Fs.ENOENT.
Proof.
  unfold Fs.stat. intros H. destruct (Fs.is_root p); [discriminate|].
  rewrite H. discriminate.
Qed.

Lemma mkdir_chain_exact : forall ds fs fs',
  Fs.mkdir_chain ds fs = inr fs' ->
  forall q n, Fs.find q fs = Some n -> Fs.find q fs' = Some n.
Proof.
  induction ds as [|d ds IH]; intros fs fs' H q n Hq; cbn in H.
  - inversion H; subst. exact Hq.
  - destruct (Fs.stat fs d) as [e|[data|]] eqn:Es.
    + apply (IH _ _ H). cbn.
      destruct (str_eqb q d) eqn:Eq; [|exact Hq].
      apply str_eqb_eq in Eq. subst q. unfold Fs.stat in Es.
      destruct (Fs.is_root d); [discriminate|]. rewrite Hq in Es.
      discriminate.
    + destruct ds; discriminate.
    + eapply IH; eauto.
Qed.

Lemma ensureDirectory_exact d fs fs' r :
  ensureDirectory d fs = (fs', r) ->
  forall q n, Fs.find q fs = Some n -> Fs.find q fs' = Some n.
Proof.
  unfold ensureDirectory, Fs.mkdir_recursive.
  destruct (Fs.mkdir_chain (Fs.chain d) fs) as [e|fs1] eqn:E.
  - destruct e; intros H; inversion H; subst; auto.
  - intros H. inversion H; subst. eapply mkdir_chain_exact; eauto.
Qed.

Lemma writeFile_exact p data fs fs' r :
  writeFile p data fs = (fs', r) ->
  forall q n, Fs.find q fs = Some n -> q <> p -> Fs.find q fs' = Some n.
Proof.
  unfold writeFile, Fs.writeFile. intros H q n Hq Hne.
  assert (Hadd : Fs.find q ((p, Fs.File (toWellFormed data)) :: fs) = Some n)
    by (cbn; now rewrite (str_eqb_neq Hne)).
  destruct (Fs.stat fs p) as [e|[d|]];
    destruct (Fs.stat fs (Path.dirname p)) as [e'|[d'|]];
    try destruct (endsWith [Path.slash] p);
    inversion H; subst; auto.
Qed.


Lemma writeFile_keeps_dirs p data fs fs' r :
  writeFile p data fs = (fs', r) -> preserves fs fs'.
Proof.
  intros H q. destruct (str_eqb q p) eqn:Eq.
  - apply str_eqb_eq in Eq. subst q.
    unfold writeFile, Fs.writeFile in H. unfold Fs.stat in H at 1.
    split.
    + intros Hq.
      assert (Hadd : Fs.find p ((p, Fs.File (toWellFormed data)) :: fs)
                     <> None)
        by (cbn; rewrite str_eqb_refl; discriminate).
      destruct (Fs.is_root p); [inversion H; subst; exact Hq|].
      destruct (Fs.find p fs) as [[d|]|] eqn:Ef;
        destruct (Fs.stat fs (Path.dirname p)) as [e'|[d'|]];
        try destruct (endsWith [Path.slash] p);
        inversion H; subst; auto; try congruence; rewrite Ef; discriminate.
    + intros Hq. rewrite Hq in H.
      destruct (Fs.is_root p); inversion H; subst; exact Hq.
  - assert (Hne : q <> p) by (intros ->; rewrite str_eqb_refl in Eq;
                              discriminate).
    split.
    + intros Hq. destruct (Fs.find q fs) as [n|] eqn:E; [|congruence].
      erewrite writeFile_exact; eauto.
    + intros Hq. eapply writeFile_exact; eauto.
Qed.

Lemma exact_preserves fs fs' :
  (forall q n, Fs.find q fs = Some n -> Fs.find q fs' = Some n) ->
  preserves fs fs'.
Proof.
  intros H q. split.
  - intros Hq. destruct (Fs.find q fs) as [n|] eqn:E; [|congruence].
    rewrite (H _ _ E). discriminate.
  - apply H.
Qed.

Lemma preserves_refl fs : preserves fs fs.
Proof. intros q. auto. Qed.

Lemma preserves_trans a b c : preserves a b -> preserves b c -> preserves a c.
Proof.
  intros H1 H2 q. destruct (H1 q) as [A1 B1], (H2 q) as [A2 B2]. auto.
Qed.

Lemma keeps_ret {A : Type} (a : A) : keeps (ret a).
Proof. intros fs fs' r H. inversion H. apply preserves_refl. Qed.

Lemma keeps_throw {A : Type} e : keeps (@throw A e).
Proof. intros fs fs' r H. inversion H. apply preserves_refl. Qed.

Lemma keeps_bind {A B : Type} (m : io A) (k : A -> io B) :
  keeps m -> (forall a, keeps (k a)) -> keeps (bind m k).
Proof.
  intros Hm Hk fs fs' r. unfold bind.
  destruct (m fs) as [fs1 [e|a]] eqn:E.
  - intros H. inversion H; subst. eapply Hm; eauto.
  - intros H. eapply preserves_trans; [eapply Hm; eauto|eapply Hk; eauto].
Qed.

Lemma keeps_try_catch {A : Type} (m : io A) (h : error -> io A) :
  keeps m -> (forall e, keeps (h e)) -> keeps (try_catch m h).
Proof.
  intros Hm Hh fs fs' r. unfold try_catch.
  destruct (m fs) as [fs1 [e|a]] eqn:E.
  - intros H. eapply preserves_trans; [eapply Hm; eauto|eapply Hh; eauto].
  - intros H. inversion H; subst. eapply Hm; eauto.
Qed.

Lemma keeps_ensureDirectory d : keeps (ensureDirectory d).
Proof.
  intros fs fs' r H. apply exact_preserves.
  eapply ensureDirectory_exact; eauto.
Qed.

Lemma keeps_writeFile p data : keeps (writeFile p data).
Proof. intros fs fs' r H. eapply writeFile_keeps_dirs; eauto. Qed.

Lemma keeps_stat p : keeps (stat p).
Proof.
  intros fs fs' r. unfold stat. destruct (Fs.stat fs p);
    intros H; inversion H; apply preserves_refl.
Qed.

Lemma keeps_writeLoop folder : forall parsed created,
  keeps (writeLoop folder parsed created).
Proof.
  induction parsed as [|f parsed IH]; intros created; cbn [writeLoop].
  - apply keeps_ret.
  - apply keeps_bind.
    + destruct (negb _); [apply keeps_ensureDirectory|apply keeps_ret].
    + intros _. apply keeps_bind.
      * apply keeps_try_catch; [apply keeps_writeFile|].
        intros e. apply keeps_throw.
      * intros _. apply IH.
Qed.

Lemma keeps_writeFilesToFolder folder parsed :
  keeps (writeFilesToFolder folder parsed).
Proof.
  apply keeps_bind; [apply keeps_writeLoop|intros; apply keeps_ret].
Qed.

Lemma keeps_writeFiles basePath now task codeMarkdown :
  keeps (writeFiles basePath now task codeMarkdown).
Proof.
  unfold writeFiles. destruct (Nat.eqb _ 0); [apply keeps_throw|].
  apply keeps_bind.
  - apply keeps_try_catch.
    + apply keeps_bind; [apply keeps_stat|].
      intros [data|]; [apply keeps_ret|].
      apply keeps_bind; [apply keeps_ensureDirectory|]. intros _.
      apply keeps_bind; [apply keeps_writeFilesToFolder|].
      intros; apply keeps_ret.
    + intros e. apply keeps_bind; [apply keeps_ensureDirectory|].
      intros; apply keeps_ret.
  - intros [w|]; [apply keeps_ret|apply keeps_writeFilesToFolder].
Qed.

(** *** Reading back what was written *)










(** *** Whom a failure blames *)

Lemma blames_incl p1 p2 e : incl p1 p2 -> blames p1 e -> blames p2 e.
Proof. intros Hi. destruct e; cbn; auto. Qed.

Lemma blaming_ret {A : Type} paths (a : A) : raises_blaming paths (ret a).
Proof. intros fs fs' e H. discriminate. Qed.

Lemma blaming_bind {A B : Type} paths (m : io A) (k : A -> io B) :
  raises_blaming paths m -> (forall a, raises_blaming paths (k a)) ->
  raises_blaming paths (bind m k).
Proof.
  intros Hm Hk fs fs' e H. apply bind_err in H.
  destruct H as [H|(fs1 & a & _ & H)]; [eapply Hm|eapply Hk]; eauto.
Qed.

Lemma blaming_try_catch {A : Type} paths (m : io A) (h : error -> io A) :
  (forall e, raises_blaming paths (h e)) ->
  raises_blaming paths (try_catch m h).
Proof.
  intros Hh fs fs' e. unfold try_catch.
  destruct (m fs) as [fs1 [e1|a]]; [|discriminate].
  intros H. eapply Hh; eauto.
Qed.

Lemma blaming_ensureDirectory paths d :
  raises_blaming paths (ensureDirectory d).
Proof.
  intros fs fs' e. unfold ensureDirectory.
  destruct (Fs.mkdir_recursive fs d) as [[]|]; intros H;
    inversion H; subst; exact I.
Qed.

Lemma blaming_weaken {A : Type} p1 p2 (m : io A) :
  incl p1 p2 -> raises_blaming p1 m -> raises_blaming p2 m.
Proof. intros Hi Hm fs fs' e H. eapply blames_incl; eauto. Qed.

Lemma blaming_writeLoop folder : forall parsed created,
  raises_blaming (List.map filePath parsed) (writeLoop folder parsed created).
Proof.
  induction parsed as [|f parsed IH]; intros created; cbn [writeLoop].
  - apply blaming_ret.
  - apply blaming_bind.
    + destruct (negb _); [apply blaming_ensureDirectory|apply blaming_ret].
    + intros _. apply blaming_bind.
      * apply blaming_try_catch. intros e0 fs0 fs1 e1 H.
        inversion H; subst. cbn. now left.
      * intros _. eapply blaming_weaken; [|apply IH].
        intros x Hx. now right.
Qed.

Lemma blaming_writeFilesToFolder folder parsed :
  raises_blaming (List.map filePath parsed) (writeFilesToFolder folder parsed).
Proof.
  apply blaming_bind; [apply blaming_writeLoop|intros; apply blaming_ret].
Qed.

Lemma blaming_writeFiles basePath now task codeMarkdown fs fs' e :
  parseCodeFiles codeMarkdown <> [] ->
  writeFiles basePath now task codeMarkdown fs = (fs', inl e) ->
  blames (List.map filePath (parseCodeFiles codeMarkdown)) e.
Proof.
  intros Hne. unfold writeFiles.
  destruct (parseCodeFiles codeMarkdown) as [|f parsed] eqn:E;
    [congruence|]. cbn [List.length Nat.eqb].
  revert fs fs' e.
  match goal with |- forall fs fs' e, ?m fs = _ -> _ =>
    change (raises_blaming (List.map filePath (f :: parsed)) m)
  end.
  apply blaming_bind.
  - apply blaming_try_catch. intros e0. apply blaming_bind;
      [apply blaming_ensureDirectory|intros; apply blaming_ret].
  - intros [w|]; [apply blaming_ret|apply blaming_writeFilesToFolder].
Qed.

(** *** The first instruction *)

Lemma generateRunInstructions_head cwd folder fs :
  exists rest,
    generateRunInstructions cwd folder fs
    = (lit "1. cd " ++ Path.resolve cwd folder) :: rest /\
    1 <= List.length rest <= 2.
Proof.
  unfold generateRunInstructions.
  destruct (Fs.readdir fs folder) as [e|entries].
  - eexists. split; [reflexivity|cbn; lia].
  - repeat match goal with
           | |- context [if ?b then _ else _] => destruct b
           | |- context [match List.find ?f ?l with _ => _ end] =>
               destruct (List.find f l)
           end; eexists; split; try reflexivity; cbn; lia.
Qed.

(** *** Paths made of plain segments *)

Lemma plainSeg_spec seg :
  plainSeg seg = true ->
  truthy seg = true /\ any_in Path.slash seg = false /\
  str_eqb seg (lit ".") = false /\ str_eqb seg (lit "..") = false.
Proof.
  unfold plainSeg. intros H.
  repeat (apply andb_true_iff in H; destruct H as [H ?]).
  repeat split; try (now apply negb_true_iff); assumption.
Qed.

Lemma any_in_cons x c s :
  any_in x (c :: s) = false -> N.eqb c x = false /\ any_in x s = false.
Proof.
  unfold any_in. cbn [existsb]. intros H. apply orb_false_iff in H.
  destruct H as [Hc H]. rewrite N.eqb_sym in Hc. auto.
Qed.

Lemma split_aux_plain : forall seg cur,
  any_in Path.slash seg = false ->
  Path.split_aux seg cur = [rev cur ++ seg].
Proof.
  induction seg as [|c seg IH]; intros cur H; cbn [Path.split_aux].
  - now rewrite app_nil_r.
  - apply any_in_cons in H. destruct H as [Hc H].
    rewrite Hc. rewrite IH by exact H.
    cbn [rev]. now rewrite <- app_assoc.
Qed.

Lemma split_aux_sep : forall seg rest cur,
  any_in Path.slash seg = false ->
  Path.split_aux (seg ++ Path.slash :: rest) cur
  = (rev cur ++ seg) :: Path.split_aux rest [].
Proof.
  induction seg as [|c seg IH]; intros rest cur H;
    cbn [Path.split_aux app].
  - rewrite N.eqb_refl. now rewrite app_nil_r.
  - apply any_in_cons in H. destruct H as [Hc H].
    rewrite Hc. rewrite IH by exact H.
    cbn [rev]. now rewrite <- app_assoc.
Qed.

Lemma split_join_segments : forall segs,
  segs <> [] ->
  Forall (fun seg => any_in Path.slash seg = false) segs ->
  Path.split (Path.join_segments segs) = segs.
Proof.
  unfold Path.split. induction segs as [|a segs IH]; intros Hne H;
    [congruence|].
  apply Forall_cons_iff in H. destruct H as [Ha H].
  destruct segs as [|b segs].
  - cbn [Path.join_segments]. now rewrite split_aux_plain.
  - change (Path.join_segments (a :: b :: segs))
      with (a ++ [Path.slash] ++ Path.join_segments (b :: segs)).
    cbn [app]. rewrite split_aux_sep by exact Ha. cbn [rev app].
    f_equal. apply IH; [discriminate|exact H].
Qed.

Lemma normalize_segments_plain allow : forall segs acc,
  Forall (fun seg => plainSeg seg = true) segs ->
  Path.normalize_segments allow segs acc = rev acc ++ segs.
Proof.
  induction segs as [|seg segs IH]; intros acc H; cbn [Path.normalize_segments].
  - now rewrite app_nil_r.
  - apply Forall_cons_iff in H. destruct H as [Hs H].
    apply plainSeg_spec in Hs. destruct Hs as (Ht & _ & Hd & Hdd).
    assert (He : str_eqb seg [] = false) by (destruct seg; [discriminate|reflexivity]).
    rewrite He, Hd, Hdd. cbn [orb]. rewrite IH by exact H.
    cbn [rev]. now rewrite <- app_assoc.
Qed.

Lemma join_segments_app : forall a b,
  a <> [] -> b <> [] ->
  Path.join_segments (a ++ b)
  = Path.join_segments a ++ Path.slash :: Path.join_segments b.
Proof.
  induction a as [|x a IH]; intros b Ha Hb; [congruence|].
  destruct a as [|y a].
  - cbn [app]. destruct b as [|z b]; [congruence|]. reflexivity.
  - change ((x :: y :: a) ++ b) with (x :: (y :: a) ++ b).
    change (Path.join_segments (x :: (y :: a) ++ b))
      with (x ++ [Path.slash] ++ Path.join_segments ((y :: a) ++ b)).
    rewrite IH by (auto; discriminate).
    change (Path.join_segments (x :: y :: a))
      with (x ++ [Path.slash] ++ Path.join_segments (y :: a)).
    cbn [app]. rewrite <- !app_assoc. reflexivity.
Qed.

Lemma join_segments_truthy segs :
  segs <> [] -> Forall (fun seg => plainSeg seg = true) segs ->
  truthy (Path.join_segments segs) = true.
Proof.
  intros Hne H. destruct segs as [|a segs]; [congruence|].
  apply Forall_cons_iff in H. destruct H as [Ha _].
  apply plainSeg_spec in Ha. destruct Ha as (Ht & _).
  destruct a; [discriminate|]. destruct segs; reflexivity.
Qed.

Lemma plain_no_slash segs :
  Forall (fun seg => plainSeg seg = true) segs ->
  Forall (fun seg => any_in Path.slash seg = false) segs.
Proof.
  apply Forall_impl. intros seg H. apply plainSeg_spec in H. apply H.
Qed.

Lemma last_no_slash : forall segs,
  segs <> [] ->
  Forall (fun seg => plainSeg seg = true) segs ->
  exists c r, rev (Path.join_segments segs) = c :: r /\
              N.eqb c Path.slash = false.
Proof.
  induction segs as [|a segs IH]; intros Hne H; [congruence|].
  apply Forall_cons_iff in H. destruct H as [Ha H].
  destruct segs as [|b segs].
  - cbn [Path.join_segments]. apply plainSeg_spec in Ha.
    destruct Ha as (Ht & Hs & _).
    destruct (rev a) as [|c r] eqn:E.
    + apply (f_equal (@rev N)) in E. rewrite rev_involutive in E.
      subst a. discriminate.
    + exists c, r. split; [reflexivity|].
      assert (Hin : In c a) by (apply in_rev; rewrite E; now left).
      unfold any_in in Hs.
      destruct (N.eqb c Path.slash) eqn:Ec; [|reflexivity].
      apply N.eqb_eq in Ec. subst c.
      assert (existsb (N.eqb Path.slash) a = true)
        by (apply existsb_exists; exists Path.slash; split;
            [exact Hin|apply N.eqb_refl]).
      congruence.
  - destruct (IH ltac:(discriminate) H) as (c & r & E & Hc).
    change (Path.join_segments (a :: b :: segs))
      with (a ++ [Path.slash] ++ Path.join_segments (b :: segs)).
    rewrite !rev_app_distr, E. cbn [app]. eauto.
Qed.

(** Joining an absolute path of plain segments with a relative path of
    plain segments appends the segments. *)
Lemma join_plain segs rsegs :
  Forall (fun seg => plainSeg seg = true) segs ->
  Forall (fun seg => plainSeg seg = true) rsegs ->
  rsegs <> [] ->
  Path.join [absPath segs; Path.join_segments rsegs]
  = absPath (segs ++ rsegs).
Proof.
  intros Hs Hr Hne. unfold Path.join, absPath.
  cbn [filter truthy]. rewrite (join_segments_truthy Hne Hr).
  cbn [Path.join_segments app].
  assert (Hall : Forall (fun seg => plainSeg seg = true) (segs ++ rsegs))
    by (apply Forall_app; auto).
  assert (Hnn : segs ++ rsegs <> [])
    by (destruct segs; [exact Hne|discriminate]).
  unfold Path.normalize. rewrite N.eqb_refl. cbn [negb].
  (* the split of the joined text *)
  assert (Hsplit :
    Path.normalize_segments false
      (Path.split (Path.slash :: Path.join_segments segs ++ Path.slash
                   :: Path.join_segments rsegs)) []
    = segs ++ rsegs).
  { unfold Path.split. cbn [Path.split_aux]. rewrite N.eqb_refl.
    cbn [rev]. cbn [Path.normalize_segments str_eqb orb].
    destruct segs as [|a segs'].
    - cbn [Path.join_segments app Path.split_aux]. rewrite N.eqb_refl.
      cbn [rev Path.normalize_segments str_eqb orb].
      fold (Path.split (Path.join_segments rsegs)).
      rewrite split_join_segments by (auto using plain_no_slash).
      now rewrite normalize_segments_plain.
    - rewrite <- join_segments_app by (auto; discriminate).
      fold (Path.split (Path.join_segments ((a :: segs') ++ rsegs))).
      rewrite split_join_segments by (auto using plain_no_slash).
      now rewrite normalize_segments_plain. }
  rewrite Hsplit.
  (* no trailing separator *)
  destruct (last_no_slash Hne Hr) as (c & r & Er & Hc).
  cbn [rev]. rewrite !rev_app_distr. cbn [rev app].
  rewrite Er. cbn [app]. rewrite Hc.
  pose proof (join_segments_truthy Hnn Hall) as Ht.
  destruct (Path.join_segments (segs ++ rsegs)); [discriminate|reflexivity].
Qed.

Lemma dirname_scan_plain : forall name r flag,
  any_in Path.slash name = false -> name <> [] ->
  Path.dirname_scan (name ++ Path.slash :: r) flag = Some (S (List.length r)).
Proof.
  induction name as [|c name IH]; intros r flag H Hne; [congruence|].
  apply any_in_cons in H. destruct H as [Hc H].
  cbn [app Path.dirname_scan]. rewrite Hc.
  destruct name as [|d name].
  - cbn [app Path.dirname_scan]. now rewrite N.eqb_refl.
  - apply IH; [exact H|discriminate].
Qed.

Lemma dirname_scan_none : forall name flag,
  any_in Path.slash name = false -> Path.dirname_scan name flag = None.
Proof.
  induction name as [|c name IH]; intros flag H; [reflexivity|].
  apply any_in_cons in H. destruct H as [Hc H].
  cbn [Path.dirname_scan]. rewrite Hc. now apply IH.
Qed.

Lemma any_in_rev c s : any_in c (rev s) = any_in c s.
Proof.
  unfold any_in. destruct (existsb (N.eqb c) s) eqn:E.
  - apply existsb_exists in E. destruct E as (x & Hx & Ex).
    apply existsb_exists. exists x. split; [now apply -> in_rev|exact Ex].
  - destruct (existsb (N.eqb c) (rev s)) eqn:E'; [|reflexivity].
    apply existsb_exists in E'. destruct E' as (x & Hx & Ex).
    assert (existsb (N.eqb c) s = true)
      by (apply existsb_exists; exists x; split;
          [now apply in_rev|exact Ex]).
    congruence.
Qed.

(** The directory of an absolute path of plain segments is the path of
    all segments but the last. *)
Lemma dirname_plain segs name :
  Forall (fun seg => plainSeg seg = true) segs ->
  plainSeg name = true ->
  Path.dirname (absPath (segs ++ [name])) = absPath segs.
Proof.
  intros Hs Hn. unfold absPath, Path.dirname. rewrite N.eqb_refl.
  apply plainSeg_spec in Hn. destruct Hn as (Ht & Hsl & _).
  assert (Hrn : any_in Path.slash (rev name) = false)
    by now rewrite any_in_rev.
  assert (Hrne : rev name <> []).
  { intros E. apply (f_equal (@rev N)) in E. rewrite rev_involutive in E.
    subst name. discriminate. }
  destruct segs as [|a segs'].
  - cbn [app Path.join_segments]. rewrite dirname_scan_none by exact Hrn.
    reflexivity.
  - rewrite join_segments_app by discriminate.
    change (Path.join_segments [name]) with name.
    pose proof (join_segments_truthy (segs := a :: segs')
                  ltac:(discriminate) Hs) as Htr.
    destruct (Path.join_segments (a :: segs')) as [|x xs] eqn:E;
      [discriminate|].
    rewrite rev_app_distr. cbn [rev app].
    rewrite <- !app_assoc. cbn [app].
    rewrite dirname_scan_plain by assumption.
    rewrite length_app, length_rev.
    replace (Nat.eqb (S (List.length xs + List.length [x])) 1) with false
      by (symmetry; apply Nat.eqb_neq; cbn; lia).
    cbn [andb firstn]. f_equal.
    replace (List.length xs + List.length [x])
      with (List.length (x :: xs) + 0) by (cbn; lia).
    change (x :: xs ++ Path.slash :: name)
      with ((x :: xs) ++ Path.slash :: name).
    rewrite firstn_app_2. cbn [firstn]. now rewrite app_nil_r.
Qed.

(** *** Names that are plain segments *)

Lemma any_in_app c a b : any_in c (a ++ b) = any_in c a || any_in c b.
Proof. unfold any_in. apply existsb_app. Qed.

Lemma any_in_false c s :
  Forall (fun x => N.eqb x c = false) s -> any_in c s = false.
Proof.
  induction 1 as [|x s Hx Hs IH]; [reflexivity|].
  unfold any_in in *. cbn [existsb]. rewrite N.eqb_sym, Hx. exact IH.
Qed.

Lemma nameChar_not c x :
  nameChar x = false -> nameChar c = true -> N.eqb c x = false.
Proof.
  intros Hx Hc. destruct (N.eqb c x) eqn:E; [|reflexivity].
  apply N.eqb_eq in E. subst. congruence.
Qed.

Lemma nameChars_plain s :
  truthy s = true -> Forall (fun c => nameChar c = true) s ->
  plainSeg s = true.
Proof.
  intros Ht H. unfold plainSeg. rewrite Ht.
  assert (Hs : any_in Path.slash s = false).
  { apply any_in_false. eapply Forall_impl; [|exact H].
    intros c Hc. now apply (@nameChar_not c Path.slash). }
  rewrite Hs. destruct s as [|c s]; [discriminate|].
  apply Forall_cons_iff in H. destruct H as [Hc _].
  assert (Hd : N.eqb c 46 = false)
    by now apply (@nameChar_not c 46%N).
  cbn -[N.eqb]. rewrite Hd. reflexivity.
Qed.

Lemma digits_of_uint d :
  Forall (fun c => is_digit c = true)
         (lit (DecimalString.NilZero.string_of_uint d)).
Proof.
  assert (H : forall d,
    Forall (fun c => is_digit c = true)
           (lit (DecimalString.NilEmpty.string_of_uint d))).
  { induction d0; cbn; constructor; auto. }
  destruct d; cbn; try (constructor; [reflexivity|]); try apply H.
  repeat constructor.
Qed.

Lemma ofNat_digits n : Forall (fun c => is_digit c = true) (ofNat n).
Proof. apply digits_of_uint. Qed.

Lemma digit_nameChar c : is_digit c = true -> nameChar c = true.
Proof.
  unfold nameChar. intros ->. now rewrite !orb_true_r.
Qed.

Lemma sanitize_plain task : plainSeg (sanitizeFolderName task) = true.
Proof.
  apply nameChars_plain; [apply sanitize_truthy|].
  eapply Forall_impl; [|apply sanitize_clean]. apply clean_nameChar.
Qed.

Lemma stamped_plain task now :
  plainSeg (sanitizeFolderName task ++ lit "_" ++ ofNat now) = true.
Proof.
  apply nameChars_plain.
  - pose proof (sanitize_truthy task) as H.
    destruct (sanitizeFolderName task); [discriminate|reflexivity].
  - apply Forall_app. split.
    + eapply Forall_impl; [|apply sanitize_clean]. apply clean_nameChar.
    + apply Forall_app. split; [repeat constructor|].
      eapply Forall_impl; [|apply ofNat_digits]. apply digit_nameChar.
Qed.

Lemma child_of_base segs name :
  Forall (fun seg => plainSeg seg = true) segs ->
  plainSeg name = true ->
  Path.join [absPath segs; name] = absPath (segs ++ [name]) /\
  Path.dirname (Path.join [absPath segs; name]) = absPath segs.
Proof.
  intros Hs Hn.
  assert (E : Path.join [absPath segs; name] = absPath (segs ++ [name])).
  { change name with (Path.join_segments [name]) at 1.
    apply join_plain; auto. discriminate. }
  split; [exact E|]. rewrite E. now apply dirname_plain.
Qed.

(** *** Extensions *)

Lemma property_In key : forall obj v,
  property key obj = Some v -> In v (List.map snd obj).
Proof.
  induction obj as [|[k x] obj IH]; intros v H; cbn in H; [discriminate|].
  destruct (str_eqb key k).
  - inversion H; subst. now left.
  - right. now apply IH.
Qed.

Lemma getExtension_no_slash language :
  any_in Path.slash (getExtensionFromLanguage language) = false /\
  truthy (getExtensionFromLanguage language) = true.
Proof.
  unfold getExtensionFromLanguage.
  destruct (property _ _) as [ext|] eqn:E; [|split; reflexivity].
  apply property_In in E.
  assert (Hall : Forall (fun v => any_in Path.slash v = false /\
                                  truthy v = true)
                        (List.map snd (languageMap ++ inheritedProperties))).
  { eval_list. repeat constructor. }
  rewrite Forall_forall in Hall. destruct (Hall _ E) as [H1 H2].
  rewrite H2. auto.
Qed.

Lemma inferExtension_range content :
  In (inferExtensionFromContent content)
     [lit ".html"; lit ".css"; lit ".js"; lit ".py"; lit ".java"; lit ".php"].
Proof.
  unfold inferExtensionFromContent.
  repeat match goal with
         | |- context [if ?b then _ else _] => destruct b
         end; cbn; tauto.
Qed.

Lemma inferExtension_no_slash content :
  any_in Path.slash (inferExtensionFromContent content) = false.
Proof.
  pose proof (inferExtension_range content) as H. cbn in H.
  repeat (destruct H as [<-|H]; [reflexivity|]). destruct H.
Qed.

Lemma sequentialName_plain i ext :
  any_in Path.slash ext = false ->
  plainSeg (sequentialName i ++ ext) = true.
Proof.
  intros He. unfold plainSeg.
  assert (Hs : any_in Path.slash (sequentialName i ++ ext) = false).
  { rewrite any_in_app, He, orb_false_r. destruct i as [|i]; [reflexivity|].
    cbn [sequentialName]. rewrite any_in_app. cbn [orb].
    change (any_in Path.slash (lit "file")) with false. cbn [orb].
    apply any_in_false. eapply Forall_impl; [|apply ofNat_digits].
    intros c Hc. apply (@nameChar_not c Path.slash);
      [reflexivity|now apply digit_nameChar]. }
  rewrite Hs. destruct i; reflexivity.
Qed.

Lemma resolvePath_position_plain idx language actualContent :
  truthy (trim actualContent) = true ->
  commentPath commentPatterns actualContent = [] ->
  plainSeg (resolvePath idx language [] actualContent) = true.
Proof.
  intros Hb Hc. rewrite resolvePath_by_position by assumption.
  apply sequentialName_plain.
  destruct (truthy language);
    [apply getExtension_no_slash|apply inferExtension_no_slash].
Qed.

(** *** Fences in a model reply *)

Import Agents.

Lemma eqb_succ_self n : Nat.eqb (S n) n = false.
Proof. apply Nat.eqb_neq. lia. Qed.

Lemma fence_match bef aft :
  match_here false (body fence) bef aft = fenceAt bef aft.
Proof.
  unfold match_here, fence, body, fenceAt.
  destruct aft as [|a [|b [|c r3]]]; cbn -[N.eqb]; unfold one.
  - reflexivity.
  - destruct (N.eqb 96 a); reflexivity.
  - destruct (N.eqb 96 a); [|reflexivity]. cbn -[N.eqb].
    destruct (N.eqb 96 b); reflexivity.
  - destruct (N.eqb 96 a); [|reflexivity]. cbn -[N.eqb].
    destruct (N.eqb 96 b); [|reflexivity]. cbn -[N.eqb].
    destruct (N.eqb 96 c); [|reflexivity]. cbn -[N.eqb].
    destruct r3 as [|d r4]; cbn -[N.eqb]; [reflexivity|].
    unfold LF. destruct (N.eqb 10 d); [|reflexivity].
    cbn -[N.eqb].
    destruct (List.length bef) as [|n] eqn:E; [reflexivity|].
    rewrite eqb_succ_self. reflexivity.
Qed.

Lemma fenceAt_none bef aft :
  fenceAt bef aft = None <-> startsWith (lit "```") aft = false.
Proof.
  unfold fenceAt. destruct aft as [|a [|b [|c r3]]]; cbn -[N.eqb].
  - tauto.
  - destruct (N.eqb 96 a); cbn; tauto.
  - destruct (N.eqb 96 a), (N.eqb 96 b); cbn; tauto.
  - destruct (N.eqb 96 a), (N.eqb 96 b), (N.eqb 96 c); cbn -[N.eqb];
      try tauto.
    destruct r3 as [|d r4]; [|destruct (N.eqb 10 d)];
      split; intros H; discriminate.
Qed.

Lemma fenceAt_some bef aft y :
  fenceAt bef aft = Some y ->
  List.length bef < pos y /\
  List.length (after y) < List.length aft /\
  exists n, n <= List.length aft /\
            after y = skipn n aft /\ pos y = List.length bef + n.
Proof.
  unfold fenceAt, pos. destruct aft as [|a [|b [|c r3]]]; try discriminate.
  destruct (N.eqb 96 a && N.eqb 96 b && N.eqb 96 c); [|discriminate].
  destruct r3 as [|d r4]; [|destruct (N.eqb 10 d)];
    intros H; inversion H; subst y; cbn [before after List.length];
    (split; [lia|split; [lia|]]).
  - exists 3. split; [cbn; lia|split; [reflexivity|lia]].
  - exists 4. split; [cbn; lia|split; [reflexivity|lia]].
  - exists 3. split; [cbn; lia|split; [reflexivity|lia]].
Qed.

Lemma dropFences_step a r1 bef :
  dropFences (a :: r1)
  = match fenceAt bef (a :: r1) with
    | Some y => dropFences (after y)
    | None => a :: dropFences r1
    end.
Proof.
  unfold fenceAt. destruct r1 as [|b [|c r3]]; try reflexivity.
  cbn -[N.eqb].
  destruct (N.eqb 96 a && N.eqb 96 b && N.eqb 96 c); [|reflexivity].
  destruct r3 as [|d r4]; [reflexivity|].
  destruct (N.eqb 10 d); reflexivity.
Qed.

Lemma replace_loop_fence s : forall fuel li,
  li <= List.length s -> List.length s - li < fuel ->
  replace_loop fuel fence [] s li li = dropFences (skipn li s).
Proof.
  induction fuel as [|fuel IH]; intros li Hli Hf; [lia|].
  assert (Hm : match_at fence s li
               = fenceAt (rev (firstn li s)) (skipn li s))
    by (unfold match_at; apply fence_match).
  destruct (Nat.eq_dec li (List.length s)) as [El|Nl].
  - assert (Es : skipn li s = []) by (apply skipn_all2; lia).
    cbn [replace_loop].
    replace (Nat.ltb (List.length s) li) with false
      by (symmetry; apply Nat.ltb_ge; lia).
    unfold exec_from. rewrite Es. cbn [search].
    rewrite fence_match. reflexivity.
  - assert (Hlt : li < List.length s) by lia.
    destruct (fenceAt (rev (firstn li s)) (skipn li s)) as [y|] eqn:Ef.
    + rewrite (@replace_loop_here fence [] s fuel li y Hli Hm).
      cbn [flag_g fence app].
      destruct (fenceAt_some _ _ Ef) as (Hp & Hl & n & Hle & Ea & Ep).
      rewrite length_rev, length_firstn in Hp, Ep.
      replace (Nat.min li (List.length s)) with li in Hp, Ep by lia.
      rewrite length_skipn in Hl, Hle.
      assert (Hn : List.length (after y) = List.length s - pos y).
      { rewrite Ea, skipn_skipn, length_skipn. lia. }
      replace (Nat.eqb (pos y) li) with false
        by (symmetry; apply Nat.eqb_neq; lia).
      rewrite IH by lia.
      destruct (skipn li s) as [|c r1] eqn:Es; [discriminate|].
      rewrite (dropFences_step c r1 (rev (firstn li s))), Ef.
      f_equal. rewrite Ea, <- Es, skipn_skipn. f_equal. lia.
    + destruct (@replace_loop_skip fence [] s fuel li Hlt)
        as (c & Es & Er); [rewrite Hm; reflexivity|].
      rewrite Er, Es.
      rewrite (dropFences_step c (skipn (S li) s) (rev (firstn li s))).
      rewrite <- Es, Ef. f_equal.
      rewrite (@replace_loop_fuel fence [] s (S fuel) fuel (S li) (S li))
        by lia.
      apply IH; lia.
Qed.

(** Removing every fence with the regular expression is the
    left-to-right scan [dropFences]. *)
Lemma replace_fence s : replace fence [] s = dropFences s.
Proof. unfold replace. rewrite replace_loop_fence by lia. reflexivity. Qed.

Lemma startsWith_repeat_mono (c : N) s : forall k1 k2,
  k1 <= k2 -> startsWith (repeat c k1) s = false ->
  startsWith (repeat c k2) s = false.
Proof.
  induction s as [|a s IH]; intros k1 k2 Hk H.
  - destruct k1; [discriminate|]. destruct k2; [lia|reflexivity].
  - destruct k1 as [|k1]; [discriminate|]. destruct k2 as [|k2]; [lia|].
    cbn -[N.eqb] in H |- *. destruct (N.eqb c a); [|reflexivity].
    cbn in H |- *. apply (IH k1 k2); [lia|exact H].
Qed.

Lemma dropFences_head : forall k r,
  k <= 3 -> startsWith (repeat 96%N k) r = false ->
  startsWith (repeat 96%N k) (dropFences r) = false.
Proof.
  induction k as [|k IH]; intros r Hk H; [discriminate|].
  destruct r as [|b r2]; [reflexivity|].
  assert (Hf : fenceAt [] (b :: r2) = None).
  { apply fenceAt_none.
    apply (@startsWith_repeat_mono 96%N (b :: r2) (S k) 3 Hk H). }
  rewrite (dropFences_step b r2 []), Hf.
  cbn -[N.eqb] in H |- *. destruct (N.eqb 96 b); [|reflexivity].
  cbn in H |- *. apply IH; [lia|exact H].
Qed.

Lemma dropFences_clean_bounded : forall n s,
  List.length s <= n -> includes (lit "```") (dropFences s) = false.
Proof.
  induction n as [|n IH]; intros s Hn.
  - destruct s; [reflexivity|cbn in Hn; lia].
  - destruct s as [|a r1]; [reflexivity|].
    pose proof (dropFences_step a r1 []) as Hs.
    destruct (fenceAt [] (a :: r1)) as [y|] eqn:Ef.
    + rewrite Hs. apply IH.
      destruct (fenceAt_some _ _ Ef) as (_ & Hl & _). cbn in Hn, Hl. lia.
    + assert (Hh : startsWith (lit "```") (dropFences (a :: r1)) = false).
      { apply (@dropFences_head 3 (a :: r1)); [lia|].
        apply fenceAt_none in Ef. exact Ef. }
      rewrite Hs in Hh |- *. cbn [includes]. rewrite Hh. cbn [orb].
      apply IH. cbn in Hn. lia.
Qed.

Lemma dropFences_clean s : includes (lit "```") (dropFences s) = false.
Proof. apply (@dropFences_clean_bounded (List.length s)). lia. Qed.

(** *** A reply wrapped in one fence *)

Lemma startsWith_prefix l r : startsWith l (l ++ r) = true.
Proof.
  induction l as [|c l IH]; [reflexivity|].
  cbn -[N.eqb]. rewrite N.eqb_refl. exact IH.
Qed.

Lemma startsWith_shorter l1 l2 s :
  startsWith l1 s = false -> startsWith (l1 ++ l2) s = false.
Proof.
  revert s. induction l1 as [|c l1 IH]; intros s H; [discriminate|].
  destruct s as [|a s]; [reflexivity|]. cbn -[N.eqb] in H |- *.
  destruct (N.eqb c a); [|reflexivity]. cbn in H |- *. now apply IH.
Qed.

Lemma match_lit_prefix ml l r bef aft y :
  match_here ml (Seq (Lit l) r) bef aft = Some y ->
  startsWith l aft = true.
Proof.
  unfold match_here. intros H. apply matcher_seq_sound in H.
  destruct H as (w & x & D & [A _] & _). cbn [after] in A.
  apply derives_Lit in D. subst w. rewrite A. apply startsWith_prefix.
Qed.

Lemma exec_from_none_intro p s : forall n li,
  List.length s - li <= n -> li <= List.length s ->
  (forall j, li <= j -> match_at p s j = None) ->
  exec_from p s li = None.
Proof.
  induction n as [|n IH]; intros li Hn Hli H.
  - pose proof (H li (Nat.le_refl li)) as Hm.
    unfold exec_from, match_at in *.
    rewrite skipn_all2 in Hm |- * by lia. cbn [search]. rewrite Hm.
    reflexivity.
  - destruct (Nat.eq_dec li (List.length s)) as [E|E].
    + apply (IH li); [lia|lia|exact H].
    + rewrite exec_from_skip; [|lia|apply H; lia].
      apply IH; [lia|lia|]. intros j Hj. apply H. lia.
Qed.

(** A global replacement whose pattern matches at the start and nowhere
    after that match removes just this match. *)
Lemma replace_once p by_ s y :
  flag_g p = true ->
  match_at p s 0 = Some y -> 0 < pos y -> pos y <= List.length s ->
  (forall j, pos y <= j -> match_at p s j = None) ->
  replace p by_ s = by_ ++ skipn (pos y) s.
Proof.
  intros Hg Hm Hp Hl Hn. unfold replace.
  rewrite (@replace_loop_here p by_ s (List.length s) 0 y (Nat.le_0_l _) Hm).
  rewrite Hg. f_equal.
  replace (Nat.eqb (pos y) 0) with false
    by (symmetry; apply Nat.eqb_neq; lia).
  destruct (List.length s) as [|f] eqn:El; [reflexivity|].
  cbn [replace_loop]. rewrite El.
  replace (Nat.ltb (S f) (pos y)) with false
    by (symmetry; apply Nat.ltb_ge; lia).
  rewrite (@exec_from_none_intro p s (List.length s) (pos y));
    [reflexivity|lia|lia|exact Hn].
Qed.

Lemma includes_skipn needle s :
  includes needle s = false ->
  forall j, startsWith needle (skipn j s) = false.
Proof.
  induction s as [|a s IH]; intros H j.
  - cbn in H. apply orb_false_iff in H. destruct j; apply H.
  - cbn [includes] in H. apply orb_false_iff in H. destruct H as [H1 H2].
    destruct j as [|j]; [exact H1|]. cbn [skipn]. now apply IH.
Qed.

Lemma startsWith_fence_app_lf x y :
  startsWith (lit "```") x = false ->
  startsWith (lit "```") (x ++ LF :: y) = false.
Proof.
  destruct x as [|a [|b [|c x]]]; cbn -[N.eqb]; intros H.
  - reflexivity.
  - destruct (N.eqb 96 a); reflexivity.
  - destruct (N.eqb 96 a); [|reflexivity].
    destruct (N.eqb 96 b); reflexivity.
  - exact H.
Qed.

Lemma no_json_fence body :
  includes (lit "```") body = false ->
  includes (lit "```json") (body ++ LF :: lit "```") = false.
Proof.
  induction body as [|a body IH]; intros H; [reflexivity|].
  cbn [includes] in H. apply orb_false_iff in H. destruct H as [H1 H2].
  change ((a :: body) ++ LF :: lit "```")
    with (a :: (body ++ LF :: lit "```")).
  cbn [includes]. rewrite (IH H2), orb_false_r.
  apply (@startsWith_shorter (lit "```") (lit "json")).
  apply (@startsWith_fence_app_lf (a :: body) (lit "```") H1).
Qed.

Lemma dropFences_body body :
  includes (lit "```") body = false ->
  dropFences (body ++ LF :: lit "```") = body ++ [LF].
Proof.
  induction body as [|a body IH]; intros H; [reflexivity|].
  cbn [includes] in H. apply orb_false_iff in H. destruct H as [H1 H2].
  change ((a :: body) ++ LF :: lit "```")
    with (a :: (body ++ LF :: lit "```")).
  rewrite (dropFences_step a (body ++ LF :: lit "```") []).
  assert (Hf : fenceAt [] (a :: body ++ LF :: lit "```") = None).
  { apply fenceAt_none.
    apply (@startsWith_fence_app_lf (a :: body) (lit "```") H1). }
  rewrite Hf, (IH H2). reflexivity.
Qed.

Lemma replace_jsonFence_wrapped body :
  includes (lit "```") body = false ->
  replace jsonFence [] (lit "```json" ++ LF :: body ++ LF :: lit "```")
  = body ++ LF :: lit "```".
Proof.
  intros H.
  set (s := lit "```json" ++ LF :: body ++ LF :: lit "```").
  assert (Hm : match_at jsonFence s 0
               = Some (MState (rev (lit "```json" ++ [LF]))
                              (body ++ LF :: lit "```") []))
    by reflexivity.
  rewrite (@replace_once jsonFence [] s _ eq_refl Hm).
  - reflexivity.
  - cbn. lia.
  - unfold s. cbn. lia.
  - intros j Hj. unfold pos in Hj. cbn in Hj.
    destruct (match_at jsonFence s j) as [y|] eqn:E; [|reflexivity].
    unfold match_at in E. apply match_lit_prefix in E.
    replace j with ((j - 8) + 8) in E by lia.
    rewrite <- skipn_skipn in E.
    change (skipn 8 s) with (body ++ LF :: lit "```") in E.
    rewrite (includes_skipn _ _ (no_json_fence _ H)) in E. discriminate.
Qed.

(** *** The default sort *)

Lemma str_leb_refl a : str_leb a a = true.
Proof.
  induction a as [|x a IH]; cbn; [reflexivity|].
  rewrite N.ltb_irrefl, N.eqb_refl. exact IH.
Qed.

Lemma str_leb_total a : forall b, str_leb a b = false -> str_leb b a = true.
Proof.
  induction a as [|x a IH]; intros [|y b] H; cbn in H |- *;
    try discriminate; try reflexivity.
  destruct (N.ltb x y) eqn:E1; [discriminate|].
  destruct (N.eqb x y) eqn:E2.
  - apply N.eqb_eq in E2. subst y. rewrite E1, N.eqb_refl. now apply IH.
  - apply N.ltb_ge in E1. apply N.eqb_neq in E2.
    replace (N.ltb y x) with true; [reflexivity|].
    symmetry. apply N.ltb_lt. lia.
Qed.

Lemma str_leb_antisym a : forall b,
  str_leb a b = true -> str_leb b a = true -> a = b.
Proof.
  induction a as [|x a IH]; intros [|y b] H1 H2; cbn in H1, H2;
    try discriminate; try reflexivity.
  destruct (N.ltb x y) eqn:E1.
  - apply N.ltb_lt in E1.
    replace (N.ltb y x) with false in H2
      by (symmetry; apply N.ltb_ge; lia).
    replace (N.eqb y x) with false in H2
      by (symmetry; apply N.eqb_neq; lia).
    discriminate.
  - destruct (N.eqb x y) eqn:E2; [|discriminate].
    apply N.eqb_eq in E2. subst y. rewrite E1, N.eqb_refl in H2.
    f_equal. now apply IH.
Qed.

Lemma str_leb_trans a : forall b c,
  str_leb a b = true -> str_leb b c = true -> str_leb a c = true.
Proof.
  induction a as [|x a IH]; intros [|y b] [|z c] H1 H2; cbn in H1, H2 |- *;
    try discriminate; try reflexivity.
  destruct (N.ltb x y) eqn:E1.
  - apply N.ltb_lt in E1. destruct (N.ltb y z) eqn:E2.
    + apply N.ltb_lt in E2.
      replace (N.ltb x z) with true by (symmetry; apply N.ltb_lt; lia).
      reflexivity.
    + destruct (N.eqb y z) eqn:E3; [|discriminate].
      apply N.eqb_eq in E3. subst z.
      replace (N.ltb x y) with true by (symmetry; apply N.ltb_lt; lia).
      reflexivity.
  - destruct (N.eqb x y) eqn:E3; [|discriminate].
    apply N.eqb_eq in E3. subst y.
    destruct (N.ltb x z); [reflexivity|].
    destruct (N.eqb x z); [|discriminate]. eapply IH; eauto.
Qed.

Lemma insert_sorted_perm x l : Permutation (insert_sorted x l) (x :: l).
Proof.
  induction l as [|y l IH]; cbn; [apply Permutation_refl|].
  destruct (str_leb x y); [apply Permutation_refl|].
  eapply Permutation_trans; [apply perm_skip; exact IH|apply perm_swap].
Qed.

Lemma sort_perm l : Permutation (sort l) l.
Proof.
  induction l as [|x l IH]; cbn; [constructor|].
  eapply Permutation_trans; [apply insert_sorted_perm|].
  now apply perm_skip.
Qed.

Lemma insert_sorted_sorted x l :
  StronglySorted (fun a b => str_leb a b = true) l ->
  StronglySorted (fun a b => str_leb a b = true) (insert_sorted x l).
Proof.
  induction 1 as [|y l Hs IH Hy]; cbn.
  - constructor; constructor.
  - destruct (str_leb x y) eqn:E.
    + constructor; [constructor; assumption|].
      constructor; [exact E|].
      eapply Forall_impl; [|exact Hy]. intros z Hz. cbn beta in Hz |- *.
      eapply str_leb_trans; eauto.
    + constructor; [exact IH|].
      apply (Permutation_Forall (Permutation_sym (insert_sorted_perm x l))).
      constructor; [now apply str_leb_total|exact Hy].
Qed.

Lemma sort_sorted l : StronglySorted (fun a b => str_leb a b = true) (sort l).
Proof.
  induction l as [|x l IH]; cbn; [constructor|].
  now apply insert_sorted_sorted.
Qed.

Lemma sorted_perm_unique : forall l1 l2 : list str,
  StronglySorted (fun a b => str_leb a b = true) l1 ->
  StronglySorted (fun a b => str_leb a b = true) l2 ->
  Permutation l1 l2 -> l1 = l2.
Proof.
  induction l1 as [|a l1 IH]; intros l2 S1 S2 P.
  - apply Permutation_nil in P. now subst.
  - destruct l2 as [|b l2];
      [apply Permutation_sym, Permutation_nil in P; discriminate|].
    inversion S1 as [|? ? S1' F1]; subst.
    inversion S2 as [|? ? S2' F2]; subst.
    assert (Hab : a = b).
    { assert (Ha : In a (b :: l2))
        by (eapply Permutation_in; [exact P|now left]).
      assert (Hb : In b (a :: l1))
        by (eapply Permutation_in; [apply Permutation_sym; exact P|now left]).
      destruct Ha as [Ha|Ha]; [now subst|].
      destruct Hb as [Hb|Hb]; [now subst|].
      rewrite Forall_forall in F1, F2.
      apply str_leb_antisym; [now apply F1|now apply F2]. }
    subst b. f_equal. apply IH; auto.
    eapply Permutation_cons_inv; eauto.
Qed.

(** The sorted array depends on the elements only, not on their order. *)
Lemma sort_order_free l1 l2 : Permutation l1 l2 -> sort l1 = sort l2.
Proof.
  intros P. apply sorted_perm_unique; try apply sort_sorted.
  eapply Permutation_trans; [apply sort_perm|].
  eapply Permutation_trans; [exact P|].
  apply Permutation_sym, sort_perm.
Qed.

Lemma sort_In x l : In x (sort l) <-> In x l.
Proof.
  split; apply Permutation_in;
    [apply sort_perm|apply Permutation_sym, sort_perm].
Qed.

Lemma sort_length l : List.length (sort l) = List.length l.
Proof. apply Permutation_length, sort_perm. Qed.

(** *** The directory map of [generateDirectoryTree] *)

Lemma map_push_keys k v m k' :
  In k' (List.map fst (map_push k v m)) <-> k' = k \/ In k' (List.map fst m).
Proof.
  induction m as [|[q vs] m IH]; cbn.
  - intuition.
  - destruct (str_eqb q k) eqn:E; cbn.
    + apply str_eqb_eq in E. subst q. intuition.
    + rewrite IH. intuition.
Qed.

Lemma map_push_nodup k v m :
  NoDup (List.map fst m) -> NoDup (List.map fst (map_push k v m)).
Proof.
  induction m as [|[q vs] m IH]; cbn; intros H.
  - constructor; [intros []|constructor].
  - destruct (str_eqb q k) eqn:E; cbn; [exact H|].
    inversion H as [|? ? Hn Hd]; subst. constructor; [|now apply IH].
    rewrite map_push_keys. intros [->|Hin]; [|contradiction].
    rewrite str_eqb_refl in E. discriminate.
Qed.

Lemma map_push_total k v m :
  List.length (concat (List.map snd (map_push k v m)))
  = S (List.length (concat (List.map snd m))).
Proof.
  induction m as [|[q vs] m IH]; cbn; [reflexivity|].
  destruct (str_eqb q k); cbn.
  - rewrite !length_app. cbn. lia.
  - rewrite !length_app, IH. lia.
Qed.

Lemma map_push_get_same k v m :
  exists vs, map_get k (map_push k v m) = Some vs /\ In v vs.
Proof.
  induction m as [|[q vs] m IH]; cbn.
  - rewrite str_eqb_refl. exists [v]. split; [reflexivity|now left].
  - destruct (str_eqb q k) eqn:E; cbn; rewrite E.
    + exists (vs ++ [v]). split; [reflexivity|].
      apply in_or_app. right. now left.
    + exact IH.
Qed.

Lemma map_push_get_mono k v m k' vs :
  map_get k' m = Some vs ->
  exists vs', map_get k' (map_push k v m) = Some vs' /\ incl vs vs'.
Proof.
  induction m as [|[q ws] m IH]; cbn; [discriminate|].
  intros H. destruct (str_eqb q k) eqn:E; cbn.
  - destruct (str_eqb q k') eqn:E'.
    + inversion H; subst ws. exists (vs ++ [v]). split; [reflexivity|].
      apply incl_appl, incl_refl.
    + exists vs. split; [exact H|apply incl_refl].
  - destruct (str_eqb q k') eqn:E'.
    + exists vs. split; [exact H|apply incl_refl].
    + now apply IH.
Qed.

Lemma map_get_in m : forall k vs,
  NoDup (List.map fst m) -> In (k, vs) m -> map_get k m = Some vs.
Proof.
  induction m as [|[q ws] m IH]; intros k vs Hn Hin; [destruct Hin|].
  cbn in Hn |- *. inversion Hn as [|? ? Hq Hd]; subst.
  destruct Hin as [Hin|Hin].
  - inversion Hin; subst. now rewrite str_eqb_refl.
  - destruct (str_eqb q k) eqn:E.
    + apply str_eqb_eq in E. subst q. exfalso. apply Hq.
      apply (in_map fst) in Hin. exact Hin.
    + now apply IH.
Qed.

Lemma map_get_none m k :
  ~ In k (List.map fst m) -> map_get k m = None.
Proof.
  induction m as [|[q ws] m IH]; cbn; intros H; [reflexivity|].
  destruct (str_eqb q k) eqn:E.
  - apply str_eqb_eq in E. subst q. exfalso. apply H. now left.
  - apply IH. intros Hin. apply H. now right.
Qed.

Lemma group_keys fs : forall m0 k,
  In k (List.map fst (fold_left pushFile fs m0))
  <-> In k (List.map fst m0) \/ exists f, In f fs /\ Path.dirname f = k.
Proof.
  induction fs as [|f fs IH]; intros m0 k; cbn [fold_left].
  - split; [now left|]. intros [H|(f & [] & _)]. exact H.
  - rewrite IH. unfold pushFile. rewrite map_push_keys. split.
    + intros [[->|H]|(g & Hg & Eg)].
      * right. exists f. split; [now left|reflexivity].
      * now left.
      * right. exists g. split; [now right|exact Eg].
    + intros [H|(g & [->|Hg] & Eg)].
      * left. now right.
      * left. left. now symmetry.
      * right. exists g. split; assumption.
Qed.

Lemma group_nodup fs : forall m0,
  NoDup (List.map fst m0) -> NoDup (List.map fst (fold_left pushFile fs m0)).
Proof.
  induction fs as [|f fs IH]; intros m0 H; cbn [fold_left]; [exact H|].
  apply IH. unfold pushFile. now apply map_push_nodup.
Qed.

Lemma group_total fs : forall m0,
  List.length (concat (List.map snd (fold_left pushFile fs m0)))
  = List.length (concat (List.map snd m0)) + List.length fs.
Proof.
  induction fs as [|f fs IH]; intros m0; cbn [fold_left List.length]; [lia|].
  rewrite IH. unfold pushFile. rewrite map_push_total. lia.
Qed.

Lemma group_mono fs : forall m0 k vs,
  map_get k m0 = Some vs ->
  exists vs', map_get k (fold_left pushFile fs m0) = Some vs' /\ incl vs vs'.
Proof.
  induction fs as [|f fs IH]; intros m0 k vs H; cbn [fold_left].
  - exists vs. split; [exact H|apply incl_refl].
  - destruct (@map_push_get_mono (Path.dirname f) (Path.basename f) m0 k vs H)
      as (ws & Hw & Hi).
    destruct (IH _ _ _ Hw) as (vs' & Hv & Hi').
    exists vs'. split; [exact Hv|]. eapply incl_tran; eauto.
Qed.

Lemma group_lists fs : forall m0 f,
  In f fs ->
  exists vs, map_get (Path.dirname f) (fold_left pushFile fs m0) = Some vs
             /\ In (Path.basename f) vs.
Proof.
  induction fs as [|g fs IH]; intros m0 f Hin; [destruct Hin|].
  cbn [fold_left]. destruct Hin as [->|Hin]; [|now apply IH].
  destruct (map_push_get_same (Path.dirname f) (Path.basename f) m0)
    as (ws & Hw & Hi).
  destruct (@group_mono fs _ _ _ Hw) as (vs' & Hv & Hi').
  exists vs'. split; [exact Hv|]. now apply Hi'.
Qed.

(** *** The lines of the tree *)

Lemma fileLines_length prefix closing : forall vs,
  List.length (fileLines prefix closing vs) = List.length vs.
Proof.
  induction vs as [|v vs IH]; [reflexivity|].
  destruct vs as [|w vs]; [reflexivity|].
  change (fileLines prefix closing (v :: w :: vs))
    with ((prefix ++ branch ++ lit " " ++ v)
            :: fileLines prefix closing (w :: vs)).
  cbn [List.length] in IH |- *. now rewrite IH.
Qed.

Lemma fileLines_In prefix closing v : forall vs,
  In v vs ->
  exists conn, (conn = branch \/ conn = lastBranch) /\
               In (prefix ++ conn ++ lit " " ++ v)
                  (fileLines prefix closing vs).
Proof.
  induction vs as [|w vs IH]; intros Hin; [destruct Hin|].
  destruct vs as [|w' vs].
  - destruct Hin as [->|[]]. cbn [fileLines].
    exists (if closing then lastBranch else branch). split.
    + destruct closing; auto.
    + now left.
  - change (fileLines prefix closing (w :: w' :: vs))
      with ((prefix ++ branch ++ lit " " ++ w)
              :: fileLines prefix closing (w' :: vs)).
    destruct Hin as [->|Hin].
    + exists branch. split; [now left|now left].
    + destruct (IH Hin) as (conn & Hc & Hl).
      exists conn. split; [exact Hc|now right].
Qed.

Lemma dirLines_length m : forall ds,
  List.length (dirLines m ds)
  = List.length ds
    + List.length (concat (List.map (fun d => getOrEmpty d m) ds)).
Proof.
  induction ds as [|d ds IH]; [reflexivity|].
  cbn [dirLines List.map concat List.length].
  rewrite !length_app, fileLines_length, IH. lia.
Qed.

Lemma dirLines_In m v d : forall ds,
  In d ds -> In v (getOrEmpty d m) ->
  exists prefix conn,
    List.length prefix = 4 /\ (conn = branch \/ conn = lastBranch) /\
    In (prefix ++ conn ++ lit " " ++ v) (dirLines m ds).
Proof.
  induction ds as [|d' ds IH]; intros Hd Hv; [destruct Hd|].
  cbn [dirLines]. destruct Hd as [->|Hd].
  - set (prefix := if match ds with [] => true | _ :: _ => false end
                   then lit "    " else bar :: lit "   ").
    destruct (@fileLines_In prefix true v _ Hv) as (conn & Hc & Hl).
    exists prefix, conn. split; [|split; [exact Hc|]].
    + unfold prefix. destruct ds; reflexivity.
    + right. apply in_or_app. now left.
  - destruct (IH Hd Hv) as (prefix & conn & Hp & Hc & Hl).
    exists prefix, conn. split; [exact Hp|split; [exact Hc|]].
    right. apply in_or_app. now right.
Qed.

(** With distinct keys, the values of the map are those under [.] and
    those under the other keys. *)
Lemma map_values_split m : forall es,
  NoDup (List.map fst es) ->
  (forall k vs, In (k, vs) es -> map_get k m = Some vs) ->
  List.length (concat (List.map snd es))
  = (if existsb (str_eqb (lit ".")) (List.map fst es)
     then List.length (getOrEmpty (lit ".") m) else 0)
    + List.length
        (concat (List.map (fun d => getOrEmpty d m)
                          (filter notRoot (List.map fst es)))).
Proof.
  induction es as [|[k vs] es IH]; intros Hn Hg; [reflexivity|].
  cbn [List.map fst snd concat existsb filter] in *.
  inversion Hn as [|? ? Hk Hd]; subst.
  assert (Hkv : map_get k m = Some vs) by (apply Hg; now left).
  specialize (IH Hd (fun k' vs' H => Hg k' vs' (or_intror H))).
  rewrite length_app, IH. unfold notRoot at 2.
  destruct (str_eqb k (lit ".")) eqn:E.
  - apply str_eqb_eq in E. subst k. rewrite str_eqb_refl. cbn [orb negb].
    replace (existsb (str_eqb (lit ".")) (List.map fst es)) with false.
    + assert (Hr : getOrEmpty (lit ".") m = vs)
        by (unfold getOrEmpty; now rewrite Hkv).
      rewrite Hr. lia.
    + symmetry. apply not_true_is_false. intros Hx.
      apply existsb_exists in Hx. destruct Hx as (q & Hq & Eq).
      apply str_eqb_eq in Eq. subst q. contradiction.
  - replace (str_eqb (lit ".") k) with false.
    + cbn [orb negb List.map concat]. rewrite length_app.
      assert (Hr : getOrEmpty k m = vs)
        by (unfold getOrEmpty; now rewrite Hkv).
      rewrite Hr. lia.
    + symmetry. apply str_eqb_neq. intros <-.
      rewrite str_eqb_refl in E. discriminate.
Qed.

Lemma root_files_length m :
  (if existsb (str_eqb (lit ".")) (List.map fst m)
   then List.length (getOrEmpty (lit ".") m) else 0)
  = List.length (getOrEmpty (lit ".") m).
Proof.
  destruct (existsb (str_eqb (lit ".")) (List.map fst m)) eqn:E;
    [reflexivity|].
  unfold getOrEmpty. rewrite map_get_none; [reflexivity|].
  intros Hin. apply not_true_iff_false in E. apply E.
  apply existsb_exists. exists (lit "."). split; [exact Hin|].
  apply str_eqb_refl.
Qed.

Lemma tree_length folderPath files :
  List.length (tree folderPath files)
  = 1 + List.length files
    + List.length (filter notRoot
                     (List.map fst (groupByDirectory (sort files)))).
Proof.
  unfold tree. cbv zeta. cbn [List.length].
  rewrite length_app, fileLines_length, dirLines_length.
  pose proof (@group_nodup (sort files) [] (NoDup_nil _)) as Hn.
  fold (groupByDirectory (sort files)) in Hn.
  pose proof (@map_values_split (groupByDirectory (sort files))
                (groupByDirectory (sort files)) Hn
                (fun k vs H => @map_get_in _ k vs Hn H)) as Hs.
  rewrite root_files_length in Hs.
  pose proof (group_total (sort files) []) as Ht.
  fold (groupByDirectory (sort files)) in Ht.
  cbn [List.map concat List.length] in Ht.
  rewrite sort_length in Ht. lia.
Qed.

Lemma notRoot_spec d : notRoot d = true <-> d <> lit ".".
Proof.
  unfold notRoot. rewrite negb_true_iff. split.
  - intros H ->. rewrite str_eqb_refl in H. discriminate.
  - apply str_eqb_neq.
Qed.

Lemma subdirs_spec files d :
  In d (filter notRoot (List.map fst (groupByDirectory (sort files))))
  <-> d <> lit "." /\ exists f, In f files /\ Path.dirname f = d.
Proof.
  rewrite filter_In, notRoot_spec. unfold groupByDirectory.
  rewrite group_keys. cbn [List.map In]. split.
  - intros [[[]|(f & Hf & Ef)] Hd]. split; [exact Hd|].
    exists f. split; [now apply sort_In|exact Ef].
  - intros [Hd (f & Hf & Ef)]. split; [|exact Hd].
    right. exists f. split; [now apply sort_In|exact Ef].
Qed.

Lemma dirLines_header m d : forall ds,
  In d ds ->
  exists conn, (conn = branch \/ conn = lastBranch) /\
               In (conn ++ lit " " ++ dirName d ++ lit "/") (dirLines m ds).
Proof.
  induction ds as [|d' ds IH]; intros Hd; [destruct Hd|].
  cbn [dirLines]. destruct Hd as [->|Hd].
  - exists (if match ds with [] => true | _ :: _ => false end
            then lastBranch else branch).
    split; [destruct ds; auto|now left].
  - destruct (IH Hd) as (conn & Hc & Hl).
    exists conn. split; [exact Hc|]. right. apply in_or_app. now right.
Qed.

(** *** The comment patterns and the comment forms

    Each comment pattern matches at a position exactly where the text
    goes on with a comment of its form, and its group holds the path
    text the comment declares. *)

Lemma at_bol_lineStart pre aft cs :
  at_bol true (MState (rev pre) aft cs) = lineStart pre.
Proof. unfold at_bol, lineStart. cbn [before]. destruct (rev pre); reflexivity. Qed.

Lemma pathChar_line f c :
  f <> BlockForm -> pathChar f c = none_of [LF] c.
Proof.
  intros Hf. unfold none_of, any_of. cbn [existsb]. rewrite orb_false_r.
  destruct f; try reflexivity. contradiction.
Qed.

Lemma pathChar_block c : pathChar BlockForm c = none_of (lit "*") c.
Proof.
  unfold none_of, any_of. cbn [existsb lit List.map list_ascii_of_string].
  rewrite orb_false_r. reflexivity.
Qed.

Lemma derives_file_path ml R bef w :
  derives ml (Seq (Star (Chr is_space))
                (Seq fileColon (Seq (Star (Chr is_space)) R))) bef w ->
  exists ws1 ws2 w' bef',
    w = ws1 ++ lit "File:" ++ ws2 ++ w'
    /\ whitespace ws1 /\ whitespace ws2 /\ derives ml R bef' w'.
Proof.
  intros D.
  apply derives_seq in D. destruct D as (ws1 & w1 & -> & D1 & D).
  apply derives_seq in D. destruct D as (wf & w2 & -> & Df & D).
  apply derives_seq in D. destruct D as (ws2 & w' & -> & D2 & D).
  apply derives_Lit in Df. subst wf.
  apply derives_star_chr in D1. apply derives_star_chr in D2.
  exists ws1, ws2, w'. eexists. repeat split; eauto.
Qed.

Lemma match_commentAt f s j y :
  match_at (formPattern f) s j = Some y ->
  exists raw, commentAt f s (firstn j s) raw.
Proof.
  unfold match_at. intros H. apply match_here_advance in H.
  destruct H as (w & D & Ea & _).
  assert (Es : s = firstn j s ++ w ++ after y)
    by (rewrite <- Ea; symmetry; apply firstn_skipn).
  destruct f;
    cbn [formPattern body flag_m slashComment hashComment htmlComment
         blockComment] in D.
  - apply derives_seq in D. destruct D as (w0 & w1 & -> & D0 & D).
    apply derives_bol in D0. destruct D0 as [-> Hb].
    rewrite at_bol_lineStart in Hb.
    apply derives_seq in D. destruct D as (wo & w2 & -> & Do & D).
    apply derives_Lit in Do. subst wo.
    apply derives_file_path in D.
    destruct D as (ws1 & ws2 & raw & bef' & -> & H1 & H2 & D).
    apply derives_group, derives_plus_chr in D. destruct D as [Hne Hr].
    exists raw, ws1, ws2, (after y). repeat split; auto.
    + rewrite Es at 1. cbn [app opener]. rewrite <- !app_assoc. reflexivity.
    + eapply Forall_impl; [|exact Hr]. intros c Hc.
      rewrite pathChar_line; [exact Hc|discriminate].
  - apply derives_seq in D. destruct D as (w0 & w1 & -> & D0 & D).
    apply derives_bol in D0. destruct D0 as [-> Hb].
    rewrite at_bol_lineStart in Hb.
    apply derives_seq in D. destruct D as (wo & w2 & -> & Do & D).
    apply derives_chr in Do. destruct Do as (c & -> & Hc).
    unfold one in Hc. apply N.eqb_eq in Hc. subst c.
    apply derives_file_path in D.
    destruct D as (ws1 & ws2 & raw & bef' & -> & H1 & H2 & D).
    apply derives_group, derives_plus_chr in D. destruct D as [Hne Hr].
    exists raw, ws1, ws2, (after y). repeat split; auto.
    + rewrite Es at 1. cbn [app opener]. rewrite <- !app_assoc. reflexivity.
    + eapply Forall_impl; [|exact Hr]. intros c Hc.
      rewrite pathChar_line; [exact Hc|discriminate].
  - apply derives_seq in D. destruct D as (w0 & w1 & -> & D0 & D).
    apply derives_bol in D0. destruct D0 as [-> Hb].
    rewrite at_bol_lineStart in Hb.
    apply derives_seq in D. destruct D as (wo & w2 & -> & Do & D).
    apply derives_Lit in Do. subst wo.
    apply derives_file_path in D.
    destruct D as (ws1 & ws2 & w3 & bef' & -> & H1 & H2 & D).
    apply derives_seq in D. destruct D as (raw & w4 & -> & Dg & D).
    apply derives_group, derives_plus_chr in Dg. destruct Dg as [Hne Hr].
    apply derives_seq in D. destruct D as (ws3 & wc & -> & D3 & Dc).
    apply derives_star_chr in D3. apply derives_Lit in Dc. subst wc.
    exists raw, ws1, ws2, (ws3 ++ lit "-->" ++ after y). repeat split; auto.
    + rewrite Es at 1. cbn [app opener]. rewrite <- !app_assoc. reflexivity.
    + eapply Forall_impl; [|exact Hr]. intros c Hc.
      rewrite pathChar_line; [exact Hc|discriminate].
    + exists ws3, (after y). split; [exact D3|reflexivity].
  - apply derives_seq in D. destruct D as (wo & w2 & -> & Do & D).
    apply derives_Lit in Do. subst wo.
    apply derives_file_path in D.
    destruct D as (ws1 & ws2 & w3 & bef' & -> & H1 & H2 & D).
    apply derives_seq in D. destruct D as (raw & wc & -> & Dg & Dc).
    apply derives_group, derives_plus_chr in Dg. destruct Dg as [Hne Hr].
    apply derives_Lit in Dc. subst wc.
    exists raw, ws1, ws2, (lit "*/" ++ after y). repeat split; auto.
    + rewrite Es at 1. cbn [app opener]. rewrite <- !app_assoc. reflexivity.
    + discriminate.
    + eapply Forall_impl; [|exact Hr]. intros c Hc.
      rewrite pathChar_block. exact Hc.
    + exists (after y). reflexivity.
Qed.

Lemma span_run (p : N -> bool) : forall l : str,
  exists ext rest,
    l = ext ++ rest /\ Forall (fun a => p a = true) ext /\ stops p rest.
Proof.
  induction l as [|a l IH].
  - exists [], []. repeat split; constructor.
  - destruct (p a) eqn:E.
    + destruct IH as (ext & rest & -> & He & Hs).
      exists (a :: ext), rest. repeat split; auto.
    + exists [], (a :: l). repeat split; [constructor|exact E].
Qed.

Lemma file_prefix ml R bef ws1 ws2 rest cs c z :
  whitespace ws1 -> whitespace ws2 -> stops is_space rest ->
  matcher ml R (MState (rev (ws1 ++ lit "File:" ++ ws2) ++ bef) rest cs) c
  = Some z ->
  matcher ml (Seq (Star (Chr is_space))
                (Seq fileColon (Seq (Star (Chr is_space)) R)))
          (MState bef (ws1 ++ lit "File:" ++ ws2 ++ rest) cs) c = Some z.
Proof.
  intros H1 H2 Hs H. rewrite seq_step.
  apply star_run; [reflexivity|exact H1|].
  rewrite seq_step. unfold fileColon. rewrite lit_step.
  rewrite seq_step. apply star_run; [exact Hs|exact H2|].
  rewrite !rev_app_distr in H. rewrite <- !app_assoc in H. exact H.
Qed.

Lemma firstn_prefix (pre x : str) : firstn (List.length pre) (pre ++ x) = pre.
Proof.
  rewrite firstn_app, Nat.sub_diag, firstn_all. cbn [firstn].
  apply app_nil_r.
Qed.

Lemma skipn_prefix (pre x : str) : skipn (List.length pre) (pre ++ x) = x.
Proof.
  rewrite skipn_app, Nat.sub_diag, skipn_all. reflexivity.
Qed.

(** The end of a line comment: after the longest path text comes the
    end of the body or a line feed. *)
Lemma line_comment_stops f tail :
  f = SlashForm \/ f = HashForm ->
  (forall ext tail', tail = ext ++ tail' -> ext <> [] ->
     Forall (fun c => pathChar f c = true) ext -> ~ closes f tail') ->
  stops (none_of [LF]) tail.
Proof.
  intros Hf Hmax. destruct tail as [|t tail]; [exact I|]. cbn [stops].
  destruct (none_of [LF] t) eqn:E; [|reflexivity]. exfalso.
  apply (Hmax [t] tail eq_refl); [discriminate| |].
  - constructor; [|constructor].
    rewrite pathChar_line; [exact E|]. destruct Hf; subst; discriminate.
  - destruct Hf; subst; exact I.
Qed.

Lemma declares_match f s pre raw :
  declares f s pre raw ->
  exists y, match_at (formPattern f) s (List.length pre) = Some y
            /\ caps y = [(1, raw)].
Proof.
  intros (ws1 & ws2 & tail & Es & Hls & H1 & H2 & (c0 & raw' & -> & Hc0)
          & Hraw & Hcl & Hmax).
  unfold match_at. subst s. rewrite firstn_prefix, skipn_prefix.
  unfold match_here.
  assert (Hstop : stops is_space ((c0 :: raw') ++ tail)) by exact Hc0.
  destruct f;
    cbn [formPattern body flag_m slashComment hashComment htmlComment
         blockComment opener needsLineStart] in *.
  - assert (Ht : stops (none_of [LF]) tail)
      by (apply (@line_comment_stops SlashForm); auto).
    eexists. split.
    + rewrite seq_step, bol_step, at_bol_lineStart, (Hls eq_refl).
      rewrite seq_step, lit_step.
      apply file_prefix; auto.
      change ((c0 :: raw') ++ tail) with ((c0 :: raw') ++ [] ++ tail).
      apply group_plus_back;
        [exact Ht|constructor| |reflexivity|].
      * eapply Forall_impl; [|exact Hraw]. intros c Hc.
        rewrite <- (@pathChar_line SlashForm); [exact Hc|discriminate].
      * intros e1 e2 E Hne. destruct e1; [congruence|discriminate].
    + reflexivity.
  - assert (Ht : stops (none_of [LF]) tail)
      by (apply (@line_comment_stops HashForm); auto).
    eexists. split.
    + rewrite seq_step, bol_step, at_bol_lineStart, (Hls eq_refl).
      rewrite seq_step.
      change (lit "#" ++ ws1 ++ lit "File:" ++ ws2 ++ (c0 :: raw') ++ tail)
        with (ch "#" :: ws1 ++ lit "File:" ++ ws2 ++ (c0 :: raw') ++ tail).
      rewrite chr_step. unfold one at 1. rewrite N.eqb_refl.
      apply file_prefix; auto.
      change ((c0 :: raw') ++ tail) with ((c0 :: raw') ++ [] ++ tail).
      apply group_plus_back;
        [exact Ht|constructor| |reflexivity|].
      * eapply Forall_impl; [|exact Hraw]. intros c Hc.
        rewrite <- (@pathChar_line HashForm); [exact Hc|discriminate].
      * intros e1 e2 E Hne. destruct e1; [congruence|discriminate].
    + reflexivity.
  - destruct Hcl as (ws3 & rest0 & H3 & Et).
    destruct (span_run (none_of [LF]) tail) as (ext & rest & Ex & Hext & Hrs).
    eexists. split.
    + rewrite seq_step, bol_step, at_bol_lineStart, (Hls eq_refl).
      rewrite seq_step, lit_step.
      apply file_prefix; auto.
      rewrite seq_step. rewrite Ex.
      apply group_plus_back; [exact Hrs|exact Hext| | |].
      * eapply Forall_impl; [|exact Hraw]. intros c Hc.
        rewrite <- (@pathChar_line HtmlForm); [exact Hc|discriminate].
      * rewrite <- Ex, Et. rewrite seq_step.
        apply star_run; [reflexivity|exact H3|].
        rewrite lit_step. reflexivity.
      * intros e1 e2 E Hne.
        match goal with |- ?t = None => destruct t as [z|] eqn:Ez end;
          [|reflexivity].
        exfalso. apply matcher_sound in Ez.
        destruct Ez as (w & y & D & [A _] & _). cbn [after] in A.
        apply derives_seq in D. destruct D as (ws & wc & -> & Ds & Dc).
        apply derives_star_chr in Ds. apply derives_Lit in Dc. subst wc.
        apply (Hmax e1 (e2 ++ rest)).
        -- rewrite Ex, E, <- app_assoc. reflexivity.
        -- exact Hne.
        -- rewrite E in Hext. apply Forall_app in Hext.
           destruct Hext as [He1 _].
           eapply Forall_impl; [|exact He1]. intros c Hc.
           rewrite pathChar_line; [exact Hc|discriminate].
        -- exists ws, (after y). split; [exact Ds|].
           rewrite A, <- app_assoc. reflexivity.
    + reflexivity.
  - destruct Hcl as (rest0 & Et). subst tail.
    eexists. split.
    + rewrite seq_step, lit_step.
      apply file_prefix; auto.
      rewrite seq_step.
      change ((c0 :: raw') ++ lit "*/" ++ rest0)
        with ((c0 :: raw') ++ [] ++ lit "*/" ++ rest0).
      apply group_plus_back; [reflexivity|constructor| | |].
      * eapply Forall_impl; [|exact Hraw]. intros c Hc.
        rewrite <- pathChar_block. exact Hc.
      * cbv beta. change ([] ++ lit "*/" ++ rest0) with (lit "*/" ++ rest0).
        rewrite lit_step. reflexivity.
      * intros e1 e2 E Hne. destruct e1; [congruence|discriminate].
    + reflexivity.
Qed.

Lemma declares_length f s pre raw :
  declares f s pre raw -> List.length pre <= List.length s.
Proof.
  intros (ws1 & ws2 & tail & -> & _). rewrite length_app. lia.
Qed.

Lemma declares_not_blank f s pre raw :
  declares f s pre raw -> truthy (trim raw) = true.
Proof.
  intros (ws1 & ws2 & tail & _ & _ & _ & _ & (c0 & raw' & -> & Hc0) & _).
  apply not_blank with c0; [now left|exact Hc0].
Qed.

(** The comment that decides: the first comment, in document order, of
    the first form that has a comment in the body. *)
Lemma declared_comment_decides f body pre raw :
  declares f body pre raw ->
  (forall f' pre' raw', rank f' < rank f -> ~ commentAt f' body pre' raw') ->
  (forall pre' raw', List.length pre' < List.length pre ->
     ~ commentAt f body pre' raw') ->
  exists m, firstMatching commentPatterns body = Some (formPattern f, m)
            /\ rawGroup 1 m = raw.
Proof.
  intros Hd Hforms Hpos.
  destruct (declares_match Hd) as (y & Hm & Hcaps).
  pose proof (declares_length Hd) as Hlen.
  assert (Hnone : forall f', rank f' < rank f ->
                    exec (formPattern f') body = None).
  { intros f' Hr. unfold exec.
    apply (@exec_from_none_intro _ body (List.length body) 0); [lia|lia|].
    intros j _. destruct (match_at (formPattern f') body j) as [y'|] eqn:E;
      [|reflexivity].
    exfalso. destruct (match_commentAt _ _ _ E) as (raw' & Hc).
    exact (Hforms _ _ _ Hr Hc). }
  assert (Hsome : exec (formPattern f) body
                  = Some (Result (List.length pre) (pos y) (caps y))).
  { unfold exec.
    apply (@exec_first (formPattern f) body y (List.length pre) 0);
      [exact Hlen| |exact Hm].
    intros i _ Hi. cbn [Nat.add] in Hi.
    destruct (match_at (formPattern f) body i) as [y'|] eqn:E; [|reflexivity].
    exfalso. destruct (match_commentAt _ _ _ E) as (raw' & Hc).
    apply (Hpos _ _) in Hc; [exact Hc|].
    rewrite length_firstn. lia. }
  exists (Result (List.length pre) (pos y) (caps y)). split.
  - assert (Hn : forall f', rank f' < rank f ->
                   exec (formPattern f') body = None) by exact Hnone.
    destruct f; cbn [rank] in Hn;
      try (pose proof (Hn SlashForm ltac:(cbn; lia)) as E1;
           cbn [formPattern] in E1);
      try (pose proof (Hn HashForm ltac:(cbn; lia)) as E2;
           cbn [formPattern] in E2);
      try (pose proof (Hn HtmlForm ltac:(cbn; lia)) as E3;
           cbn [formPattern] in E3);
      cbn [commentPatterns firstMatching formPattern] in *;
      try rewrite E1; try rewrite E2; try rewrite E3;
      now rewrite Hsome.
  - unfold rawGroup, group. cbn [captures]. rewrite Hcaps.
    reflexivity.
Qed.

Lemma firstn_prefix_more (pre x : str) k :
  List.length pre <= k -> firstn k (pre ++ x) = pre ++ firstn (k - List.length pre) x.
Proof.
  intros H. rewrite firstn_app, firstn_all2 by exact H. reflexivity.
Qed.

(** A comment shows its opener at the place where it stands. *)
Lemma commentAt_opener f body pre raw k :
  commentAt f body pre raw ->
  List.length pre + List.length (opener f) <= k ->
  includes (opener f) (firstn k body) = true.
Proof.
  intros (ws1 & ws2 & tail & -> & _) Hk.
  rewrite firstn_prefix_more by lia.
  rewrite firstn_prefix_more by lia.
  apply includes_app.
Qed.

(** The path text of a [<!-- -->] comment reaches up to the closing
    [-->], white space included; that of a [/* */] comment up to the
    closing [*/], also inside a line. *)
Example html_comment_declares :
  declares HtmlForm (lit "<!-- File: c.html -->" ++ nl ++ lit "x") []
           (lit "c.html ").
Proof.
  exists (lit " "), (lit " "), (lit "-->" ++ nl ++ lit "x").
  split; [reflexivity|]. split; [intros _; reflexivity|].
  split; [repeat constructor|]. split; [repeat constructor|].
  split; [exists (ch "c"), (lit ".html "); split; reflexivity|].
  split; [repeat constructor|].
  split; [exists [], (nl ++ lit "x"); split; [constructor|reflexivity]|].
  intros ext tail' E Hne Hf Hcl.
  assert (Hi : includes (lit "-->") tail' = true).
  { destruct Hcl as (ws & rest & _ & ->). apply includes_app. }
  clear Hcl.
  destruct ext as [|e0 [|e1 [|e2 [|e3 ext]]]]; try congruence;
    inversion E; subst; try (vm_compute in Hi; discriminate).
  rewrite !Forall_cons_iff in Hf. destruct Hf as (_ & _ & _ & Hlf & _).
  discriminate.
Qed.

Example block_comment_declares :
  declares BlockForm (lit "x = 1; /* File: a.js */" ++ nl) (lit "x = 1; ")
           (lit "a.js ").
Proof.
  exists (lit " "), (lit " "), (lit "*/" ++ nl).
  split; [reflexivity|]. split; [discriminate|].
  split; [repeat constructor|]. split; [repeat constructor|].
  split; [exists (ch "a"), (lit ".js "); split; reflexivity|].
  split; [repeat constructor|].
  split; [exists nl; reflexivity|].
  intros ext tail' E Hne Hf _. destruct ext as [|e ext]; [congruence|].
  inversion E; subst e. inversion Hf; discriminate.
Qed.

(** A path that ends in [/] is refused by the writer. *)
Example trailing_slash :
  writeFiles (lit "/w") 0 (lit "t")
             (lit "```js:src/" ++ nl ++ lit "x" ++ nl ++ lit "```") baseOnly
  = ([(lit "/w/t", Fs.Dir); (lit "/w", Fs.Dir)],
     inl (FileWriteFailed (lit "src/") (SysError Fs.EISDIR))).
Proof. vm_compute. reflexivity. Qed.
End Facts.

(* ================================================================== *)
(** ** The properties of the specification *)
(* ================================================================== *)

Import Js Re ReFacts FileManager Spec Facts.

(** C2, as amended.  When a text has at least one non-blank fenced block
    and no non-blank block carries an explicit [:path] or a [File:]
    comment that yields a path, [parseCodeFiles] returns exactly one file
    per non-blank block, in document order, named [main<ext>],
    [file2<ext>], ..., [file{N}<ext>] with the block's body as content:
    the number in the name counts the accepted blocks, so blank blocks
    leave no gap. *)
Theorem names_follow_accepted_blocks (codeMarkdown : str) :
  let blocks := accepted (fencedBlocks codeMarkdown) in
  blocks <> [] ->
  Forall (fun m => explicitPath m = [] /\
                   commentPath commentPatterns (blockBody m) = []) blocks ->
  parseCodeFiles codeMarkdown = namedFrom 0 blocks
  /\ List.length (parseCodeFiles codeMarkdown) = List.length blocks
  /\ forall i f, nth_error (parseCodeFiles codeMarkdown) i = Some f ->
       exists m, nth_error blocks i = Some m /\
                 filePath f = sequentialName i ++ extensionOf m /\
                 content f = blockBody m.
Proof.
  intros blocks Hne Hall.
  assert (E : parseCodeFiles codeMarkdown = namedFrom 0 blocks).
  { unfold parseCodeFiles.
    change (exec_all codeBlockPattern codeMarkdown)
      with (fencedBlocks codeMarkdown).
    rewrite (blockLoop_named _ [] 0 Hall). cbn [app].
    fold blocks. rewrite namedFrom_length.
    destruct blocks; [congruence|reflexivity]. }
  split; [exact E|]. rewrite E. split.
  - apply namedFrom_length.
  - intros i f H. apply namedFrom_nth in H. exact H.
Qed.

Lemma names_follow_accepted_blocks_witness :
  accepted (fencedBlocks blocksWithGap) <> [] /\
  parseCodeFiles blocksWithGap =
  [ ParsedFile_ (lit "main.js") (lit "a" ++ nl);
    ParsedFile_ (lit "file2.js") (lit "b" ++ nl) ].
Proof.
  split; [vm_compute; discriminate|].
  refine (eq_trans
            (proj1 (@names_follow_accepted_blocks blocksWithGap _ _)) _).
  - vm_compute; discriminate.
  - eval_list. repeat constructor; vm_compute; reflexivity.
  - vm_compute. reflexivity.
Defined.

(** C2 as stated fails: a block named by a [File:] comment takes that
    name instead of [main<ext>], and a text whose only block is blank
    still yields a file. *)
Lemma gapFreeNaming_fails :
  ~ gapFreeNaming commentNamedBlock /\ ~ gapFreeNaming blankBlock.
Proof.
  split; intros H.
  - destruct H as [_ H];
      [eval_list; repeat constructor; vm_compute; reflexivity|].
    destruct (H 0 (ParsedFile_ (lit "a.js")
                     (lit "// File: a.js" ++ nl ++ lit "x" ++ nl)))
      as [ext E]; [vm_compute; reflexivity|].
    cbn in E. discriminate.
  - destruct H as [H _];
      [eval_list; repeat constructor; vm_compute; reflexivity|].
    vm_compute in H. discriminate.
Qed.

(** C3.  When extraction yields no file, [writeFiles] throws the "no
    files found" error and leaves the file system exactly as it was: no
    directory is created and no file is written. *)
Theorem writeFiles_fails_fast (basePath : str) (now : nat)
        (task codeMarkdown : str) (fs : Fs.t) :
  parseCodeFiles codeMarkdown = [] ->
  writeFiles basePath now task codeMarkdown fs = (fs, inl NoFilesFound).
Proof. apply writeFiles_empty. Qed.

Lemma writeFiles_fails_fast_witness :
  parseCodeFiles listItem = [] /\
  writeFiles (lit "/w") 0 (lit "t") listItem baseOnly
  = (baseOnly, inl NoFilesFound).
Proof.
  split; [vm_compute; reflexivity|].
  apply writeFiles_fails_fast. vm_compute. reflexivity.
Defined.



(** C10.  Normalization strips one leading [./] or [/] and leaves [..]
    alone, for every path; the block with explicit path [../x.js] yields
    the relative path [../x.js], and [writeFiles] joins it to the project
    root [/w/t], so the file is written to [/w/x.js], outside the project
    directory. *)
Theorem parent_path_escapes_project :
  (forall filePath, replace leadingSlash [] filePath = stripOnce filePath)
  /\ (forall rest, replace leadingSlash [] (lit "../" ++ rest)
                   = lit "../" ++ rest)
  /\ parseCodeFiles parentPathBlock
     = [ParsedFile_ (lit "../x.js") (lit "x" ++ nl)]
  /\ Path.join [lit "/w/t"; lit "../x.js"] = lit "/w/x.js"
  /\ startsWith (lit "/w/t/") (lit "/w/x.js") = false
  /\ writeFiles (lit "/w") 0 (lit "t") parentPathBlock baseOnly
     = ([ (lit "/w/x.js", Fs.File (lit "x" ++ nl)); (lit "/w/t", Fs.Dir);
          (lit "/w", Fs.Dir) ],
        inr (Written_ (lit "/w/t") [lit "../x.js"])).
Proof.
  split; [apply leadingSlash_strips_once|].
  split; [intros rest; rewrite leadingSlash_strips_once; reflexivity|].
  repeat split; vm_compute; reflexivity.
Qed.

(** C1 at the failing inputs.  An explicit path [//a] keeps a leading
    slash after normalization, and an explicit path [/] becomes the
    empty path; both blocks are accepted. *)
Theorem normalization_strips_once :
  parseCodeFiles doubleSlashBlock = [ParsedFile_ (lit "/a") (lit "x" ++ nl)]
  /\ parseCodeFiles loneSlashBlock = [ParsedFile_ [] (lit "x" ++ nl)].
Proof. split; vm_compute; reflexivity. Qed.

(** C9.  Folder-name sanitization is idempotent. *)
Theorem sanitizeFolderName_idempotent (task : str) :
  sanitizeFolderName (sanitizeFolderName task) = sanitizeFolderName task.
Proof.
  apply sanitize_fixed.
  - apply sanitize_clean.
  - apply sanitize_length.
  - apply sanitize_truthy.
Qed.

(** C4, as amended.  A block without explicit path whose body holds a
    file-path comment: the forms are tried in the order [//], [#],
    [<!-- -->], [/* */], the first three at a line start only, the last
    one wherever it stands.  The first form that has a comment in the
    body decides, through its first comment in document order: when
    that comment declares a path (a path text that is not blank), this
    path, trimmed and with one leading [/] or [./] removed, is the file
    path, whatever the language tag, the rest of the body and the block
    index are.  A non-empty explicit path is used instead, whatever the
    body holds. *)
Theorem comment_path_by_pattern_order
        (blockIndex : nat) (language actualContent : str)
        (f : commentForm) (pre raw : str) :
  declares f actualContent pre raw ->
  (forall f' pre' raw',
     rank f' < rank f -> ~ commentAt f' actualContent pre' raw') ->
  (forall pre' raw',
     List.length pre' < List.length pre ->
     ~ commentAt f actualContent pre' raw') ->
  resolvePath blockIndex language [] actualContent = stripOnce (trim raw)
  /\ (forall explicit, truthy explicit = true ->
        resolvePath blockIndex language explicit actualContent
        = stripOnce explicit).
Proof.
  intros Hd Hforms Hpos. split.
  - destruct (declared_comment_decides Hd Hforms Hpos) as (m & Hm & Hg).
    rewrite <- leadingSlash_strips_once, <- Hg.
    apply (@resolvePath_comment blockIndex language actualContent _ m Hm).
    rewrite Hg. exact (declares_not_blank Hd).
  - intros explicit He. rewrite <- leadingSlash_strips_once.
    now apply resolvePath_explicit.
Qed.

Lemma comment_path_by_pattern_order_witness :
  declares SlashForm twoComments (lit "# File: a.py" ++ nl) (lit "b.js")
  /\ resolvePath 0 [] [] twoComments = lit "b.js".
Proof.
  assert (Hd : declares SlashForm twoComments
                 (lit "# File: a.py" ++ nl) (lit "b.js")).
  { exists (lit " "), (lit " "), nl. split; [reflexivity|].
    split; [intros _; reflexivity|].
    split; [repeat constructor|]. split; [repeat constructor|].
    split; [exists (ch "b"), (lit ".js"); split; reflexivity|].
    split; [repeat constructor|]. split; [exact I|].
    intros ext tail' E Hne Hf _. destruct ext as [|e ext]; [congruence|].
    inversion E; subst e. inversion Hf; discriminate. }
  split; [exact Hd|].
  refine (proj1 (@comment_path_by_pattern_order 0 [] twoComments SlashForm
                   (lit "# File: a.py" ++ nl) (lit "b.js") Hd _ _)).
  - intros f' pre' raw' Hr. cbn in Hr. lia.
  - intros pre' raw' Hl Hc.
    apply (@commentAt_opener SlashForm twoComments pre' raw' 14) in Hc.
    + vm_compute in Hc. discriminate.
    + change (List.length (lit "# File: a.py" ++ nl)) with 13 in Hl.
      change (List.length (opener SlashForm)) with 2. lia.
Defined.

(** C4 as stated fails: with [# File: a.py] on the first line and
    [// File: b.js] on the second, the later comment wins because its
    pattern is tried first. *)
Lemma document_order_does_not_win : ~ documentOrderWins 0 [] twoComments.
Proof.
  intros H. unfold documentOrderWins in H.
  specialize (H (Result 0 12 [(1, lit "a.py")])).
  assert (E : firstCommentInDocument twoComments
              = Some (Result 0 12 [(1, lit "a.py")]))
    by (vm_compute; reflexivity).
  specialize (H E). vm_compute in H. discriminate.
Qed.

(** C5, as amended.  When no fenced block is found and the text is not
    blank, the text with its heading markers removed and trimmed becomes
    the single file [main<ext>] exactly when some line of it begins with
    a character other than [#], [*], backtick, [[] and []] (the line
    break of an empty line counts), or it contains [function], [class]
    or [import]; otherwise no file results. *)
Theorem whole_text_fallback (codeMarkdown : str) :
  fencedBlocks codeMarkdown = [] ->
  truthy (trim codeMarkdown) = true ->
  parseCodeFiles codeMarkdown =
  if linePlain true (cleanedText codeMarkdown)
     || hasKeyword (cleanedText codeMarkdown)
  then [wholeTextFile (cleanedText codeMarkdown)]
  else [].
Proof.
  intros Hb Ht. apply parseCodeFiles_no_accepted; [|exact Ht].
  rewrite Hb. reflexivity.
Qed.

Lemma whole_text_fallback_witness :
  fencedBlocks listThenPlain = [] /\
  truthy (trim listThenPlain) = true /\
  parseCodeFiles listThenPlain = [ParsedFile_ (lit "main.js") listThenPlain].
Proof.
  split; [vm_compute; reflexivity|]. split; [vm_compute; reflexivity|].
  refine (eq_trans (@whole_text_fallback listThenPlain _ _) _);
    vm_compute; reflexivity.
Defined.

(** C5 as stated fails: the text whose first line is a list item and
    whose second line is plain begins with [*] and has no keyword, yet
    it is emitted. *)
Lemma first_character_does_not_decide : ~ wholeTextRule listThenPlain.
Proof.
  intros H. unfold wholeTextRule in H.
  assert (E1 : fencedBlocks listThenPlain = []) by (vm_compute; reflexivity).
  specialize (H E1 eq_refl). vm_compute in H. discriminate.
Qed.

(** C7, as amended.  When the project root can be listed, the
    instructions are the numbered lists ["1. cd <abs>"], ["2. ..."],
    ["3. ..."] chosen by the fixed priority order from the names of the
    regular files directly in the root; no listed name contains a [/],
    and two file systems that list the root alike give the same
    instructions. *)
Theorem run_instructions_from_root_files
        (cwd folder : str) (fs : Fs.t) (entries : list Fs.dirent) :
  Fs.readdir fs folder = inr entries ->
  generateRunInstructions cwd folder fs
  = numberedInstructions (Path.resolve cwd folder) (fileNames entries)
  /\ Forall (fun e => any_in Path.slash (Fs.name e) = false) entries
  /\ (forall fs', Fs.readdir fs' folder = inr entries ->
        generateRunInstructions cwd folder fs'
        = generateRunInstructions cwd folder fs).
Proof.
  intros H. split; [|split].
  - now apply generateRunInstructions_numbered.
  - eapply readdir_immediate; eauto.
  - intros fs' H'.
    rewrite (generateRunInstructions_numbered cwd _ _ H).
    now apply generateRunInstructions_numbered.
Qed.

Lemma run_instructions_from_root_files_witness :
  Fs.readdir nodeProject (lit "/w/t")
  = inr [Fs.Dirent (lit "package.json") true]
  /\ generateRunInstructions (lit "/w") (lit "/w/t") nodeProject
     = [lit "1. cd /w/t"; lit "2. npm install"; lit "3. npm start"].
Proof.
  split; [vm_compute; reflexivity|].
  refine (eq_trans
            (proj1 (@run_instructions_from_root_files (lit "/w") (lit "/w/t")
                      nodeProject [Fs.Dirent (lit "package.json") true] _))
            _);
    vm_compute; reflexivity.
Defined.

(** C7 as stated fails: the strings carry step numbers. *)
Lemma instructions_are_numbered :
  ~ instructionsAsStated (lit "/w") (lit "/w/t") nodeProject.
Proof.
  intros H.
  specialize (H [Fs.Dirent (lit "package.json") true]).
  assert (E : Fs.readdir nodeProject (lit "/w/t")
              = inr [Fs.Dirent (lit "package.json") true])
    by (vm_compute; reflexivity).
  specialize (H E). vm_compute in H. discriminate.
Qed.

(** C8, as amended.  Content sniffing is the first-match-wins chain of
    the specification, with [<?php] recognised anywhere in the content
    rather than at its start only. *)
Theorem sniffing_order (content : str) :
  inferExtensionFromContent content = sniffing content.
Proof. apply inferExtensionFromContent_sniffing. Qed.

(** C8 as stated fails: [<?php] in the middle of the content gives
    [.php], where the stated chain falls through to [.js]. *)
Lemma php_marker_anywhere :
  inferExtensionFromContent (lit "echo <?php") = lit ".php"
  /\ statedSniffing (lit "echo <?php") = lit ".js"
  /\ inferExtensionFromContent (lit "echo <?php")
     <> statedSniffing (lit "echo <?php").
Proof. repeat split; vm_compute; try reflexivity; discriminate. Qed.

(* ================================================================== *)
(** ** Further properties of the code *)
(* ================================================================== *)

(** X1.  A sanitized folder name has between 1 and 50 code units, all
    of them ASCII letters, digits, [-] or [_]: no separator, no dot, no
    white space. *)
Theorem sanitized_name_shape (task : str) :
  1 <= List.length (sanitizeFolderName task) <= 50
  /\ Forall (fun c => nameChar c = true) (sanitizeFolderName task).
Proof.
  split; [split|].
  - pose proof (sanitize_truthy task) as H.
    destruct (sanitizeFolderName task); [discriminate|cbn; lia].
  - apply sanitize_length.
  - eapply Forall_impl; [|apply sanitize_clean]. apply clean_nameChar.
Qed.

(** X2.  A task without any letter, digit, [-] or [_] gets the fallback
    name [coding_task]. *)
Theorem sanitize_falls_back (task : str) :
  Forall (fun c => nameChar c = false) task ->
  sanitizeFolderName task = lit "coding_task".
Proof. apply sanitize_fallback. Qed.

Lemma sanitize_falls_back_witness :
  Forall (fun c => nameChar c = false) (lit "!!! ???")
  /\ sanitizeFolderName (lit "!!! ???") = lit "coding_task".
Proof.
  assert (H : Forall (fun c => nameChar c = false) (lit "!!! ???"))
    by (repeat constructor).
  split; [exact H|]. apply sanitize_falls_back. exact H.
Defined.

(** X3.  When at least one fenced block has a non-blank body,
    [parseCodeFiles] returns exactly one file per non-blank block, in
    document order: the content is the block's body verbatim and the
    path is resolved with the number of non-blank blocks before it (the
    whole-text fallback is not used). *)
Theorem files_follow_accepted_blocks (codeMarkdown : str) :
  accepted (fencedBlocks codeMarkdown) <> [] ->
  List.length (parseCodeFiles codeMarkdown)
  = List.length (accepted (fencedBlocks codeMarkdown))
  /\ forall i m,
       nth_error (accepted (fencedBlocks codeMarkdown)) i = Some m ->
       nth_error (parseCodeFiles codeMarkdown) i
       = Some (ParsedFile_
                 (resolvePath i (languageTag m) (explicitPath m)
                              (blockBody m))
                 (blockBody m)).
Proof.
  intros Hne. rewrite (parseCodeFiles_accepted _ Hne). split.
  - apply resolvedFrom_length.
  - intros i m H. apply (resolvedFrom_nth _ 0 _ H).
Qed.

Lemma files_follow_accepted_blocks_witness :
  accepted (fencedBlocks blocksWithGap) <> []
  /\ List.length (parseCodeFiles blocksWithGap) = 2.
Proof.
  assert (H : accepted (fencedBlocks blocksWithGap) <> [])
    by (vm_compute; discriminate).
  split; [exact H|].
  refine (eq_trans (proj1 (@files_follow_accepted_blocks blocksWithGap H)) _).
  vm_compute. reflexivity.
Defined.

(** X4.  An explicit [:path] always wins: the file of a non-blank block
    with an explicit path carries that path with one leading [/] or [./]
    removed, whatever its language tag, its body and its position. *)
Theorem explicit_path_wins (codeMarkdown : str) (i : nat) (m : result) :
  nth_error (accepted (fencedBlocks codeMarkdown)) i = Some m ->
  truthy (explicitPath m) = true ->
  nth_error (parseCodeFiles codeMarkdown) i
  = Some (ParsedFile_ (stripOnce (explicitPath m)) (blockBody m)).
Proof.
  intros Hm Hp.
  assert (Hne : accepted (fencedBlocks codeMarkdown) <> [])
    by (destruct (accepted _); [destruct i; discriminate|discriminate]).
  rewrite (parseCodeFiles_accepted _ Hne).
  rewrite (resolvedFrom_nth _ 0 _ Hm). cbn [Nat.add].
  rewrite resolvePath_explicit by exact Hp.
  now rewrite leadingSlash_strips_once.
Qed.

Lemma explicit_path_wins_witness :
  nth_error (accepted (fencedBlocks parentPathBlock)) 0 = Some parentPathMatch
  /\ truthy (explicitPath parentPathMatch) = true
  /\ nth_error (parseCodeFiles parentPathBlock) 0
     = Some (ParsedFile_ (lit "../x.js") (lit "x" ++ nl)).
Proof.
  assert (H : nth_error (accepted (fencedBlocks parentPathBlock)) 0
              = Some parentPathMatch) by (vm_compute; reflexivity).
  split; [exact H|]. split; [reflexivity|].
  exact (@explicit_path_wins parentPathBlock 0 parentPathMatch H eq_refl).
Defined.

(** X5.  Every file [parseCodeFiles] returns has content that is not
    blank: some character of it is not white space. *)
Theorem contents_not_blank (codeMarkdown : str) :
  Forall (fun f => truthy (trim (content f)) = true)
         (parseCodeFiles codeMarkdown).
Proof. apply parseCodeFiles_not_blank. Qed.

(** X6.  The fenced blocks found in a text follow one another in
    document order, each non-empty and inside the text, and no two of
    them overlap. *)
Theorem blocks_in_document_order (codeMarkdown : str) :
  inOrder 0 (List.length codeMarkdown) (fencedBlocks codeMarkdown).
Proof.
  apply exec_loop_inOrder; [apply codeBlockPattern_nonempty|lia].
Qed.

(** X7.  A fenced block is an opening fence, a header without line
    break, a line break, the body, and a closing fence: the body is the
    text between the opening line and the first closing fence, verbatim,
    and it contains no fence itself. *)
Theorem block_body_verbatim (codeMarkdown : str) :
  Forall (fun m =>
            exists header,
              slice codeMarkdown (index m) (stop m)
              = lit "```" ++ header ++ [LF] ++ blockBody m ++ lit "```"
              /\ Forall (fun c => c <> LF) header
              /\ includes (lit "```") (blockBody m) = false)
         (fencedBlocks codeMarkdown).
Proof. apply Forall_forall. intros m H. now apply fencedBlock_shape. Qed.

(** X8.  When [writeFiles] succeeds, it returns the relative paths of
    all extracted files in extraction order, and the folder it returns
    is the base directory joined with the sanitized task name, or with
    that name followed by [_<now>]; the latter only when the plain
    folder already existed as a directory. *)
Theorem writeFiles_returns (basePath : str) (now : nat)
        (task codeMarkdown : str) (fs fs' : Fs.t) (w : Written) :
  writeFiles basePath now task codeMarkdown fs = (fs', inr w) ->
  files w = List.map filePath (parseCodeFiles codeMarkdown)
  /\ (folderPath w = Path.join [basePath; sanitizeFolderName task]
      \/ (folderPath w
          = Path.join [basePath;
                       sanitizeFolderName task ++ lit "_" ++ ofNat now]
          /\ Fs.stat fs (Path.join [basePath; sanitizeFolderName task])
             = inr Fs.Dir)).
Proof.
  intros H. apply writeFiles_success in H.
  destruct H as (fs1 & Hw & Hf). split; [|exact Hf].
  apply writeFilesToFolder_result in Hw. apply Hw.
Qed.

Lemma writeFiles_returns_witness :
  writeFiles (lit "/w") 17 (lit "t") helloWorld
             ((lit "/w/t", Fs.Dir) :: baseOnly)
  = ([ (lit "/w/t_17/main.js", Fs.File helloWorld);
       (lit "/w/t_17", Fs.Dir); (lit "/w/t", Fs.Dir); (lit "/w", Fs.Dir) ],
     inr (Written_ (lit "/w/t_17") [lit "main.js"]))
  /\ [lit "main.js"] = List.map filePath (parseCodeFiles helloWorld).
Proof.
  assert (H : writeFiles (lit "/w") 17 (lit "t") helloWorld
                ((lit "/w/t", Fs.Dir) :: baseOnly)
              = ([ (lit "/w/t_17/main.js", Fs.File helloWorld);
                   (lit "/w/t_17", Fs.Dir); (lit "/w/t", Fs.Dir);
                   (lit "/w", Fs.Dir) ],
                 inr (Written_ (lit "/w/t_17") [lit "main.js"])))
    by (vm_compute; reflexivity).
  split; [exact H|].
  exact (proj1 (@writeFiles_returns _ _ _ _ _ _ _ H)).
Defined.

(** X9.  Whatever its outcome, [writeFiles] removes nothing: every path
    of the file system before is still there after, and every directory
    is still a directory. *)
Theorem writeFiles_preserves (basePath : str) (now : nat)
        (task codeMarkdown : str) (fs fs' : Fs.t)
        (r : error + Written) :
  writeFiles basePath now task codeMarkdown fs = (fs', r) ->
  forall p,
    (Fs.find p fs <> None -> Fs.find p fs' <> None) /\
    (Fs.find p fs = Some Fs.Dir -> Fs.find p fs' = Some Fs.Dir).
Proof. intros H. eapply keeps_writeFiles. exact H. Qed.

Lemma writeFiles_preserves_witness :
  writeFiles (lit "/w") 0 (lit "t") loneSlashBlock baseOnly
  = ([(lit "/w/t", Fs.Dir); (lit "/w", Fs.Dir)],
     inl (FileWriteFailed [] (SysError Fs.EISDIR)))
  /\ (Fs.find (lit "/w") baseOnly = Some Fs.Dir ->
      Fs.find (lit "/w") [(lit "/w/t", Fs.Dir); (lit "/w", Fs.Dir)]
      = Some Fs.Dir).
Proof.
  assert (H : writeFiles (lit "/w") 0 (lit "t") loneSlashBlock baseOnly
              = ([(lit "/w/t", Fs.Dir); (lit "/w", Fs.Dir)],
                 inl (FileWriteFailed [] (SysError Fs.EISDIR))))
    by (vm_compute; reflexivity).
  split; [exact H|].
  exact (proj2 (@writeFiles_preserves _ _ _ _ _ _ _ H (lit "/w"))).
Defined.



(** X11.  When extraction found files, a failure of [writeFiles] is
    never "no files found": it blames a directory that could not be
    created, or the relative path of one of the extracted files. *)
Theorem failure_blames_a_path (basePath : str) (now : nat)
        (task codeMarkdown : str) (fs fs' : Fs.t) (e : error) :
  parseCodeFiles codeMarkdown <> [] ->
  writeFiles basePath now task codeMarkdown fs = (fs', inl e) ->
  (exists dir cause, e = DirectoryCreateFailed dir cause)
  \/ (exists path cause,
        e = FileWriteFailed path cause /\
        In path (List.map filePath (parseCodeFiles codeMarkdown))).
Proof.
  intros Hne H.
  pose proof (@blaming_writeFiles basePath now task codeMarkdown fs fs' e
                Hne H) as Hb.
  destruct e as [|d c|p c|c]; cbn in Hb; try contradiction.
  - left. eauto.
  - right. eauto.
Qed.

Lemma failure_blames_a_path_witness :
  parseCodeFiles loneSlashBlock <> []
  /\ ((exists dir cause,
         FileWriteFailed [] (SysError Fs.EISDIR)
         = DirectoryCreateFailed dir cause)
      \/ (exists path cause,
            FileWriteFailed [] (SysError Fs.EISDIR)
            = FileWriteFailed path cause /\
            In path (List.map filePath (parseCodeFiles loneSlashBlock)))).
Proof.
  assert (Hne : parseCodeFiles loneSlashBlock <> [])
    by (vm_compute; discriminate).
  split; [exact Hne|].
  apply (@failure_blames_a_path (lit "/w") 0 (lit "t") loneSlashBlock
           baseOnly [(lit "/w/t", Fs.Dir); (lit "/w", Fs.Dir)]);
    [exact Hne|vm_compute; reflexivity].
Defined.

(** X12.  The run instructions always begin with ["1. cd <abs>"] for the
    resolved project folder and have one or two further lines, also when
    the folder cannot be listed. *)
Theorem first_instruction_is_cd (cwd folder : str) (fs : Fs.t) :
  exists rest,
    generateRunInstructions cwd folder fs
    = (lit "1. cd " ++ Path.resolve cwd folder) :: rest
    /\ 1 <= List.length rest <= 2.
Proof. apply generateRunInstructions_head. Qed.

(** X13.  With a base directory that is an absolute path of plain
    segments, the folder a successful [writeFiles] returns is a direct
    child of the base directory, whatever the task string is: its name
    is a single plain segment. *)
Theorem project_folder_is_child_of_base
        (segs : list str) (now : nat) (task codeMarkdown : str)
        (fs fs' : Fs.t) (w : Written) :
  Forall (fun seg => plainSeg seg = true) segs ->
  writeFiles (absPath segs) now task codeMarkdown fs = (fs', inr w) ->
  Path.dirname (folderPath w) = absPath segs
  /\ exists name, plainSeg name = true /\
                  folderPath w = absPath (segs ++ [name]).
Proof.
  intros Hs H. apply writeFiles_success in H.
  destruct H as (_ & _ & [Hf|[Hf _]]); rewrite Hf.
  - destruct (@child_of_base segs _ Hs (sanitize_plain task)) as [E D].
    split; [exact D|]. exists (sanitizeFolderName task).
    split; [apply sanitize_plain|exact E].
  - destruct (@child_of_base segs _ Hs (stamped_plain task now)) as [E D].
    split; [exact D|].
    exists (sanitizeFolderName task ++ lit "_" ++ ofNat now).
    split; [apply stamped_plain|exact E].
Qed.

Lemma project_folder_is_child_of_base_witness :
  Forall (fun seg => plainSeg seg = true) [lit "w"]
  /\ Path.dirname (lit "/w/etcpasswd") = lit "/w".
Proof.
  assert (Hs : Forall (fun seg => plainSeg seg = true) [lit "w"])
    by (repeat constructor).
  split; [exact Hs|].
  refine (proj1 (@project_folder_is_child_of_base [lit "w"] 0
                   (lit "../../etc/passwd") helloWorld baseOnly
                   [ (lit "/w/etcpasswd/main.js", Fs.File helloWorld);
                     (lit "/w/etcpasswd", Fs.Dir); (lit "/w", Fs.Dir) ]
                   (Written_ (lit "/w/etcpasswd") [lit "main.js"]) Hs _)).
  vm_compute. reflexivity.
Defined.

(** X14.  A block that is named by its position (no explicit path, no
    path from a comment) gets a file name that is a single plain
    segment: joined to a project folder of plain segments it is a direct
    child of that folder, so no sub-directory is created for it. *)
Theorem position_named_file_is_direct_child
        (blockIndex : nat) (language actualContent : str)
        (segs : list str) :
  truthy (trim actualContent) = true ->
  commentPath commentPatterns actualContent = [] ->
  Forall (fun seg => plainSeg seg = true) segs ->
  plainSeg (resolvePath blockIndex language [] actualContent) = true
  /\ Path.dirname
       (Path.join [absPath segs;
                   resolvePath blockIndex language [] actualContent])
     = absPath segs.
Proof.
  intros Hb Hc Hs.
  pose proof (@resolvePath_position_plain blockIndex language actualContent
                Hb Hc) as Hp.
  split; [exact Hp|]. apply (@child_of_base segs _ Hs Hp).
Qed.

Lemma position_named_file_is_direct_child_witness :
  truthy (trim (lit "a" ++ nl)) = true
  /\ commentPath commentPatterns (lit "a" ++ nl) = []
  /\ Path.dirname (Path.join [lit "/w/t"; lit "file3.py"]) = lit "/w/t".
Proof.
  split; [reflexivity|]. split; [vm_compute; reflexivity|].
  refine (eq_trans _
            (proj2 (@position_named_file_is_direct_child 2 (lit "py")
                      (lit "a" ++ nl) [lit "w"; lit "t"] eq_refl _ _))).
  - vm_compute. reflexivity.
  - vm_compute. reflexivity.
  - repeat constructor.
Defined.

(** *** The agents' reading of a model reply *)

Import Agents.

(** X15.  In [decompose] and [analyzeCode], a reply that begins with a
    fence (after trimming) reaches [JSON.parse] without any fence left
    in it: the global replacements remove every run of three backticks,
    and removing one never brings a new one together. *)
Theorem reply_fences_removed (text : str) :
  startsWith (lit "```") (trim text) = true ->
  includes (lit "```") (extractJson text) = false.
Proof.
  intros H. unfold extractJson. cbv zeta.
  destruct (startsWith (lit "```json") (trim text)).
  - rewrite replace_fence. apply dropFences_clean.
  - rewrite H, replace_fence. apply dropFences_clean.
Qed.

Lemma reply_fences_removed_witness :
  startsWith (lit "```")
    (trim (lit " ```json" ++ nl ++ lit "{````}" ++ nl ++ lit "``` ")) = true
  /\ includes (lit "```")
       (extractJson
          (lit " ```json" ++ nl ++ lit "{````}" ++ nl ++ lit "``` "))
     = false.
Proof.
  split; [vm_compute; reflexivity|].
  apply (@reply_fences_removed
           (lit " ```json" ++ nl ++ lit "{````}" ++ nl ++ lit "``` ")).
  vm_compute. reflexivity.
Defined.

(** X16.  A reply that is, after trimming, one fenced block (opened by
    three backticks or by three backticks and [json], closed by three
    backticks on a line of their own) whose body contains no fence is
    unwrapped to that body followed by one line feed. *)
Theorem fenced_reply_unwrapped (text tag body : str) :
  tag = lit "json" \/ tag = [] ->
  trim text = lit "```" ++ tag ++ LF :: body ++ LF :: lit "```" ->
  includes (lit "```") body = false ->
  extractJson text = body ++ [LF].
Proof.
  intros Ht Et Hb. unfold extractJson. cbv zeta. rewrite Et.
  destruct Ht as [Ht|Ht]; subst tag.
  - change (lit "```" ++ lit "json" ++ LF :: body ++ LF :: lit "```")
      with (lit "```json" ++ LF :: body ++ LF :: lit "```").
    rewrite startsWith_prefix.
    rewrite (@replace_jsonFence_wrapped body Hb), replace_fence.
    apply (@dropFences_body body Hb).
  - change (startsWith (lit "```json")
              (lit "```" ++ [] ++ LF :: body ++ LF :: lit "```"))
      with false.
    change (startsWith (lit "```")
              (lit "```" ++ [] ++ LF :: body ++ LF :: lit "```"))
      with true.
    cbv iota. rewrite replace_fence.
    change (dropFences (lit "```" ++ [] ++ LF :: body ++ LF :: lit "```"))
      with (dropFences (body ++ LF :: lit "```")).
    apply (@dropFences_body body Hb).
Qed.

Lemma fenced_reply_unwrapped_witness :
  extractJson (nl ++ lit "```json" ++ nl ++ lit "{}" ++ nl ++ lit "```" ++ nl)
  = lit "{}" ++ nl.
Proof.
  apply (@fenced_reply_unwrapped
           (nl ++ lit "```json" ++ nl ++ lit "{}" ++ nl ++ lit "```" ++ nl)
           (lit "json") (lit "{}")).
  - left. reflexivity.
  - vm_compute. reflexivity.
  - vm_compute. reflexivity.
Defined.

(** *** The tree drawn from a list of paths *)

(** X17.  The tree of [generateDirectoryTree] opens with the base name
    of the folder followed by [/], and has beside this line one line
    for every listed file and one for every distinct directory (other
    than [.]) that holds a listed file. *)
Theorem tree_has_a_line_per_file_and_directory
        (folderPath : str) (files : list str) :
  exists dirs,
    NoDup dirs
    /\ (forall d, In d dirs <->
                  d <> lit "." /\ exists f, In f files /\ Path.dirname f = d)
    /\ hd [] (tree folderPath files) = Path.basename folderPath ++ lit "/"
    /\ List.length (tree folderPath files)
       = 1 + List.length files + List.length dirs.
Proof.
  exists (filter notRoot (List.map fst (groupByDirectory (sort files)))).
  split; [|split; [|split]].
  - apply NoDup_filter. unfold groupByDirectory.
    apply group_nodup. constructor.
  - intros d. apply subdirs_spec.
  - reflexivity.
  - apply tree_length.
Qed.

(** X18.  The drawn tree depends on which paths are listed, not on the
    order in which they are given. *)
Theorem tree_ignores_file_order (folderPath : str) (files files' : list str) :
  Permutation files files' ->
  generateDirectoryTree folderPath files
  = generateDirectoryTree folderPath files'.
Proof.
  intros P. unfold generateDirectoryTree, tree.
  rewrite (@sort_order_free files files' P). reflexivity.
Qed.

Lemma tree_ignores_file_order_witness :
  generateDirectoryTree (lit "/w/p") [lit "src/b.js"; lit "a.js"]
  = generateDirectoryTree (lit "/w/p") [lit "a.js"; lit "src/b.js"].
Proof.
  apply (@tree_ignores_file_order (lit "/w/p")
           [lit "src/b.js"; lit "a.js"] [lit "a.js"; lit "src/b.js"]).
  apply perm_swap.
Defined.

(** X19.  Every listed file has a line in the tree: a connector, a
    space and the base name of the file, with no indentation when the
    file is at the top of the project and an indentation of four
    characters when it is in a directory. *)
Theorem tree_lists_every_file (folderPath : str) (files : list str) (f : str) :
  In f files ->
  exists prefix conn,
    In (prefix ++ conn ++ lit " " ++ Path.basename f) (tree folderPath files)
    /\ (conn = branch \/ conn = lastBranch)
    /\ List.length prefix
       = (if str_eqb (Path.dirname f) (lit ".") then 0 else 4).
Proof.
  intros Hin. apply sort_In in Hin.
  destruct (@group_lists (sort files) [] f Hin) as (vs & Hg & Hv).
  fold (groupByDirectory (sort files)) in Hg.
  unfold tree. cbv zeta.
  destruct (str_eqb (Path.dirname f) (lit ".")) eqn:E.
  - apply str_eqb_eq in E. rewrite E in Hg.
    assert (Hr : getOrEmpty (lit ".") (groupByDirectory (sort files)) = vs)
      by (unfold getOrEmpty; now rewrite Hg).
    rewrite Hr.
    destruct (@fileLines_In []
                (match filter notRoot
                         (List.map fst (groupByDirectory (sort files)))
                 with [] => true | _ :: _ => false end)
                (Path.basename f) vs Hv) as (conn & Hc & Hl).
    exists [], conn. split; [|split; [exact Hc|reflexivity]].
    right. apply in_or_app. now left.
  - assert (Hd : In (Path.dirname f)
                    (filter notRoot
                       (List.map fst (groupByDirectory (sort files))))).
    { apply subdirs_spec. split.
      - intros Hx. rewrite Hx, str_eqb_refl in E. discriminate.
      - exists f. split; [now apply sort_In|reflexivity]. }
    assert (Hr : In (Path.basename f)
                    (getOrEmpty (Path.dirname f)
                                (groupByDirectory (sort files))))
      by (unfold getOrEmpty; now rewrite Hg).
    destruct (@dirLines_In (groupByDirectory (sort files)) _ _ _ Hd Hr)
      as (prefix & conn & Hp & Hc & Hl).
    exists prefix, conn. split; [|split; [exact Hc|exact Hp]].
    right. apply in_or_app. now right.
Qed.

Lemma tree_lists_every_file_witness :
  exists prefix conn,
    In (prefix ++ conn ++ lit " " ++ Path.basename (lit "src/b.js"))
       (tree (lit "/w/p") [lit "a.js"; lit "src/b.js"])
    /\ (conn = branch \/ conn = lastBranch)
    /\ List.length prefix
       = (if str_eqb (Path.dirname (lit "src/b.js")) (lit ".")
          then 0 else 4).
Proof.
  apply (@tree_lists_every_file (lit "/w/p")
           [lit "a.js"; lit "src/b.js"] (lit "src/b.js")).
  right. left. reflexivity.
Defined.

(** X20.  Directories are drawn flat: every directory that holds a
    listed file, at whatever depth, has a line at the top level of the
    tree that names only its last segment. *)
Theorem tree_flattens_directories
        (folderPath : str) (files : list str) (f : str) :
  In f files -> Path.dirname f <> lit "." ->
  exists conn,
    (conn = branch \/ conn = lastBranch)
    /\ In (conn ++ lit " " ++ dirName (Path.dirname f) ++ lit "/")
          (tree folderPath files).
Proof.
  intros Hin Hd.
  assert (Hs : In (Path.dirname f)
                  (filter notRoot
                     (List.map fst (groupByDirectory (sort files)))))
    by (apply subdirs_spec; split; [exact Hd|exists f; auto]).
  destruct (@dirLines_header (groupByDirectory (sort files)) _ _ Hs)
    as (conn & Hc & Hl).
  exists conn. split; [exact Hc|].
  unfold tree. cbv zeta. right. apply in_or_app. now right.
Qed.

Lemma tree_flattens_directories_witness :
  exists conn,
    (conn = branch \/ conn = lastBranch)
    /\ In (conn ++ lit " x/")
          (tree (lit "/w/p") [lit "lib/x/c.js"; lit "a.js"]).
Proof.
  apply (@tree_flattens_directories (lit "/w/p")
           [lit "lib/x/c.js"; lit "a.js"] (lit "lib/x/c.js")).
  - left. reflexivity.
  - vm_compute. discriminate.
Defined.
